(** * Max-pooling kernels of [src/bits/pooling.cpp]

    A shallow embedding of the four operators of the file
    ([maxPooling_cpu], [maxPooling_gpu], [maxPoolingBackward_cpu],
    [maxPoolingBackward_gpu], with the two CUDA kernels) and the
    properties of them that the specification states.

    Conventions of the embedding.
    - A [size_t] is a [Z] in [0, 2^64), an [int] a [Z] in [-2^31, 2^31);
      every arithmetic operation of the source is written with the
      wrap-around of the type it is computed in ([size_add], [int_mul],
      ...), and every implicit conversion is written out ([size_of_int],
      [int_of_size]).  Signed overflow and the conversion of a value that
      does not fit are modelled as two's complement wrap-around.  The
      theorems about whole operators assume a volume that an [int] can
      address ([int_addressable]), on which nothing wraps.
    - A buffer is a [list] of scalars, a pointer an offset into it.  A
      load or store outside the buffer has no defined behaviour in the
      source; here it makes the operator return [None].  An operator that
      returns [Some] has made every access inside its buffers.
    - The scalar type of the templates is a parameter, with the
      operations the code uses on it (comparison, [max], addition, the
      constant [-FLT_MAX]).  Three instances: IEEE 754 [float] and
      [double] on the Standard Library's [spec_float], and integers with
      exact arithmetic.
    - A kernel launch runs the kernel body once per thread of the grid, in
      an order chosen by a scheduler.  Each thread of the two kernels
      reads buffers no thread writes and then performs one store or one
      [atomicAdd], so a sequence of whole threads describes every
      interleaving. *)

From Stdlib Require Import ZArith List Bool Lia Permutation.
From Stdlib Require Import Floats.SpecFloat.
Import ListNotations.
Local Open Scope Z_scope.

(* ================================================================= *)
(** ** Machine integers *)

Definition INT_MAX : Z := 2 ^ 31 - 1.

(** Reduction of a mathematical integer into [size_t], [unsigned int]
    and [int]. *)
Definition to_size_t (x : Z) : Z := x mod 2 ^ 64.
Definition to_uint (x : Z) : Z := x mod 2 ^ 32.
Definition to_int (x : Z) : Z := (x + 2 ^ 31) mod 2 ^ 32 - 2 ^ 31.

(** Implicit conversions. *)
Definition size_of_int (i : Z) : Z := to_size_t i.
Definition int_of_size (s : Z) : Z := to_int s.
Definition int_of_uint (u : Z) : Z := to_int u.

(** [size_t] arithmetic. *)
Definition size_add (a b : Z) : Z := to_size_t (a + b).
Definition size_sub (a b : Z) : Z := to_size_t (a - b).
Definition size_mul (a b : Z) : Z := to_size_t (a * b).
Definition size_div (a b : Z) : Z := a / b.

(** [unsigned int] arithmetic (thread and block indices). *)
Definition uint_add (a b : Z) : Z := to_uint (a + b).
Definition uint_mul (a b : Z) : Z := to_uint (a * b).

(** [int] arithmetic; [/] and [%] truncate towards zero. *)
Definition int_add (a b : Z) : Z := to_int (a + b).
Definition int_mul (a b : Z) : Z := to_int (a * b).
Definition int_div (a b : Z) : Z := Z.quot a b.
Definition int_mod (a b : Z) : Z := Z.rem a b.

(* ================================================================= *)
(** ** Buffers, loops *)

Definition load {A : Type} (buf : list A) (p : Z) : option A :=
  if p <? 0 then None else nth_error buf (Z.to_nat p).

(** The buffer with element [n] replaced. *)
Fixpoint update {A : Type} (buf : list A) (n : nat) (v : A) : list A :=
  match buf, n with
  | [], _ => []
  | _ :: rest, O => v :: rest
  | x :: rest, S n' => x :: update rest n' v
  end.

Definition store {A : Type} (buf : list A) (p : Z) (v : A) : option (list A) :=
  if (0 <=? p) && (p <? Z.of_nat (length buf))
  then Some (update buf (Z.to_nat p) v)
  else None.

Notation "x <- e ;; k" :=
  (match e with Some x => k | None => None end)
  (at level 61, e at next level, right associativity).

Notation "' p <- e ;; k" :=
  (match e with Some p => k | None => None end)
  (at level 61, p pattern, e at next level, right associativity).

(** The values [lo, lo+1, ..., hi-1] of a loop variable. *)
Definition range (lo hi : Z) : list Z :=
  map (fun k => lo + Z.of_nat k) (seq 0 (Z.to_nat (hi - lo))).

Fixpoint foldM {S : Type} (body : Z -> S -> option S) (l : list Z) (s : S)
  : option S :=
  match l with
  | [] => Some s
  | i :: l' => s' <- body i s ;; foldM body l' s'
  end.

(** [for (int i = lo; i < hi; ++i) body], the bound [hi] not modified by
    the body.  The loops over the channels compare the [int] counter with
    the [size_t] [depth]; the counter is used for nothing else. *)
Definition for_ {S : Type} (lo hi : Z) (body : Z -> S -> option S) (s : S)
  : option S :=
  foldM body (range lo hi) s.

(* ================================================================= *)
(** ** The scalar type of the templates *)

Class Scalar (T : Type) := {
  s_lt : T -> T -> bool;        (* [a < b]; the code's [x > y] is [s_lt y x] *)
  s_max : T -> T -> T;          (* [max(a, b)] *)
  s_add : T -> T -> T;          (* [+=] and [atomicAdd] *)
  neg_FLT_MAX : T               (* the constant [-FLT_MAX], converted to [T] *)
}.

(** The code's [x > y]. *)
Definition s_gt {T : Type} {ST : Scalar T} (x y : T) : bool := s_lt y x.

(** Scalars whose values are integers, with exact arithmetic: integers are
    exactly representable in both floating-point types as long as they
    are small, and [FLT_MAX] is the integer [2^128 - 2^104]. *)
Definition exact_scalar : Scalar Z := {|
  s_lt := Z.ltb;
  s_max := Z.max;
  s_add := Z.add;
  neg_FLT_MAX := - (2 ^ 128 - 2 ^ 104)
|}.

(** IEEE 754 scalars, on the Standard Library's [spec_float]. [max] on
    floating-point numbers returns the other argument when one is not a
    number. *)
Definition SFmaxnum (a b : spec_float) : spec_float :=
  match a, b with
  | S754_nan, _ => b
  | _, S754_nan => a
  | _, _ => if SFltb a b then b else a
  end.

(** [FLT_MAX] is the greatest finite [float], [(2^24 - 1) * 2^104]. *)
Definition SF_neg_FLT_MAX : spec_float := S754_finite true (2 ^ 24 - 1) 104.

(** The conversion of a [float] to [double], which is exact. *)
Definition double_of_float (x : spec_float) : spec_float :=
  match x with
  | S754_finite s m e => binary_normalize 53 1024 (cond_Zopp s (Zpos m)) e false
  | _ => x
  end.

(** [float]: binary32, 24 bits of precision, exponents below 128. *)
Definition float_scalar : Scalar spec_float := {|
  s_lt := SFltb;
  s_max := SFmaxnum;
  s_add := SFadd 24 128;
  neg_FLT_MAX := SF_neg_FLT_MAX
|}.

(** [double]: binary64, 53 bits of precision, exponents below 1024. *)
Definition double_scalar : Scalar spec_float := {|
  s_lt := SFltb;
  s_max := SFmaxnum;
  s_add := SFadd 53 1024;
  neg_FLT_MAX := double_of_float SF_neg_FLT_MAX
|}.

(** The place of a floating-point number that is not NaN in the order of
    [<]: the sign, then the exponent, then the mantissa, read in the
    lexicographic order [lex_lt]. *)
Definition SF_rank (x : spec_float) : Z * Z * Z :=
  match x with
  | S754_infinity true => (-2, 0, 0)
  | S754_finite true m e => (-1, - e, - Zpos m)
  | S754_zero _ => (0, 0, 0)
  | S754_nan => (0, 0, 0)
  | S754_finite false m e => (1, e, Zpos m)
  | S754_infinity false => (2, 0, 0)
  end.

Definition lex_lt (a b : Z * Z * Z) : Prop :=
  let '(a1, a2, a3) := a in
  let '(b1, b2, b3) := b in
  a1 < b1 \/ (a1 = b1 /\ (a2 < b2 \/ (a2 = b2 /\ a3 < b3))).

(** The lowest finite value and the negative infinity of a format. *)
Definition SF_lowest (prec emax : Z) : spec_float := SFopp (SFmax_float prec emax).
Definition SF_neg_infinity : spec_float := S754_infinity true.

(* ================================================================= *)
(** ** The operators *)

(** What the parallel operators take from outside this file: the block
    size [CAFFE_CUDA_NUM_THREADS] of caffe-scraps.hpp, and the order in
    which the hardware runs the threads of a grid. *)
Class Device := {
  CAFFE_CUDA_NUM_THREADS : Z;
  schedule : list (Z * Z) -> list (Z * Z)
}.

Section Operators.

Context {T : Type} {ST : Scalar T} {DV : Device}.

(** The pooled extent along one axis: the expression
    [(width - poolSize)/poolStride + 1], computed in [size_t] and stored
    in an [int], as it stands at lines 26-27, 111-112, 150-151 and
    259-260 of the source. *)
Definition pooledExtent (size poolSize poolStride : Z) : Z :=
  int_of_size (size_add (size_div (size_sub size poolSize) poolStride) (size_of_int 1)).

(** The window of an output coordinate in the sequential operators
    (lines 32-35 and 156-159): [int start = p * poolStride] and
    [int end = std::min(start + poolSize, size)], computed in [size_t]. *)
Definition window_start_cpu (p poolStride : Z) : Z :=
  int_of_size (size_mul (size_of_int p) poolStride).
Definition window_end_cpu (start poolSize size : Z) : Z :=
  int_of_size (Z.min (size_add (size_of_int start) poolSize) size).

(** The same in the kernels (lines 87-90 and 221-224), in [int]. *)
Definition window_start_gpu (p stride : Z) : Z := int_mul p stride.
Definition window_end_gpu (start ksize size : Z) : Z :=
  Z.min (int_add start ksize) size.

(* ----------------------------------------------------------------- *)
(** *** maxPooling (CPU) *)

(** Lines 32-41: the body of the loop over [pw], the work for one output
    cell.  [data] and [pooled] are the two pointers, which the loop over
    the channels advances. *)
Definition maxPooling_cpu_cell (data0 : list T)
    (width height poolSize poolStride pooledWidth : Z)
    (data pooled : Z) (ph pw : Z) (mem : list T) : option (list T) :=
  let hstart := window_start_cpu ph poolStride in
  let wstart := window_start_cpu pw poolStride in
  let hend := window_end_cpu hstart poolSize height in
  let wend := window_end_cpu wstart poolSize width in
  for_ hstart hend (fun h mem =>
    for_ wstart wend (fun w mem =>
      a <- load mem (pooled + int_add (int_mul ph pooledWidth) pw) ;;
      b <- load data0
             (data + size_add (size_mul (size_of_int h) width) (size_of_int w)) ;;
      store mem (pooled + int_add (int_mul ph pooledWidth) pw) (s_max a b)) mem) mem.

Definition maxPooling_cpu (pooled0 data0 : list T)
    (width height depth poolSize poolStride : Z) : option (list T) :=
  let pooledWidth := pooledExtent width poolSize poolStride in
  let pooledHeight := pooledExtent height poolSize poolStride in
  '(mem, _, _) <-
    for_ 0 depth (fun c '(mem, data, pooled) =>
      mem <-
        for_ 0 pooledHeight (fun ph mem =>
          for_ 0 pooledWidth (fun pw mem =>
            maxPooling_cpu_cell data0 width height poolSize poolStride pooledWidth
              data pooled ph pw mem) mem) mem ;;
      Some (mem,
            data + size_mul width height,
            pooled + int_mul pooledWidth pooledHeight))
      (pooled0, 0, 0) ;;
  Some mem.

(** Template instantiations at lines 49-65: [float] and [double]. *)

(* ----------------------------------------------------------------- *)
(** *** Kernel launches *)

(** The threads of a launch [<<<gridDim, blockDim>>>], as pairs
    [(blockIdx.x, threadIdx.x)]. *)
Definition grid (gridDim blockDim : Z) : list (Z * Z) :=
  flat_map (fun b => map (fun t => (b, t)) (range 0 blockDim)) (range 0 gridDim).

Fixpoint run_threads {M : Type} (kernel : Z -> Z -> M -> option M)
    (threads : list (Z * Z)) (m : M) : option M :=
  match threads with
  | [] => Some m
  | (b, t) :: rest => m' <- kernel b t m ;; run_threads kernel rest m'
  end.

(** A launch runs the kernel for every thread of the grid, in the order
    the device's scheduler picks. *)
Definition launch {M : Type} (gridDim blockDim : Z)
    (kernel : Z -> Z -> Z -> M -> option M) (m : M) : option M :=
  run_threads (fun b t => kernel b t blockDim) (schedule (grid gridDim blockDim)) m.

(** Modelled from the spec: [CAFFE_GET_BLOCKS] is defined in
    caffe-scraps.hpp, which is not among the sources.  The spec: "the
    total unit count is rounded up to a whole number of blocks". *)
Definition CAFFE_GET_BLOCKS (N : Z) : Z :=
  int_div (int_add (int_add N CAFFE_CUDA_NUM_THREADS) (-1)) CAFFE_CUDA_NUM_THREADS.

(* ----------------------------------------------------------------- *)
(** *** maxPooling (GPU) *)

Definition maxPooling_gpu_kernel (blockIdx threadIdx blockDim : Z)
    (nthreads : Z) (bottom_data : list T)
    (num channels height width pooled_height pooled_width ksize stride : Z)
    (top_data : list T) : option (list T) :=
  let index := int_of_uint (uint_add threadIdx (uint_mul blockIdx blockDim)) in
  if index <? nthreads then
    let pw := int_mod index pooled_width in
    let ph := int_mod (int_div index pooled_width) pooled_height in
    let c := int_mod (int_div (int_div index pooled_width) pooled_height) channels in
    let n := int_div (int_div (int_div index pooled_width) pooled_height) channels in
    let hstart := window_start_gpu ph stride in
    let hend := window_end_gpu hstart ksize height in
    let wstart := window_start_gpu pw stride in
    let wend := window_end_gpu wstart ksize width in
    let maxval := neg_FLT_MAX in
    let bottom := int_mul (int_mul (int_add (int_mul n channels) c) height) width in
    maxval <-
      for_ hstart hend (fun h maxval =>
        for_ wstart wend (fun w maxval =>
          x <- load bottom_data (bottom + int_add (int_mul h width) w) ;;
          Some (s_max maxval x)) maxval) maxval ;;
    store top_data index maxval
  else Some top_data.

Definition maxPooling_gpu (pooled data : list T)
    (width height depth poolSize poolStride : Z) : option (list T) :=
  let pooledWidth := pooledExtent width poolSize poolStride in
  let pooledHeight := pooledExtent height poolSize poolStride in
  let count := int_of_size (size_mul (size_of_int (int_mul pooledWidth pooledHeight)) depth) in
  launch (CAFFE_GET_BLOCKS count) CAFFE_CUDA_NUM_THREADS
    (fun blockIdx threadIdx blockDim top_data =>
       maxPooling_gpu_kernel blockIdx threadIdx blockDim
         count data 1 (int_of_size depth) (int_of_size height) (int_of_size width)
         pooledHeight pooledWidth (int_of_size poolSize) (int_of_size poolStride)
         top_data)
    pooled.

(* ----------------------------------------------------------------- *)
(** *** maxPoolingBackward (CPU) *)

(** Lines 156-172: the body of the loop over [pw], the work for one
    output cell.  [data], [dzdx] and [dzdy] are the three pointers, which
    the loop over the channels advances. *)
Definition maxPoolingBackward_cpu_cell (data0 dzdy0 : list T)
    (width height poolSize poolStride pooledWidth : Z)
    (data dzdx dzdy : Z) (ph pw : Z) (mem : list T) : option (list T) :=
  let hstart := window_start_cpu ph poolStride in
  let wstart := window_start_cpu pw poolStride in
  let hend := window_end_cpu hstart poolSize height in
  let wend := window_end_cpu wstart poolSize width in
  let bestIndex :=
    int_of_size (size_add (size_mul (size_of_int hstart) width) (size_of_int wstart)) in
  bestValue <- load data0 (data + bestIndex) ;;
  '(_, bestIndex) <-
    for_ hstart hend (fun h best =>
      for_ wstart wend (fun w '(bestValue, bestIndex) =>
        let index :=
          int_of_size (size_add (size_mul (size_of_int h) width) (size_of_int w)) in
        x <- load data0 (data + index) ;;
        if s_gt x bestValue
        then Some (x, index)
        else Some (bestValue, bestIndex)) best)
      (bestValue, bestIndex) ;;
  g <- load dzdy0 (dzdy + int_add (int_mul ph pooledWidth) pw) ;;
  old <- load mem (dzdx + bestIndex) ;;
  store mem (dzdx + bestIndex) (s_add old g).

Definition maxPoolingBackward_cpu (dzdx0 data0 dzdy0 : list T)
    (width height depth poolSize poolStride : Z) : option (list T) :=
  let pooledWidth := pooledExtent width poolSize poolStride in
  let pooledHeight := pooledExtent height poolSize poolStride in
  '(mem, _, _, _) <-
    for_ 0 depth (fun c '(mem, data, dzdx, dzdy) =>
      mem <-
        for_ 0 pooledHeight (fun ph mem =>
          for_ 0 pooledWidth (fun pw mem =>
            maxPoolingBackward_cpu_cell data0 dzdy0
              width height poolSize poolStride pooledWidth
              data dzdx dzdy ph pw mem) mem) mem ;;
      Some (mem,
            data + size_mul width height,
            dzdx + size_mul width height,
            dzdy + int_mul pooledWidth pooledHeight))
      (dzdx0, 0, 0, 0) ;;
  Some mem.

(* ----------------------------------------------------------------- *)
(** *** maxPoolingBackward (GPU) *)

(** [atomicAdd(address, val)]: one indivisible read-modify-write. *)
Definition atomicAdd (mem : list T) (address : Z) (val : T) : option (list T) :=
  old <- load mem address ;; store mem address (s_add old val).

Definition maxPoolingBackward_gpu_kernel (blockIdx threadIdx blockDim : Z)
    (nthreads : Z) (bottom_data top_diff : list T)
    (num channels height width pooled_height pooled_width ksize stride : Z)
    (bottom_diff : list T) : option (list T) :=
  let index := int_of_uint (uint_add threadIdx (uint_mul blockIdx blockDim)) in
  if index <? nthreads then
    let pw := int_mod index pooled_width in
    let ph := int_mod (int_div index pooled_width) pooled_height in
    let c := int_mod (int_div (int_div index pooled_width) pooled_height) channels in
    let n := int_div (int_div (int_div index pooled_width) pooled_height) channels in
    let hstart := window_start_gpu ph stride in
    let hend := window_end_gpu hstart ksize height in
    let wstart := window_start_gpu pw stride in
    let wend := window_end_gpu wstart ksize width in
    let bestValue := neg_FLT_MAX in
    let bestIndex := 0 in
    let bottom := int_mul (int_mul (int_add (int_mul n channels) c) height) width in
    '(_, bestIndex) <-
      for_ hstart hend (fun h best =>
        for_ wstart wend (fun w '(bestValue, bestIndex) =>
          let index' := int_add (int_mul h width) w in
          x <- load bottom_data (bottom + index') ;;
          if s_gt x bestValue
          then Some (x, index')
          else Some (bestValue, bestIndex)) best)
        (bestValue, bestIndex) ;;
    g <- load top_diff index ;;
    atomicAdd bottom_diff bestIndex g
  else Some bottom_diff.

Definition maxPoolingBackward_gpu (dzdx data dzdy : list T)
    (width height depth poolSize poolStride : Z) : option (list T) :=
  let pooledWidth := pooledExtent width poolSize poolStride in
  let pooledHeight := pooledExtent height poolSize poolStride in
  let count := int_of_size (size_mul (size_of_int (int_mul pooledWidth pooledHeight)) depth) in
  launch (CAFFE_GET_BLOCKS count) CAFFE_CUDA_NUM_THREADS
    (fun blockIdx threadIdx blockDim bottom_diff =>
       maxPoolingBackward_gpu_kernel blockIdx threadIdx blockDim
         count data dzdy 1 (int_of_size depth) (int_of_size height) (int_of_size width)
         pooledHeight pooledWidth (int_of_size poolSize) (int_of_size poolStride)
         bottom_diff)
    dzdx.

End Operators.

(* ================================================================= *)
(** ** Preconditions *)

(** The geometry the operators are specified for.  [depth] is a [size_t],
    hence not negative. *)
Definition valid_geometry (width height depth poolSize poolStride : Z) : Prop :=
  1 <= poolSize /\ 1 <= poolStride /\
  poolSize <= width /\ poolSize <= height /\ 0 <= depth.

(** The code keeps coordinates, element indices and the work count in
    [int] variables: the volume has to be addressable with an [int]. *)
Definition int_addressable (width height depth : Z) : Prop :=
  width * height <= INT_MAX /\ width * height * depth <= INT_MAX.

(** The launches need a positive block size, and thread indices, which
    the kernels keep in an [int], that fit: the grid has less than one
    block more than the volume has elements. *)
Definition launchable {DV : Device} (width height depth : Z) : Prop :=
  0 < CAFFE_CUDA_NUM_THREADS /\
  width * height * depth + CAFFE_CUDA_NUM_THREADS <= INT_MAX.

(** The hardware runs every thread of a grid once, in an order of its own. *)
Definition fair_schedule {DV : Device} : Prop :=
  forall g : list (Z * Z), Permutation (schedule g) g.

(** Two devices: threads in the order of their indices, and in the
    opposite order. *)
Definition in_order (blockSize : Z) : Device :=
  {| CAFFE_CUDA_NUM_THREADS := blockSize; schedule := fun g => g |}.
Definition reversed (blockSize : Z) : Device :=
  {| CAFFE_CUDA_NUM_THREADS := blockSize; schedule := @rev (Z * Z) |}.

(** Integers as [float] and as [double] values. *)
Definition float_of_Z (z : Z) : spec_float := binary_normalize 24 128 z 0 false.
Definition double_of_Z (z : Z) : spec_float := binary_normalize 53 1024 z 0 false.

(** The volume of the scenario of the specification: one channel of 4 x 4
    elements, row-major. *)
Definition scenario : list Z :=
  [1; 2; 5; 6;   3; 4; 7; 8;   9; 10; 13; 14;   11; 12; 15; 16].

(** The pooled extent of the specification: floor division on integers. *)
Definition pooled_extent_spec (size poolSize poolStride : Z) : Z :=
  (size - poolSize) / poolStride + 1.

(* ================================================================= *)
(** ** The backward pass in the words of the specification *)

Section Reference.

Context {T : Type} {ST : Scalar T}.

(** Element [i] of a buffer (looked at inside the buffer only). *)
Definition peek (buf : list T) (i : Z) : T := nth (Z.to_nat i) buf neg_FLT_MAX.

(** [buf[i] += g]. *)
Definition add_at (buf : list T) (i : Z) (g : T) : list T :=
  update buf (Z.to_nat i) (s_add (peek buf i) g).

(** Position of element [(c, h, w)] in a channel-major volume whose planes
    are [height] rows of [width] elements. *)
Definition volume_index (width height c h w : Z) : Z := (c * height + h) * width + w.

(** The coordinates of a window in row-major scan order: rows outer,
    columns inner. *)
Definition window_cells (hstart hend wstart wend : Z) : list (Z * Z) :=
  flat_map (fun h => map (fun w => (h, w)) (range wstart wend)) (range hstart hend).

(** The running maximum over the clipped window of output cell
    [(c, ph, pw)], started from [seed]. *)
Definition window_max_from (data : list T) (width height poolSize poolStride : Z)
    (c ph pw : Z) (seed : T) : T :=
  let hstart := ph * poolStride in
  let wstart := pw * poolStride in
  let hend := Z.min (hstart + poolSize) height in
  let wend := Z.min (wstart + poolSize) width in
  fold_left (fun m '(h, w) => s_max m (peek data (volume_index width height c h w)))
            (window_cells hstart hend wstart wend) seed.

(** The same for position [k] of the pooled volume, which holds the cell
    [(k / pooledWidth / pooledHeight, k / pooledWidth mod pooledHeight,
    k mod pooledWidth)]. *)
Definition pooled_value (data : list T) (width height poolSize poolStride : Z)
    (seed : T) (k : Z) : T :=
  let pooledWidth := pooled_extent_spec width poolSize poolStride in
  let pooledHeight := pooled_extent_spec height poolSize poolStride in
  window_max_from data width height poolSize poolStride
    (k / pooledWidth / pooledHeight) ((k / pooledWidth) mod pooledHeight)
    (k mod pooledWidth) seed.

(** The arg-max of the specification: the first cell, in scan order, that
    no cell of the window exceeds. *)
Definition is_maximal (val : Z * Z -> T) (cells : list (Z * Z)) (p : Z * Z) : bool :=
  forallb (fun q => negb (s_lt (val p) (val q))) cells.

Definition first_argmax (val : Z * Z -> T) (cells : list (Z * Z)) : option (Z * Z) :=
  find (is_maximal val cells) cells.

(** What the scan of lines 160-171 computes: the best cell so far is
    replaced by a cell whose value is strictly greater. *)
Definition keep_greater (val : Z * Z -> T) (best q : Z * Z) : Z * Z :=
  if s_gt (val q) (val best) then q else best.

Definition scan_argmax (val : Z * Z -> T) (cells : list (Z * Z)) : option (Z * Z) :=
  match cells with
  | [] => None
  | q0 :: _ => Some (fold_left (keep_greater val) cells q0)
  end.

(** The gradient of one output cell [(c, ph, pw)] goes to the cell of its
    window that [select] picks. *)
Definition backward_cell
    (select : (Z * Z -> T) -> list (Z * Z) -> option (Z * Z))
    (data dzdy : list T) (width height poolSize poolStride : Z)
    (c ph pw : Z) (dzdx : list T) : list T :=
  let pooledWidth := pooled_extent_spec width poolSize poolStride in
  let pooledHeight := pooled_extent_spec height poolSize poolStride in
  let hstart := ph * poolStride in
  let wstart := pw * poolStride in
  let hend := Z.min (hstart + poolSize) height in
  let wend := Z.min (wstart + poolSize) width in
  match select (fun '(h, w) => peek data (volume_index width height c h w))
               (window_cells hstart hend wstart wend) with
  | Some (h, w) =>
      add_at dzdx (volume_index width height c h w)
             (peek dzdy (volume_index pooledWidth pooledHeight c ph pw))
  | None => dzdx
  end.

(** All output cells, channel by channel, row by row. *)
Definition backward_route
    (select : (Z * Z -> T) -> list (Z * Z) -> option (Z * Z))
    (dzdx data dzdy : list T) (width height depth poolSize poolStride : Z) : list T :=
  let pooledWidth := pooled_extent_spec width poolSize poolStride in
  let pooledHeight := pooled_extent_spec height poolSize poolStride in
  fold_left (fun dzdx c =>
    fold_left (fun dzdx ph =>
      fold_left (fun dzdx pw =>
        backward_cell select data dzdy width height poolSize poolStride c ph pw dzdx)
        (range 0 pooledWidth) dzdx)
      (range 0 pooledHeight) dzdx)
    (range 0 depth) dzdx.

(** The backward pass of the specification: every output cell adds its
    gradient at the first maximal element of its window. *)
Definition maxPoolingBackward_spec (dzdx data dzdy : list T)
    (width height depth poolSize poolStride : Z) : list T :=
  backward_route first_argmax dzdx data dzdy width height depth poolSize poolStride.

(** [r] is the first maximal cell of [cells]: the cells before it are
    strictly smaller, no cell after it is greater. *)
Definition first_maximal (val : Z * Z -> T) (cells : list (Z * Z)) (r : Z * Z) : Prop :=
  exists before after,
    cells = before ++ r :: after /\
    (forall q, In q before -> s_lt (val q) (val r) = true) /\
    (forall q, In q after -> s_lt (val r) (val q) = false).

(** [<] is a strict weak order on the scalars that satisfy [D], as it is
    on the floating-point numbers that are not NaN. *)
Definition ordered_on (D : T -> Prop) : Prop :=
  (forall x, D x -> s_lt x x = false) /\
  (forall x y z, D x -> D y -> D z ->
     s_lt x y = true -> s_lt y z = true -> s_lt x z = true) /\
  (forall x y z, D x -> D y -> D z ->
     s_lt x y = false -> s_lt y z = false -> s_lt x z = false).

(** [max] returns the greater of two scalars that satisfy [D], the first
    of two equal ones, as [std::max] and [max] do on floating-point numbers
    that are not NaN. *)
Definition max_on (D : T -> Prop) : Prop :=
  forall a b, D a -> D b -> s_max a b = if s_lt a b then b else a.

(** What the scan of the backward kernel (lines 225-237) computes: best
    value and best index start at [-FLT_MAX] and 0. *)
Definition scan_from_seed (val : Z * Z -> T) (idx : Z * Z -> Z)
    (cells : list (Z * Z)) : T * Z :=
  fold_left (fun (best : T * Z) q =>
               if s_gt (val q) (fst best) then (val q, idx q) else best)
            cells (neg_FLT_MAX, 0).

(** The element of [dzdx] to which the thread of flattened index [k] adds:
    the best index of its scan, relative to the plane of its channel, taken
    as an index into the whole of [dzdx]. *)
Definition backward_gpu_target (data : list T)
    (width height poolSize poolStride : Z) (k : Z) : Z :=
  let pooledWidth := pooled_extent_spec width poolSize poolStride in
  let pooledHeight := pooled_extent_spec height poolSize poolStride in
  let c := k / pooledWidth / pooledHeight in
  let ph := (k / pooledWidth) mod pooledHeight in
  let pw := k mod pooledWidth in
  let hstart := ph * poolStride in
  let wstart := pw * poolStride in
  let hend := Z.min (hstart + poolSize) height in
  let wend := Z.min (wstart + poolSize) width in
  snd (scan_from_seed (fun '(h, w) => peek data (volume_index width height c h w))
                      (fun '(h, w) => h * width + w)
                      (window_cells hstart hend wstart wend)).

(** The effect of the thread of flattened index [k] on [dzdx]. *)
Definition backward_gpu_step (data dzdy : list T)
    (width height depth poolSize poolStride : Z) (dzdx : list T) (k : Z) : list T :=
  if k <? pooled_extent_spec width poolSize poolStride
          * pooled_extent_spec height poolSize poolStride * depth
  then add_at dzdx (backward_gpu_target data width height poolSize poolStride k)
              (peek dzdy k)
  else dzdx.

(** The sum of two volumes, element by element. *)
Definition volume_add (a b : list T) : list T :=
  map (fun '(x, y) => s_add x y) (combine a b).

(** The sum of a volume, from a zero of the scalar type. *)
Definition total (zero : T) (buf : list T) : T := fold_right s_add zero buf.

End Reference.

(* ================================================================= *)
(** ** Machine integers: no wrap-around inside the range *)

Lemma to_int_id x : - 2 ^ 31 <= x <= INT_MAX -> to_int x = x.
Proof.
  unfold to_int, INT_MAX. intros H.
  rewrite Z.mod_small by lia. lia.
Qed.

Lemma to_size_t_id x : 0 <= x < 2 ^ 64 -> to_size_t x = x.
Proof. unfold to_size_t. intros H. now apply Z.mod_small. Qed.

Lemma to_uint_id x : 0 <= x < 2 ^ 32 -> to_uint x = x.
Proof. unfold to_uint. intros H. now apply Z.mod_small. Qed.

Lemma size_of_int_id x : 0 <= x <= INT_MAX -> size_of_int x = x.
Proof. unfold size_of_int, INT_MAX. intros H. apply to_size_t_id. lia. Qed.

Lemma int_of_size_id x : 0 <= x <= INT_MAX -> int_of_size x = x.
Proof. unfold int_of_size, INT_MAX. intros H. apply to_int_id. unfold INT_MAX. lia. Qed.

Lemma size_add_id a b : 0 <= a -> 0 <= b -> a + b <= INT_MAX -> size_add a b = a + b.
Proof. unfold size_add, INT_MAX. intros. apply to_size_t_id. lia. Qed.

Lemma size_mul_id a b : 0 <= a * b <= INT_MAX -> size_mul a b = a * b.
Proof. unfold size_mul, INT_MAX. intros. apply to_size_t_id. lia. Qed.

Lemma int_add_id a b : 0 <= a + b <= INT_MAX -> int_add a b = a + b.
Proof. unfold int_add, INT_MAX. intros. apply to_int_id. unfold INT_MAX. lia. Qed.

Lemma int_mul_id a b : 0 <= a * b <= INT_MAX -> int_mul a b = a * b.
Proof. unfold int_mul, INT_MAX. intros. apply to_int_id. unfold INT_MAX. lia. Qed.

(* ================================================================= *)
(** ** Ranges and loops *)

Lemma range_nil lo hi : hi <= lo -> range lo hi = [].
Proof.
  intros H. unfold range. replace (Z.to_nat (hi - lo)) with 0%nat by lia. reflexivity.
Qed.

Lemma range_cons lo hi : lo < hi -> range lo hi = lo :: range (lo + 1) hi.
Proof.
  intros H. unfold range.
  replace (Z.to_nat (hi - lo)) with (S (Z.to_nat (hi - (lo + 1)))) by lia.
  cbn [seq map]. f_equal; [lia|].
  rewrite <- seq_shift, map_map. apply map_ext. intros k. lia.
Qed.

Lemma range_snoc lo hi : lo <= hi -> range lo (hi + 1) = range lo hi ++ [hi].
Proof.
  intros H. unfold range.
  replace (Z.to_nat (hi + 1 - lo)) with (Z.to_nat (hi - lo) + 1)%nat by lia.
  rewrite seq_app, map_app. cbn [seq map]. do 2 f_equal. lia.
Qed.

Lemma in_range i lo hi : In i (range lo hi) <-> lo <= i < hi.
Proof.
  unfold range. rewrite in_map_iff. split.
  - intros (k & <- & Hk). apply in_seq in Hk. lia.
  - intros H. exists (Z.to_nat (i - lo)). split; [lia|]. apply in_seq. lia.
Qed.

Lemma length_range lo hi : length (range lo hi) = Z.to_nat (hi - lo).
Proof. unfold range. now rewrite length_map, length_seq. Qed.

Lemma range_app lo mid hi :
  lo <= mid <= hi -> range lo hi = range lo mid ++ range mid hi.
Proof.
  intros H. remember (Z.to_nat (mid - lo)) as n eqn:Hn.
  revert lo H Hn. induction n as [|n IH]; intros lo H Hn.
  - assert (lo = mid) by lia. subst. now rewrite (range_nil mid mid) by lia.
  - rewrite (range_cons lo hi), (range_cons lo mid) by lia.
    cbn [app]. f_equal. apply IH; lia.
Qed.

(** The rule of the [for] loop: an invariant indexed by the loop
    variable, established at [lo] and carried by every iteration, holds
    at [hi], and the loop does not fail. *)
Lemma for_inv {S : Type} (I : Z -> S -> Prop) lo hi
    (body : Z -> S -> option S) (s : S) :
  lo <= hi ->
  I lo s ->
  (forall i s, lo <= i < hi -> I i s -> exists s', body i s = Some s' /\ I (i + 1) s') ->
  exists s', for_ lo hi body s = Some s' /\ I hi s'.
Proof.
  unfold for_. intros Hle.
  remember (Z.to_nat (hi - lo)) as n eqn:Hn.
  revert lo s Hle Hn. induction n as [|n IH]; intros lo s Hle Hn H0 Hstep.
  - assert (lo = hi) by lia. subst. rewrite range_nil by lia. cbn. eauto.
  - rewrite range_cons by lia. cbn [foldM].
    destruct (Hstep lo s ltac:(lia) H0) as (s1 & -> & H1).
    apply IH; [lia | lia | assumption |].
    intros i s2 Hi. apply Hstep. lia.
Qed.

(** A loop variable whose range is empty leaves the state alone. *)
Lemma for_empty {S : Type} lo hi (body : Z -> S -> option S) (s : S) :
  hi <= lo -> for_ lo hi body s = Some s.
Proof. intros H. unfold for_. now rewrite range_nil. Qed.

(* ================================================================= *)
(** ** Loads and stores *)

Lemma load_Some {A : Type} (buf : list A) p :
  0 <= p < Z.of_nat (length buf) -> exists v, load buf p = Some v.
Proof.
  intros H. unfold load. destruct (Z.ltb_spec p 0); [lia|].
  destruct (nth_error buf (Z.to_nat p)) eqn:E; eauto.
  apply nth_error_None in E. lia.
Qed.

Lemma load_inv {A : Type} (buf : list A) p v :
  load buf p = Some v -> 0 <= p < Z.of_nat (length buf) /\ nth_error buf (Z.to_nat p) = Some v.
Proof.
  unfold load. destruct (Z.ltb_spec p 0); [discriminate|]. intros E. split; [|exact E].
  assert (Z.to_nat p < length buf)%nat by (apply nth_error_Some; congruence). lia.
Qed.

Lemma length_update {A : Type} (buf : list A) n v :
  length (update buf n v) = length buf.
Proof.
  revert n. induction buf as [|x buf IH]; intros [|n]; cbn; auto.
Qed.

Lemma store_Some {A : Type} (buf : list A) p v :
  0 <= p < Z.of_nat (length buf) ->
  store buf p v = Some (update buf (Z.to_nat p) v).
Proof.
  intros H. unfold store.
  destruct (Z.leb_spec 0 p); [|lia]. destruct (Z.ltb_spec p (Z.of_nat (length buf))); [|lia].
  reflexivity.
Qed.

Lemma store_inv {A : Type} (buf buf' : list A) p v :
  store buf p v = Some buf' ->
  0 <= p < Z.of_nat (length buf) /\ buf' = update buf (Z.to_nat p) v.
Proof.
  unfold store.
  destruct (Z.leb_spec 0 p); [|discriminate].
  destruct (Z.ltb_spec p (Z.of_nat (length buf))); [|discriminate].
  intros [= <-]. split; [lia | reflexivity].
Qed.

Lemma store_length {A : Type} (buf buf' : list A) p v :
  store buf p v = Some buf' -> length buf' = length buf.
Proof.
  intros H. apply store_inv in H as [_ ->]. apply length_update.
Qed.

(* ================================================================= *)
(** ** Geometry along one axis *)

Section Axis.

Variables size poolSize poolStride : Z.
Hypothesis Hsize : 1 <= poolSize <= size.
Hypothesis Hstride : 1 <= poolStride.
Hypothesis Hint : size <= INT_MAX.

Lemma pooled_extent_spec_bounds :
  1 <= pooled_extent_spec size poolSize poolStride <= size.
Proof.
  unfold pooled_extent_spec.
  assert (0 <= (size - poolSize) / poolStride) by (apply Z.div_pos; lia).
  assert ((size - poolSize) / poolStride <= size - poolSize)
    by (apply Z.div_le_upper_bound; nia).
  lia.
Qed.

Lemma pooledExtent_eq :
  pooledExtent size poolSize poolStride = pooled_extent_spec size poolSize poolStride.
Proof.
  pose proof pooled_extent_spec_bounds as Hb. unfold pooled_extent_spec in *.
  unfold pooledExtent, size_sub, size_div.
  assert (Hmax : INT_MAX < 2 ^ 64) by (unfold INT_MAX; lia).
  rewrite (to_size_t_id (size - poolSize)) by lia.
  rewrite (size_of_int_id 1) by (unfold INT_MAX; lia).
  rewrite size_add_id by lia.
  apply int_of_size_id. lia.
Qed.

(** Floor division leaves room for a whole window at every output
    coordinate. *)
Lemma window_inside p :
  0 <= p < pooled_extent_spec size poolSize poolStride ->
  0 <= p * poolStride /\ p * poolStride + poolSize <= size.
Proof.
  unfold pooled_extent_spec. intros Hp.
  assert (p * poolStride <= size - poolSize).
  { transitivity (poolStride * ((size - poolSize) / poolStride)).
    - nia.
    - apply Z.mul_div_le. lia. }
  nia.
Qed.

Lemma window_start_cpu_eq p :
  0 <= p < pooled_extent_spec size poolSize poolStride ->
  window_start_cpu p poolStride = p * poolStride.
Proof.
  intros Hp. pose proof (window_inside p Hp) as Hw.
  pose proof pooled_extent_spec_bounds as Hb.
  unfold window_start_cpu.
  rewrite size_of_int_id by lia.
  rewrite size_mul_id by lia.
  apply int_of_size_id. lia.
Qed.

Lemma window_end_cpu_eq p :
  0 <= p < pooled_extent_spec size poolSize poolStride ->
  window_end_cpu (p * poolStride) poolSize size = p * poolStride + poolSize.
Proof.
  intros Hp. pose proof (window_inside p Hp) as Hw.
  unfold window_end_cpu.
  rewrite size_of_int_id by lia.
  rewrite size_add_id by lia.
  rewrite Z.min_l by lia.
  apply int_of_size_id. lia.
Qed.

(** In the kernels the stride arrives converted to [int]: whenever the
    coordinate is not 0 the stride is at most [size]. *)
Lemma window_start_gpu_eq p :
  0 <= p < pooled_extent_spec size poolSize poolStride ->
  window_start_gpu p (int_of_size poolStride) = p * poolStride.
Proof.
  intros Hp. pose proof (window_inside p Hp) as Hw.
  unfold window_start_gpu.
  destruct (Z.eq_dec p 0) as [-> | Hnz].
  - reflexivity.
  - assert (poolStride <= p * poolStride) by nia.
    rewrite int_of_size_id by lia.
    apply int_mul_id. lia.
Qed.

Lemma window_end_gpu_eq p :
  0 <= p < pooled_extent_spec size poolSize poolStride ->
  window_end_gpu (p * poolStride) (int_of_size poolSize) (int_of_size size)
  = p * poolStride + poolSize.
Proof.
  intros Hp. pose proof (window_inside p Hp) as Hw.
  unfold window_end_gpu.
  rewrite !int_of_size_id by lia.
  rewrite int_add_id by lia.
  apply Z.min_l. lia.
Qed.

End Axis.

(* ================================================================= *)
(** ** Buffers: reading and adding *)

Section BufferFacts.

Context {T : Type} {ST : Scalar T}.

Lemma load_peek (buf : list T) p :
  0 <= p < Z.of_nat (length buf) -> load buf p = Some (peek buf p).
Proof.
  intros H. unfold load, peek. destruct (Z.ltb_spec p 0); [lia|].
  apply nth_error_nth'. lia.
Qed.

Lemma nth_update_other {A : Type} (l : list A) n m v d :
  n <> m -> nth m (update l n v) d = nth m l d.
Proof.
  revert n m. induction l as [|x l IH]; intros [|n] [|m] H; cbn; auto; congruence.
Qed.

Lemma nth_update_same {A : Type} (l : list A) n v d :
  (n < length l)%nat -> nth n (update l n v) d = v.
Proof.
  revert n. induction l as [|x l IH]; intros [|n] H; cbn in *; try lia; auto.
  apply IH. lia.
Qed.

Lemma update_update {A : Type} (l : list A) n a b :
  update (update l n a) n b = update l n b.
Proof.
  revert n. induction l as [|x l IH]; intros [|n]; cbn; auto. now rewrite IH.
Qed.

Lemma update_nth_id {A : Type} (l : list A) n d : update l n (nth n l d) = l.
Proof.
  revert n. induction l as [|x l IH]; intros [|n]; cbn; auto. now rewrite IH.
Qed.

Lemma peek_In (buf : list T) i :
  0 <= i < Z.of_nat (length buf) -> In (peek buf i) buf.
Proof. intros Hi. unfold peek. apply nth_In. lia. Qed.

Lemma peek_update_other (buf : list T) i v k :
  0 <= i -> 0 <= k -> k <> i -> peek (update buf (Z.to_nat i) v) k = peek buf k.
Proof. intros Hi Hk Hne. unfold peek. apply nth_update_other. lia. Qed.

Lemma peek_update_same (buf : list T) i v :
  0 <= i < Z.of_nat (length buf) -> peek (update buf (Z.to_nat i) v) i = v.
Proof. intros Hi. unfold peek. apply nth_update_same. lia. Qed.

Lemma peek_add_at_other (buf : list T) i g k :
  0 <= i -> 0 <= k -> k <> i -> peek (add_at buf i g) k = peek buf k.
Proof. intros. unfold add_at. now apply peek_update_other. Qed.

(** Updating one element again and again is one update with the folded
    value. *)
Lemma fold_left_update_cell {A : Type} (g : T -> A -> T) (k : Z) (l : list A)
    (buf : list T) :
  0 <= k < Z.of_nat (length buf) ->
  fold_left (fun m q => update m (Z.to_nat k) (g (peek m k) q)) l buf
  = update buf (Z.to_nat k) (fold_left g l (peek buf k)).
Proof.
  intros Hk.
  assert (Hgen : forall a,
    fold_left (fun m q => update m (Z.to_nat k) (g (peek m k) q)) l
              (update buf (Z.to_nat k) a)
    = update buf (Z.to_nat k) (fold_left g l a)).
  { induction l as [|q l IH]; intros a; cbn [fold_left]; [reflexivity|].
    rewrite update_update, peek_update_same by exact Hk. apply IH. }
  rewrite <- (update_nth_id buf (Z.to_nat k) neg_FLT_MAX) at 1.
  apply Hgen.
Qed.

Lemma length_add_at (buf : list T) i g : length (add_at buf i g) = length buf.
Proof. apply length_update. Qed.

Lemma atomicAdd_add_at (buf : list T) i g :
  0 <= i < Z.of_nat (length buf) -> atomicAdd buf i g = Some (add_at buf i g).
Proof.
  intros H. unfold atomicAdd. rewrite load_peek by assumption.
  now rewrite store_Some by assumption.
Qed.

End BufferFacts.

(* ================================================================= *)
(** ** Loops whose body cannot fail *)

Lemma foldM_fold {S : Type} (body : Z -> S -> option S) (f : S -> Z -> S) l s :
  (forall i s, In i l -> body i s = Some (f s i)) ->
  foldM body l s = Some (fold_left f l s).
Proof.
  revert s. induction l as [|i l IH]; intros s H; cbn [foldM fold_left].
  - reflexivity.
  - rewrite H by (now left). apply IH. intros j s' Hj. apply H. now right.
Qed.

Lemma foldM_fold_inv {S : Type} (J : S -> Prop)
    (body : Z -> S -> option S) (f : S -> Z -> S) l s :
  J s ->
  (forall i s, In i l -> J s -> body i s = Some (f s i) /\ J (f s i)) ->
  foldM body l s = Some (fold_left f l s) /\ J (fold_left f l s).
Proof.
  revert s. induction l as [|i l IH]; intros s Hs H; cbn [foldM fold_left].
  - auto.
  - destruct (H i s (or_introl eq_refl) Hs) as [-> Hs'].
    apply IH; [exact Hs'|]. intros j s' Hj. apply H. now right.
Qed.

Lemma foldM_inv {S : Type} (J : S -> Prop) (body : Z -> S -> option S) l s :
  J s ->
  (forall i s, In i l -> J s -> exists s', body i s = Some s' /\ J s') ->
  exists s', foldM body l s = Some s' /\ J s'.
Proof.
  revert s. induction l as [|i l IH]; intros s Hs H; cbn [foldM].
  - eauto.
  - destruct (H i s (or_introl eq_refl) Hs) as (s1 & -> & Hs1).
    apply IH; [exact Hs1|]. intros j s' Hj. apply H. now right.
Qed.

(** Two nested loops over a window keep an invariant of the state that
    every iteration keeps. *)
Lemma for_window_inv {S : Type} (J : S -> Prop) hstart hend wstart wend
    (body : Z -> Z -> S -> option S) s :
  J s ->
  (forall h w s, hstart <= h < hend -> wstart <= w < wend -> J s ->
                 exists s', body h w s = Some s' /\ J s') ->
  exists s',
    for_ hstart hend (fun h s => for_ wstart wend (fun w s => body h w s) s) s = Some s'
    /\ J s'.
Proof.
  intros Hs H. unfold for_.
  apply (foldM_inv J); [exact Hs|]. intros h s1 Hh Hs1. apply in_range in Hh.
  apply (foldM_inv J); [exact Hs1|]. intros w s2 Hw Hs2. apply in_range in Hw.
  now apply H.
Qed.

Lemma fold_left_ext {S A : Type} (f g : S -> A -> S) l s :
  (forall s a, In a l -> f s a = g s a) -> fold_left f l s = fold_left g l s.
Proof.
  revert s. induction l as [|a l IH]; intros s H; cbn [fold_left].
  - reflexivity.
  - rewrite H by (now left). apply IH. intros s' a' Ha'. apply H. now right.
Qed.

Lemma fold_left_flat_map {S A B : Type} (f : S -> B -> S) (g : A -> list B) l s :
  fold_left f (flat_map g l) s = fold_left (fun s a => fold_left f (g a) s) l s.
Proof.
  revert s. induction l as [|a l IH]; intros s; cbn [flat_map fold_left].
  - reflexivity.
  - now rewrite fold_left_app, IH.
Qed.

Lemma fold_left_map {S A B : Type} (f : S -> B -> S) (g : A -> B) l s :
  fold_left f (map g l) s = fold_left (fun s a => f s (g a)) l s.
Proof.
  revert s. induction l as [|a l IH]; intros s; cbn [map fold_left]; auto.
Qed.

Lemma in_window_cells h w hstart hend wstart wend :
  In (h, w) (window_cells hstart hend wstart wend) <->
  hstart <= h < hend /\ wstart <= w < wend.
Proof.
  unfold window_cells. rewrite in_flat_map. split.
  - intros (h' & Hh & Hin). apply in_map_iff in Hin as (w' & [= <- <-] & Hw).
    apply in_range in Hh, Hw. lia.
  - intros [Hh Hw]. exists h. split; [now apply in_range|].
    apply in_map_iff. exists w. split; [reflexivity | now apply in_range].
Qed.

Lemma window_cells_cons hstart hend wstart wend :
  hstart < hend -> wstart < wend ->
  exists rest, window_cells hstart hend wstart wend = (hstart, wstart) :: rest.
Proof.
  intros Hh Hw. unfold window_cells.
  rewrite (range_cons hstart hend) by assumption. cbn [flat_map].
  rewrite (range_cons wstart wend) by assumption. cbn [map app]. eauto.
Qed.

(** Two nested loops over a window whose body does not fail on the states
    of an invariant are a fold over the cells of the window. *)
Lemma for_window_fold_inv {S : Type} (J : S -> Prop) hstart hend wstart wend
    (body : Z -> Z -> S -> option S) (f : S -> Z * Z -> S) s :
  J s ->
  (forall h w s, hstart <= h < hend -> wstart <= w < wend -> J s ->
                 body h w s = Some (f s (h, w)) /\ J (f s (h, w))) ->
  for_ hstart hend (fun h s => for_ wstart wend (fun w s => body h w s) s) s
  = Some (fold_left f (window_cells hstart hend wstart wend) s)
  /\ J (fold_left f (window_cells hstart hend wstart wend) s).
Proof.
  intros Hs H. unfold for_, window_cells.
  rewrite fold_left_flat_map.
  apply (foldM_fold_inv J); [exact Hs|]. intros h s1 Hh Hs1.
  rewrite fold_left_map.
  apply (foldM_fold_inv J); [exact Hs1|]. intros w s2 Hw Hs2.
  apply in_range in Hh, Hw. now apply H.
Qed.

(** Two nested loops over a window whose body cannot fail are a fold over
    the cells of the window in scan order. *)
Lemma for_window_fold {S : Type} hstart hend wstart wend
    (body : Z -> Z -> S -> option S) (f : S -> Z * Z -> S) s :
  (forall h w s, hstart <= h < hend -> wstart <= w < wend ->
                 body h w s = Some (f s (h, w))) ->
  for_ hstart hend (fun h s => for_ wstart wend (fun w s => body h w s) s) s
  = Some (fold_left f (window_cells hstart hend wstart wend) s).
Proof.
  intros H. unfold for_, window_cells.
  rewrite fold_left_flat_map.
  apply foldM_fold. intros h s' Hh. rewrite fold_left_map.
  apply foldM_fold. intros w s'' Hw.
  apply in_range in Hh, Hw. now apply H.
Qed.

(* ================================================================= *)
(** ** The scan for the arg-max *)

Section Scan.

Context {T : Type} {ST : Scalar T}.
Variable val : Z * Z -> T.

Lemma fold_keep_greater_in l b : In (fold_left (keep_greater val) l b) (b :: l).
Proof.
  revert b. induction l as [|q l IH]; intros b; cbn [fold_left].
  - now left.
  - destruct (IH (keep_greater val b q)) as [H | H].
    + rewrite <- H. unfold keep_greater.
      destruct (s_gt (val q) (val b)); [right; now left | now left].
    + right. now right.
Qed.

Lemma scan_argmax_in l r : scan_argmax val l = Some r -> In r l.
Proof.
  destruct l as [|q0 l]; [discriminate|]. unfold scan_argmax. intros E.
  assert (Hr : r = fold_left (keep_greater val) (q0 :: l) q0) by congruence.
  rewrite Hr.
  destruct (fold_keep_greater_in (q0 :: l) q0) as [<- | H]; [now left | exact H].
Qed.

(** The scan of the code carries the best value and its index; it follows
    the best cell. *)
Lemma fold_value_index (idx : Z * Z -> Z) l b :
  fold_left (fun (best : T * Z) q =>
               if s_gt (val q) (fst best) then (val q, idx q) else best) l (val b, idx b)
  = (val (fold_left (keep_greater val) l b), idx (fold_left (keep_greater val) l b)).
Proof.
  revert b. induction l as [|q l IH]; intros b; cbn [fold_left fst].
  - reflexivity.
  - unfold keep_greater at 2 4. destruct (s_gt (val q) (val b)); apply IH.
Qed.

(** The order of the scalars that the scan meets, those that satisfy
    [D]: a strict weak order, as [<] is on floating-point numbers that are
    not NaN. *)
Variable D : T -> Prop.
Hypothesis lt_irrefl : forall x, D x -> s_lt x x = false.
Hypothesis lt_trans :
  forall x y z, D x -> D y -> D z ->
    s_lt x y = true -> s_lt y z = true -> s_lt x z = true.
Hypothesis ge_trans :
  forall x y z, D x -> D y -> D z ->
    s_lt x y = false -> s_lt y z = false -> s_lt x z = false.

Lemma lt_asym x y : D x -> D y -> s_lt x y = true -> s_lt y x = false.
Proof.
  intros Hx Hy H. destruct (s_lt y x) eqn:E; [|reflexivity].
  pose proof (lt_trans _ _ _ Hx Hy Hx H E) as C. rewrite lt_irrefl in C by exact Hx.
  discriminate.
Qed.

Lemma fold_keep_greater_dom l b :
  D (val b) -> (forall q, In q l -> D (val q)) ->
  D (val (fold_left (keep_greater val) l b)).
Proof.
  intros Hb Hl. destruct (fold_keep_greater_in l b) as [<- | H]; [exact Hb | now apply Hl].
Qed.

Lemma fold_keep_greater_split l b :
  D (val b) -> (forall q, In q l -> D (val q)) ->
  let r := fold_left (keep_greater val) l b in
  (r = b /\ forall q, In q l -> s_lt (val b) (val q) = false) \/
  (s_lt (val b) (val r) = true /\ first_maximal val l r).
Proof.
  revert b. induction l as [|q l IH]; intros b Hb Hl; cbn [fold_left]; cbv zeta.
  - left. split; [reflexivity | intros q []].
  - assert (Hq : D (val q)) by (apply Hl; now left).
    assert (Hl' : forall q', In q' l -> D (val q'))
      by (intros q' Hq'; apply Hl; now right).
    unfold keep_greater at 2 4 6. unfold s_gt.
    destruct (s_lt (val b) (val q)) eqn:Hbq.
    + right. destruct (IH q Hq Hl') as [[Hr Hall] | [Hlt (p & s & Hl0 & Hp & Hs)]].
      * rewrite Hr. split; [exact Hbq|].
        exists [], l. split; [reflexivity|]. split; [intros ? [] | exact Hall].
      * split.
        { apply (lt_trans _ (val q)); try assumption.
          now apply fold_keep_greater_dom. }
        exists (q :: p), s. split; [cbn [app]; f_equal; exact Hl0|]. split; [|exact Hs].
        intros q' [<- | Hq']; [exact Hlt | now apply Hp].
    + destruct (IH b Hb Hl') as [[Hr Hall] | [Hlt (p & s & Hl0 & Hp & Hs)]].
      * left. split; [exact Hr|]. intros q' [<- | Hq']; [exact Hbq | now apply Hall].
      * right. split; [exact Hlt|].
        exists (q :: p), s. split; [cbn [app]; f_equal; exact Hl0|]. split; [|exact Hs].
        intros q' [<- | Hq']; [|now apply Hp].
        destruct (s_lt (val q) (val (fold_left (keep_greater val) l b))) eqn:E;
          [reflexivity|].
        assert (Hr : D (val (fold_left (keep_greater val) l b)))
          by now apply fold_keep_greater_dom.
        rewrite (ge_trans _ _ _ Hb Hq Hr Hbq E) in Hlt. discriminate.
Qed.

(** On a window that is not empty, the scan started at the first cell
    ends at the first maximal cell. *)
Lemma scan_first_maximal l r :
  (forall q, In q l -> D (val q)) ->
  scan_argmax val l = Some r -> first_maximal val l r.
Proof.
  destruct l as [|q0 l]; [intros _ E; discriminate E|]. unfold scan_argmax. intros Hl E.
  assert (Hq0 : D (val q0)) by (apply Hl; now left).
  assert (Hl' : forall q, In q l -> D (val q)) by (intros q Hq; apply Hl; now right).
  assert (Hr : r = fold_left (keep_greater val) l q0).
  { cbn [fold_left] in E. unfold keep_greater in E at 2. unfold s_gt in E.
    rewrite lt_irrefl in E by exact Hq0. congruence. }
  rewrite Hr. clear E Hr r.
  destruct (fold_keep_greater_split l q0 Hq0 Hl')
    as [[Hr Hall] | [Hlt (p & s & Hl0 & Hp & Hs)]].
  - rewrite Hr. exists [], l. repeat split; [intros ? [] | exact Hall].
  - exists (q0 :: p), s. repeat split.
    + cbn [app]. f_equal. exact Hl0.
    + intros q' [<- | Hq']; [exact Hlt | now apply Hp].
    + exact Hs.
Qed.

Lemma find_first {A : Type} (f : A -> bool) before r after :
  (forall q, In q before -> f q = false) -> f r = true ->
  find f (before ++ r :: after) = Some r.
Proof.
  intros Hb Hr. induction before as [|q before IH]; cbn [app find].
  - now rewrite Hr.
  - rewrite Hb by (now left). apply IH. intros q' Hq'. apply Hb. now right.
Qed.

Lemma first_maximal_argmax l r :
  (forall q, In q l -> D (val q)) ->
  first_maximal val l r -> first_argmax val l = Some r.
Proof.
  intros Hl (p & s & -> & Hp & Hs). unfold first_argmax.
  assert (Hr : D (val r)) by (apply Hl, in_or_app; right; now left).
  apply find_first.
  - intros q Hq. unfold is_maximal. apply not_true_is_false. intros Hall.
    rewrite forallb_forall in Hall.
    assert (Hin : In r (p ++ r :: s)) by (apply in_or_app; right; now left).
    specialize (Hall r Hin).
    now rewrite (Hp q Hq) in Hall.
  - unfold is_maximal. apply forallb_forall. intros q Hq.
    assert (Hdq : D (val q)) by now apply Hl.
    apply in_app_or in Hq as [Hq | [<- | Hq]].
    + now rewrite (lt_asym _ _ Hdq Hr (Hp q Hq)).
    + now rewrite lt_irrefl.
    + now rewrite (Hs q Hq).
Qed.

(** The scan of the code computes the arg-max of the specification. *)
Lemma scan_argmax_first l :
  (forall q, In q l -> D (val q)) -> scan_argmax val l = first_argmax val l.
Proof.
  intros Hl. destruct (scan_argmax val l) as [r|] eqn:E.
  - symmetry. now apply first_maximal_argmax, scan_first_maximal.
  - destruct l; [reflexivity | discriminate].
Qed.

End Scan.

(* ================================================================= *)
(** ** Threads of a launch *)

(** An invariant of the memory, indexed by the threads that have run. *)
Lemma run_threads_inv {M : Type} (J : list (Z * Z) -> M -> Prop)
    (kernel : Z -> Z -> M -> option M) threads m :
  J [] m ->
  (forall done b t m, In (b, t) threads -> J done m ->
     exists m', kernel b t m = Some m' /\ J (done ++ [(b, t)]) m') ->
  exists m', run_threads kernel threads m = Some m' /\ J threads m'.
Proof.
  intros H0 Hstep.
  enough (Hgen : forall done m, J done m ->
            (forall done b t m, In (b, t) threads -> J done m ->
               exists m', kernel b t m = Some m' /\ J (done ++ [(b, t)]) m') ->
            exists m', run_threads kernel threads m = Some m' /\ J (done ++ threads) m')
    by (apply (Hgen [] m H0 Hstep)).
  clear. induction threads as [|[b t] threads IH]; intros done m Hm Hstep; cbn [run_threads].
  - rewrite app_nil_r. eauto.
  - destruct (Hstep done b t m (or_introl eq_refl) Hm) as (m1 & -> & Hm1).
    destruct (IH (done ++ [(b, t)]) m1 Hm1) as (m2 & Hrun & Hm2).
    + intros done' b' t' m' Hin. apply Hstep. now right.
    + exists m2. split; [exact Hrun|]. now rewrite <- app_assoc in Hm2.
Qed.

Lemma map_shift_range a n :
  map (fun t => t + a) (range 0 n) = range a (a + n).
Proof.
  unfold range. rewrite map_map. replace (a + n - a) with (n - 0) by lia.
  apply map_ext. intros k. lia.
Qed.

(** The flattened indices of the threads of a grid are [0 .. gridDim *
    blockDim - 1]. *)
Lemma grid_flat gridDim blockDim :
  0 <= gridDim -> 0 <= blockDim ->
  map (fun '(b, t) => t + b * blockDim) (grid gridDim blockDim)
  = range 0 (gridDim * blockDim).
Proof.
  intros Hg Hb. unfold grid.
  rewrite <- (Z2Nat.id gridDim) by exact Hg. generalize (Z.to_nat gridDim) as n. clear Hg.
  induction n as [|n IH].
  - reflexivity.
  - replace (Z.of_nat (S n)) with (Z.of_nat n + 1) by lia.
    rewrite range_snoc by lia. rewrite flat_map_app, map_app, IH.
    cbn [flat_map]. rewrite app_nil_r, map_map.
    rewrite (map_shift_range (Z.of_nat n * blockDim) blockDim).
    rewrite (range_app 0 (Z.of_nat n * blockDim) ((Z.of_nat n + 1) * blockDim)) by nia.
    do 2 f_equal. ring.
Qed.

(* ================================================================= *)
(** ** Sums of volumes *)

Lemma fold_range_inv {S : Type} (I : Z -> S -> Prop) (f : S -> Z -> S) lo hi s :
  lo <= hi -> I lo s ->
  (forall i s, lo <= i < hi -> I i s -> I (i + 1) (f s i)) ->
  I hi (fold_left f (range lo hi) s).
Proof.
  intros Hle. remember (Z.to_nat (hi - lo)) as n eqn:Hn.
  revert lo s Hle Hn. induction n as [|n IH]; intros lo s Hle Hn H0 Hstep.
  - assert (lo = hi) by lia. subst. now rewrite range_nil by lia.
  - rewrite range_cons by lia. cbn [fold_left].
    apply IH; [lia | lia | apply Hstep; [lia | exact H0] |].
    intros i s' Hi. apply Hstep. lia.
Qed.

Section Totals.

Context {T : Type} {ST : Scalar T}.
Variable zero : T.

(** Addition taken exact: a commutative monoid.  Floating-point addition
    is one up to rounding, that is, up to the order of the additions. *)
Hypothesis add_comm : forall x y : T, s_add x y = s_add y x.
Hypothesis add_assoc : forall x y z : T, s_add x (s_add y z) = s_add (s_add x y) z.
Hypothesis add_zero : forall x : T, s_add zero x = x.

Lemma total_app (l1 l2 : list T) :
  total zero (l1 ++ l2) = s_add (total zero l1) (total zero l2).
Proof.
  induction l1 as [|x l1 IH]; cbn [app total fold_right].
  - now rewrite add_zero.
  - fold (total zero (l1 ++ l2)). fold (total zero l1). now rewrite IH, add_assoc.
Qed.

Lemma total_snoc (l : list T) x : total zero (l ++ [x]) = s_add (total zero l) x.
Proof.
  rewrite total_app. cbn [total fold_right]. now rewrite (add_comm x zero), add_zero.
Qed.

Lemma total_add_at (buf : list T) i g :
  0 <= i < Z.of_nat (length buf) ->
  total zero (add_at buf i g) = s_add (total zero buf) g.
Proof.
  intros Hi. unfold add_at, peek.
  assert (Hn : (Z.to_nat i < length buf)%nat) by lia.
  revert Hn. generalize (Z.to_nat i) as n. clear Hi i.
  induction buf as [|x buf IH]; intros n Hn; [cbn in Hn; lia|].
  destruct n as [|n]; cbn [update nth total fold_right].
  - fold (total zero buf).
    now rewrite <- !add_assoc, (add_comm g).
  - fold (total zero buf). fold (total zero (update buf n (s_add (nth n buf neg_FLT_MAX) g))).
    rewrite IH by (cbn in Hn; lia). now rewrite add_assoc.
Qed.

Lemma total_perm (l l' : list T) : Permutation l l' -> total zero l = total zero l'.
Proof.
  induction 1 as [| x l l' _ IH | x y l | l l' l'' _ IH1 _ IH2]; cbn [total fold_right].
  - reflexivity.
  - fold (total zero l) (total zero l'). now rewrite IH.
  - fold (total zero l). now rewrite !add_assoc, (add_comm y x).
  - congruence.
Qed.

Lemma firstn_succ_peek (buf : list T) k :
  0 <= k < Z.of_nat (length buf) ->
  firstn (Z.to_nat (k + 1)) buf = firstn (Z.to_nat k) buf ++ [peek buf k].
Proof.
  intros Hk. unfold peek.
  replace (Z.to_nat (k + 1)) with (S (Z.to_nat k)) by lia.
  assert (Hn : (Z.to_nat k < length buf)%nat) by lia.
  revert Hn. generalize (Z.to_nat k) as n. clear Hk k.
  induction buf as [|x buf IH]; intros n Hn; [cbn in Hn; lia|].
  destruct n as [|n].
  - reflexivity.
  - cbn [firstn nth app]. f_equal. apply IH. cbn in Hn. lia.
Qed.

Lemma map_peek_range (buf : list T) :
  map (peek buf) (range 0 (Z.of_nat (length buf))) = buf.
Proof.
  induction buf as [|x buf IH] using rev_ind.
  - reflexivity.
  - rewrite length_app. cbn [length].
    replace (Z.of_nat (length buf + 1)) with (Z.of_nat (length buf) + 1) by lia.
    rewrite range_snoc by lia. rewrite map_app. cbn [map]. f_equal.
    + transitivity (map (peek buf) (range 0 (Z.of_nat (length buf)))); [|exact IH].
      apply map_ext_in. intros i Hi. apply in_range in Hi.
      unfold peek. apply app_nth1. lia.
    + unfold peek. rewrite Nat2Z.id. f_equal.
      rewrite app_nth2 by lia. now rewrite Nat.sub_diag.
Qed.

Lemma total_zeros {A : Type} (l : list A) : total zero (map (fun _ => zero) l) = zero.
Proof.
  induction l as [|a l IH]; cbn [map total fold_right]; [reflexivity|].
  fold (total zero (map (fun _ : A => zero) l)). now rewrite IH, add_zero.
Qed.

End Totals.

(* ================================================================= *)
(** ** The scan of the backward kernel, additions that commute *)

Section SeededScan.

Context {T : Type} {ST : Scalar T}.

(** The best index of the kernel's scan is 0 or the index of a cell. *)
Lemma scan_from_seed_index (val : Z * Z -> T) (idx : Z * Z -> Z) cells :
  snd (scan_from_seed val idx cells) = 0 \/
  exists q, In q cells /\ snd (scan_from_seed val idx cells) = idx q.
Proof.
  unfold scan_from_seed.
  assert (Hgen : forall best : T * Z,
    let r := fold_left (fun (best : T * Z) q =>
                          if s_gt (val q) (fst best) then (val q, idx q) else best)
                       cells best in
    snd r = snd best \/ exists q, In q cells /\ snd r = idx q).
  { induction cells as [|q l IH]; intros best; cbn [fold_left]; cbv zeta.
    - now left.
    - destruct (IH (if s_gt (val q) (fst best) then (val q, idx q) else best))
        as [H | (q' & Hq' & H)].
      + destruct (s_gt (val q) (fst best)).
        * right. exists q. split; [now left | exact H].
        * now left.
      + right. exists q'. split; [now right | exact H]. }
  apply (Hgen (neg_FLT_MAX, 0)).
Qed.

(** When the first cell of the window exceeds [-FLT_MAX] and the scalars
    are ordered, the kernel's scan ends on the cell on which the scan of
    the sequential operator ends. *)
Lemma scan_from_seed_argmax (val : Z * Z -> T) (idx : Z * Z -> Z) q0 rest :
  s_lt (val q0) (val q0) = false ->
  s_lt neg_FLT_MAX (val q0) = true ->
  exists r,
    scan_argmax val (q0 :: rest) = Some r /\
    scan_from_seed val idx (q0 :: rest) = (val r, idx r).
Proof.
  intros Hirr Hfirst. exists (fold_left (keep_greater val) (q0 :: rest) q0).
  split; [reflexivity|].
  unfold scan_from_seed. cbn [fold_left fst].
  change (s_gt (val q0) neg_FLT_MAX) with (s_lt neg_FLT_MAX (val q0)).
  rewrite Hfirst, fold_value_index.
  replace (keep_greater val q0 q0) with q0; [reflexivity|].
  unfold keep_greater, s_gt. now rewrite Hirr.
Qed.

Lemma update_comm {A : Type} (l : list A) n m a b :
  n <> m -> update (update l n a) m b = update (update l m b) n a.
Proof.
  revert n m. induction l as [|x l IH]; intros [|n] [|m] H; cbn [update];
    try reflexivity; try congruence.
  f_equal. apply IH. congruence.
Qed.

(** Two accumulations at two elements commute, whatever the addition. *)
Lemma add_at_comm_distinct (buf : list T) i g j h :
  0 <= i -> 0 <= j -> i <> j ->
  add_at (add_at buf i g) j h = add_at (add_at buf j h) i g.
Proof.
  intros Hi Hj Hne. unfold add_at, peek.
  assert (Hn : Z.to_nat i <> Z.to_nat j) by lia.
  rewrite (nth_update_other buf (Z.to_nat i) (Z.to_nat j)) by exact Hn.
  rewrite (nth_update_other buf (Z.to_nat j) (Z.to_nat i)) by (intros E; now apply Hn).
  now apply update_comm.
Qed.

Hypothesis add_comm : forall x y : T, s_add x y = s_add y x.
Hypothesis add_assoc : forall x y z : T, s_add x (s_add y z) = s_add (s_add x y) z.

(** Two accumulations commute. *)
Lemma add_at_comm (buf : list T) i g j h :
  add_at (add_at buf i g) j h = add_at (add_at buf j h) i g.
Proof using add_comm add_assoc.
  unfold add_at, peek.
  generalize (Z.to_nat i) as n, (Z.to_nat j) as m. clear i j.
  induction buf as [|x buf IH]; intros n m; [now destruct n, m|].
  destruct n as [|n], m as [|m]; cbn [update nth].
  - f_equal. now rewrite <- !add_assoc, (add_comm g h).
  - reflexivity.
  - reflexivity.
  - f_equal. apply IH.
Qed.

(** Two threads of the backward kernel commute. *)
Lemma backward_gpu_step_comm (data dzdy : list T)
    width height depth poolSize poolStride (mem : list T) j k :
  backward_gpu_step data dzdy width height depth poolSize poolStride
    (backward_gpu_step data dzdy width height depth poolSize poolStride mem j) k
  = backward_gpu_step data dzdy width height depth poolSize poolStride
      (backward_gpu_step data dzdy width height depth poolSize poolStride mem k) j.
Proof using add_comm add_assoc.
  unfold backward_gpu_step.
  destruct (j <? _), (k <? _); try reflexivity. apply add_at_comm.
Qed.

End SeededScan.

(** A window wider than the axis, moved by steps of one: the subtraction
    wraps in [size_t], the addition of one and the conversion to [int] bring
    the extent back to [size - poolSize + 1], which is not positive. *)
Lemma pooledExtent_undersized size poolSize :
  0 <= size < poolSize -> poolSize <= INT_MAX ->
  pooledExtent size poolSize 1 = size - poolSize + 1.
Proof.
  unfold pooledExtent, int_of_size, size_add, size_div, size_sub, size_of_int,
    to_int, to_size_t, INT_MAX.
  intros Hsize Hpool. rewrite Z.div_1_r.
  change (2 ^ 64) with 18446744073709551616.
  change (2 ^ 32) with 4294967296.
  change (2 ^ 31) with 2147483648 in *.
  change (1 mod 18446744073709551616) with 1.
  pose proof (Z.mod_pos_bound (size - poolSize) 18446744073709551616 eq_refl) as B1.
  pose proof (Z.div_mod (size - poolSize) 18446744073709551616 ltac:(discriminate)) as E1.
  set (a := (size - poolSize) mod 18446744073709551616) in *.
  pose proof (Z.mod_pos_bound (a + 1) 18446744073709551616 eq_refl) as B2.
  pose proof (Z.div_mod (a + 1) 18446744073709551616 ltac:(discriminate)) as E2.
  set (b := (a + 1) mod 18446744073709551616) in *.
  pose proof (Z.mod_pos_bound (b + 2147483648) 4294967296 eq_refl) as B3.
  pose proof (Z.div_mod (b + 2147483648) 4294967296 ltac:(discriminate)) as E3.
  lia.
Qed.

Lemma foldM_idle {S : Type} (body : Z -> S -> option S) l (s : S) :
  (forall i s, In i l -> body i s = Some s) -> foldM body l s = Some s.
Proof.
  induction l as [|i l IH]; intros H; cbn [foldM]; [reflexivity|].
  rewrite H by now left. apply IH. intros j s' Hj. apply H. now right.
Qed.

(** The loops over the cells of an output plane with no column or no row
    run no cell. *)
Lemma empty_plane_loop {S : Type} pooledHeight pooledWidth
    (cell : Z -> Z -> S -> option S) (s : S) :
  pooledWidth <= 0 \/ pooledHeight <= 0 ->
  for_ 0 pooledHeight (fun ph mem =>
    for_ 0 pooledWidth (fun pw mem => cell ph pw mem) mem) s = Some s.
Proof.
  intros [Hw | Hh]; unfold for_.
  - apply foldM_idle. intros ph mem _. now rewrite (range_nil 0 pooledWidth) by lia.
  - now rewrite (range_nil 0 pooledHeight) by lia.
Qed.

(** Two cells of a volume have two flattened indices. *)
Lemma volume_index_inj width height c h w c' h' w' :
  0 <= h < height -> 0 <= h' < height -> 0 <= w < width -> 0 <= w' < width ->
  volume_index width height c h w = volume_index width height c' h' w' ->
  c = c' /\ h = h' /\ w = w'.
Proof.
  unfold volume_index. intros Hh Hh' Hw Hw' E.
  assert (Erow : c * height + h = c' * height + h').
  { destruct (Z.lt_total (c * height + h) (c' * height + h')) as [Hlt | [Heq | Hgt]];
      [exfalso | exact Heq | exfalso]; nia. }
  assert (Ew : w = w') by nia.
  assert (Ec : c = c').
  { destruct (Z.lt_total c c') as [Hlt | [Heq | Hgt]]; [exfalso | exact Heq | exfalso]; nia. }
  subst. repeat split; lia.
Qed.

(** A loop over the flattened indices of a table is a loop over its rows
    and, inside, over its columns. *)
Lemma fold_range_rows {S : Type} (f : S -> Z -> S) rows cols s :
  0 <= rows -> 0 <= cols ->
  fold_left f (range 0 (rows * cols)) s
  = fold_left (fun s r => fold_left (fun s c => f s (c + r * cols)) (range 0 cols) s)
              (range 0 rows) s.
Proof.
  intros Hrows Hcols. rewrite <- grid_flat by assumption.
  rewrite fold_left_map. unfold grid. rewrite fold_left_flat_map.
  apply fold_left_ext. intros s' r _. now rewrite fold_left_map.
Qed.

Lemma fold_left_idle {S A : Type} (f : S -> A -> S) (l : list A) s :
  (forall s x, In x l -> f s x = s) -> fold_left f l s = s.
Proof.
  induction l as [|x l IH]; intros H; cbn [fold_left]; [reflexivity|].
  rewrite H by now left. apply IH. intros s' y Hy. apply H. now right.
Qed.

Lemma fold_left_perm {S A : Type} (f : S -> A -> S) (l l' : list A) :
  (forall s x y, In x l -> In y l -> f (f s x) y = f (f s y) x) ->
  Permutation l l' ->
  forall s, fold_left f l s = fold_left f l' s.
Proof.
  intros Hcomm Hperm.
  induction Hperm as [| x l l' Hperm IH | x y l | l l' l'' Hperm1 IH1 Hperm2 IH2];
    intros s; cbn [fold_left].
  - reflexivity.
  - apply IH. intros s' a b Ha Hb. apply Hcomm; now right.
  - f_equal. apply Hcomm; [now left | right; now left].
  - rewrite IH1 by exact Hcomm. apply IH2.
    intros s' a b Ha Hb.
    apply Hcomm; apply (Permutation_in _ (Permutation_sym Hperm1)); assumption.
Qed.

(* ================================================================= *)
(** ** Indices of a volume that an [int] can address *)

Section Volume.

Variables width height depth poolSize poolStride : Z.
Hypothesis Hgeo : valid_geometry width height depth poolSize poolStride.
Hypothesis Hint : int_addressable width height depth.

Local Abbreviation PW := (pooled_extent_spec width poolSize poolStride).
Local Abbreviation PH := (pooled_extent_spec height poolSize poolStride).

Lemma extents_int : 1 <= width <= INT_MAX /\ 1 <= height <= INT_MAX.
Proof.
  destruct Hgeo as (? & ? & ? & ? & ?), Hint as [? ?]. nia.
Qed.

Lemma pooled_extents : 1 <= PW <= width /\ 1 <= PH <= height.
Proof.
  destruct Hgeo as (? & ? & ? & ? & ?). pose proof extents_int as [? ?].
  split; apply pooled_extent_spec_bounds; lia.
Qed.

Lemma pooledWidth_eq : pooledExtent width poolSize poolStride = PW.
Proof.
  destruct Hgeo as (? & ? & ? & ? & ?). pose proof extents_int as [? ?].
  apply pooledExtent_eq; lia.
Qed.

Lemma pooledHeight_eq : pooledExtent height poolSize poolStride = PH.
Proof.
  destruct Hgeo as (? & ? & ? & ? & ?). pose proof extents_int as [? ?].
  apply pooledExtent_eq; lia.
Qed.

Lemma pooled_plane_le : 1 <= PW * PH <= width * height.
Proof. pose proof pooled_extents as [? ?]. nia. Qed.

Lemma pooled_volume_le : 0 <= PW * PH * depth <= width * height * depth.
Proof.
  pose proof pooled_plane_le. destruct Hgeo as (? & ? & ? & ? & ?). nia.
Qed.

Lemma volume_index_bounds c h w :
  0 <= c < depth -> 0 <= h < height -> 0 <= w < width ->
  0 <= volume_index width height c h w < width * height * depth.
Proof.
  unfold volume_index. intros Hc Hh Hw.
  assert (0 <= c * height) by nia.
  assert (c * height + h + 1 <= depth * height) by nia.
  assert ((c * height + h + 1) * width <= depth * height * width) by nia.
  nia.
Qed.

Lemma pooled_index_bounds c ph pw :
  0 <= c < depth -> 0 <= ph < PH -> 0 <= pw < PW ->
  0 <= volume_index PW PH c ph pw < PW * PH * depth.
Proof.
  unfold volume_index. intros Hc Hh Hw.
  assert (0 <= c * PH) by nia.
  assert (c * PH + ph + 1 <= depth * PH) by nia.
  assert ((c * PH + ph + 1) * PW <= depth * PH * PW) by nia.
  nia.
Qed.

(** [h * width + w] as the sequential operators compute it. *)
Lemma plane_index_size h w :
  0 <= h < height -> 0 <= w < width ->
  size_add (size_mul (size_of_int h) width) (size_of_int w) = h * width + w.
Proof.
  intros Hh Hw. destruct Hint as [Hp _]. pose proof extents_int as [? ?].
  assert (0 <= h * width /\ h * width + w < width * height) by nia.
  rewrite !size_of_int_id by lia.
  rewrite size_mul_id by lia.
  apply size_add_id; lia.
Qed.

Lemma plane_index_int h w :
  0 <= h < height -> 0 <= w < width ->
  int_of_size (size_add (size_mul (size_of_int h) width) (size_of_int w)) = h * width + w.
Proof.
  intros Hh Hw. rewrite plane_index_size by assumption. destruct Hint as [Hp _].
  apply int_of_size_id. nia.
Qed.

(** [ph * pooledWidth + pw] as the sequential operators compute it. *)
Lemma pooled_plane_index ph pw :
  0 <= ph < PH -> 0 <= pw < PW -> int_add (int_mul ph PW) pw = ph * PW + pw.
Proof.
  intros Hh Hw. pose proof pooled_plane_le. destruct Hint as [Hp _].
  assert (0 <= ph * PW /\ ph * PW + pw < PW * PH) by nia.
  rewrite int_mul_id by lia. apply int_add_id. lia.
Qed.

(** The pointer increments at the end of the loop over the channels. *)
Lemma plane_size_eq : size_mul width height = width * height.
Proof.
  destruct Hint as [Hp _]. pose proof extents_int. apply size_mul_id. nia.
Qed.

Lemma pooled_plane_size_eq : int_mul PW PH = PW * PH.
Proof.
  destruct Hint as [Hp _]. pose proof pooled_plane_le. apply int_mul_id. lia.
Qed.

(** The window of an output cell lies inside the plane. *)
Lemma window_rows ph :
  0 <= ph < PH -> 0 <= ph * poolStride /\ ph * poolStride + poolSize <= height.
Proof.
  destruct Hgeo as (? & ? & ? & ? & ?). pose proof extents_int as [? ?].
  apply window_inside; lia.
Qed.

Lemma window_columns pw :
  0 <= pw < PW -> 0 <= pw * poolStride /\ pw * poolStride + poolSize <= width.
Proof.
  destruct Hgeo as (? & ? & ? & ? & ?). pose proof extents_int as [? ?].
  apply window_inside; lia.
Qed.

Lemma volume_index_plane w' h' c h w :
  c * (w' * h') + (h * w' + w) = volume_index w' h' c h w.
Proof. unfold volume_index. ring. Qed.

Lemma hstart_cpu ph : 0 <= ph < PH -> window_start_cpu ph poolStride = ph * poolStride.
Proof.
  destruct Hgeo as (? & ? & ? & ? & ?). pose proof extents_int as [? ?].
  apply window_start_cpu_eq with (poolSize := poolSize); lia.
Qed.

Lemma wstart_cpu pw : 0 <= pw < PW -> window_start_cpu pw poolStride = pw * poolStride.
Proof.
  destruct Hgeo as (? & ? & ? & ? & ?). pose proof extents_int as [? ?].
  apply window_start_cpu_eq with (poolSize := poolSize); lia.
Qed.

Lemma hend_cpu ph :
  0 <= ph < PH ->
  window_end_cpu (ph * poolStride) poolSize height = ph * poolStride + poolSize.
Proof.
  destruct Hgeo as (? & ? & ? & ? & ?). pose proof extents_int as [? ?].
  apply window_end_cpu_eq; lia.
Qed.

Lemma wend_cpu pw :
  0 <= pw < PW ->
  window_end_cpu (pw * poolStride) poolSize width = pw * poolStride + poolSize.
Proof.
  destruct Hgeo as (? & ? & ? & ? & ?). pose proof extents_int as [? ?].
  apply window_end_cpu_eq; lia.
Qed.

(* ----------------------------------------------------------------- *)
(** *** One output cell of the sequential backward pass *)

Context {T : Type} {ST : Scalar T}.
Variables data dzdy : list T.
Hypothesis Hdata : Z.of_nat (length data) = width * height * depth.
Hypothesis Hdzdy : Z.of_nat (length dzdy) = PW * PH * depth.

(** The scan of a window ends on a cell of the window. *)
Lemma scan_argmax_window (val : Z * Z -> T) ph pw :
  0 <= ph < PH -> 0 <= pw < PW ->
  exists h w,
    scan_argmax val (window_cells (ph * poolStride) (ph * poolStride + poolSize)
                                  (pw * poolStride) (pw * poolStride + poolSize))
    = Some (h, w) /\
    (ph * poolStride <= h < ph * poolStride + poolSize /\ h < height) /\
    (pw * poolStride <= w < pw * poolStride + poolSize /\ w < width).
Proof using Hgeo Hint.
  clear - Hgeo Hint.
  intros Hph Hpw. destruct Hgeo as (? & ? & ? & ? & ?).
  pose proof (window_rows ph Hph). pose proof (window_columns pw Hpw).
  destruct (window_cells_cons (ph * poolStride) (ph * poolStride + poolSize)
              (pw * poolStride) (pw * poolStride + poolSize)) as [rest Hcells]; [lia | lia |].
  destruct (scan_argmax val (window_cells _ _ _ _)) as [[h w]|] eqn:E.
  - exists h, w. split; [reflexivity|].
    apply scan_argmax_in, in_window_cells in E. lia.
  - rewrite Hcells in E. discriminate.
Qed.

Lemma maxPoolingBackward_cpu_cell_eq c ph pw (mem : list T) :
  0 <= c < depth -> 0 <= ph < PH -> 0 <= pw < PW ->
  Z.of_nat (length mem) = width * height * depth ->
  maxPoolingBackward_cpu_cell data dzdy width height poolSize poolStride PW
    (c * (width * height)) (c * (width * height)) (c * (PW * PH)) ph pw mem
  = Some (backward_cell scan_argmax data dzdy width height poolSize poolStride c ph pw mem).
Proof using Hgeo Hint Hdata Hdzdy.
  clear - Hgeo Hint Hdata Hdzdy.
  intros Hc Hph Hpw Hmem. destruct Hgeo as (? & ? & ? & ? & ?).
  pose proof (window_rows ph Hph) as Hrows. pose proof (window_columns pw Hpw) as Hcols.
  unfold maxPoolingBackward_cpu_cell, backward_cell.
  rewrite (hstart_cpu ph Hph), (wstart_cpu pw Hpw), (hend_cpu ph Hph), (wend_cpu pw Hpw).
  rewrite !Z.min_l by lia.
  set (hs := ph * poolStride) in *. set (ws := pw * poolStride) in *.
  set (val := fun '(h, w) => peek data (volume_index width height c h w)).
  pose (idx := fun '(h, w) => h * width + w : Z).
  (* the first element of the window *)
  rewrite plane_index_int by lia. rewrite volume_index_plane.
  rewrite load_peek
    by (rewrite Hdata; apply volume_index_bounds; lia).
  (* the scan *)
  match goal with
  | |- context [for_ ?a ?b (fun h best => for_ ?c' ?d (@?body h) best) ?s0] =>
      rewrite (for_window_fold a b c' d body
                 (fun (best : T * Z) q =>
                    if s_gt (val q) (fst best) then (val q, idx q) else best) s0)
  end.
  2:{ intros h w [bv bi] Hh Hw. cbv beta.
      rewrite plane_index_int by lia. rewrite volume_index_plane.
      rewrite load_peek by (rewrite Hdata; apply volume_index_bounds; lia).
      cbn [fst]. change (val (h, w)) with (peek data (volume_index width height c h w)).
      change (idx (h, w)) with (h * width + w).
      now destruct (s_gt (peek data (volume_index width height c h w)) bv). }
  change (peek data (volume_index width height c hs ws), hs * width + ws)
    with (val (hs, ws), idx (hs, ws)).
  rewrite fold_value_index.
  destruct (scan_argmax_window val ph pw Hph Hpw) as (h & w & Hscan & Hh & Hw).
  fold hs ws in Hscan, Hh, Hw. rewrite Hscan.
  destruct (window_cells_cons hs (hs + poolSize) ws (ws + poolSize)) as [rest Hcells];
    [lia | lia |].
  unfold scan_argmax in Hscan. rewrite Hcells in Hscan.
  rewrite Hcells.
  assert (Hr : fold_left (keep_greater val) ((hs, ws) :: rest) (hs, ws) = (h, w))
    by congruence.
  rewrite Hr. cbv beta iota. unfold idx.
  (* the gradient of the cell and the accumulation *)
  rewrite pooled_plane_index by assumption. rewrite !volume_index_plane.
  rewrite load_peek by (rewrite Hdzdy; apply pooled_index_bounds; lia).
  assert (Hin : 0 <= volume_index width height c h w < Z.of_nat (length mem))
    by (rewrite Hmem; apply volume_index_bounds; lia).
  rewrite load_peek by exact Hin.
  rewrite store_Some by exact Hin. reflexivity.
Qed.

Lemma length_backward_cell select c ph pw (mem : list T) :
  length (backward_cell select data dzdy width height poolSize poolStride c ph pw mem)
  = length mem.
Proof using Type.
  unfold backward_cell.
  destruct (select _ _) as [[h w]|]; [apply length_add_at | reflexivity].
Qed.

(* ----------------------------------------------------------------- *)
(** *** The sequential backward pass *)

(** The operator does not fail and computes [backward_route] with the
    scan of the code. *)
Lemma maxPoolingBackward_cpu_route (dzdx : list T) :
  Z.of_nat (length dzdx) = width * height * depth ->
  maxPoolingBackward_cpu dzdx data dzdy width height depth poolSize poolStride
  = Some (backward_route scan_argmax dzdx data dzdy
            width height depth poolSize poolStride).
Proof using Hgeo Hint Hdata Hdzdy.
  clear - Hgeo Hint Hdata Hdzdy.
  intros Hdzdx. destruct Hgeo as (? & ? & ? & ? & Hdepth).
  unfold maxPoolingBackward_cpu, backward_route.
  rewrite pooledWidth_eq, pooledHeight_eq, plane_size_eq, pooled_plane_size_eq.
  set (plane := fun (mem : list T) (c : Z) =>
    fold_left (fun mem ph =>
      fold_left (fun mem pw =>
        backward_cell scan_argmax data dzdy width height poolSize poolStride c ph pw mem)
        (range 0 PW) mem) (range 0 PH) mem).
  match goal with
  | |- context [for_ 0 depth ?body ?s0] =>
      destruct (for_inv
        (fun c '(mem, p, q, r) =>
           p = c * (width * height) /\ q = c * (width * height) /\
           r = c * (PW * PH) /\
           mem = fold_left plane (range 0 c) dzdx /\
           Z.of_nat (length mem) = width * height * depth)
        0 depth body s0) as ([[[mem p] q] r] & -> & (_ & _ & _ & -> & _))
  end.
  - exact Hdepth.
  - rewrite range_nil by lia. cbn [fold_left]. repeat split; try lia. 
  - intros c [[[mem p] q] r] Hc (-> & -> & -> & Hmem & Hlen).
    assert (Hplane :
      for_ 0 PH (fun ph mem0 =>
        for_ 0 PW (fun pw mem1 =>
          maxPoolingBackward_cpu_cell data dzdy width height poolSize poolStride PW
            (c * (width * height)) (c * (width * height)) (c * (PW * PH)) ph pw mem1)
          mem0) mem
      = Some (plane mem c) /\ Z.of_nat (length (plane mem c)) = width * height * depth).
    { unfold plane, for_ at 1.
      apply (foldM_fold_inv (fun m => Z.of_nat (length m) = width * height * depth));
        [exact Hlen|].
      intros ph mem0 Hph Hlen0. apply in_range in Hph.
      unfold for_.
      apply (foldM_fold_inv (fun m => Z.of_nat (length m) = width * height * depth));
        [exact Hlen0|].
      intros pw mem1 Hpw Hlen1. apply in_range in Hpw.
      split.
      - now apply maxPoolingBackward_cpu_cell_eq.
      - now rewrite length_backward_cell. }
    destruct Hplane as [-> Hlen'].
    eexists. split; [reflexivity|]. cbv beta iota.
    repeat split; try ring; [|exact Hlen'].
    rewrite range_snoc by lia. rewrite fold_left_app. cbn [fold_left]. now rewrite <- Hmem.
  - reflexivity.
Qed.

(** Each output cell adds its gradient to one element of [dzdx]. *)
Lemma backward_cell_scan c ph pw (mem : list T) :
  0 <= c < depth -> 0 <= ph < PH -> 0 <= pw < PW ->
  exists i,
    0 <= i < width * height * depth /\
    backward_cell scan_argmax data dzdy width height poolSize poolStride c ph pw mem
    = add_at mem i (peek dzdy (volume_index PW PH c ph pw)).
Proof using Hgeo Hint.
  clear - Hgeo Hint.
  intros Hc Hph Hpw. unfold backward_cell.
  pose proof (window_rows ph Hph). pose proof (window_columns pw Hpw).
  rewrite !Z.min_l by lia.
  destruct (scan_argmax_window
              (fun '(h, w) => peek data (volume_index width height c h w)) ph pw Hph Hpw)
    as (h & w & -> & Hh & Hw).
  exists (volume_index width height c h w). split; [|reflexivity].
  apply volume_index_bounds; lia.
Qed.

Section RouteTotal.

Variable zero : T.
Hypothesis add_comm : forall x y : T, s_add x y = s_add y x.
Hypothesis add_assoc : forall x y z : T, s_add x (s_add y z) = s_add (s_add x y) z.
Hypothesis add_zero : forall x : T, s_add zero x = x.

(** The sequential backward pass adds the sum of [dzdy] to the sum of
    [dzdx]. *)
Lemma backward_route_total (dzdx : list T) :
  Z.of_nat (length dzdx) = width * height * depth ->
  total zero (backward_route scan_argmax dzdx data dzdy
                width height depth poolSize poolStride)
  = s_add (total zero dzdx) (total zero dzdy).
Proof using Hgeo Hint Hdzdy add_comm add_assoc add_zero.
  clear - Hgeo Hint Hdzdy add_comm add_assoc add_zero.
  intros Hdzdx. destruct Hgeo as (? & ? & ? & ? & Hdepth).
  pose proof pooled_extents as [HPW HPH].
  unfold backward_route.
  set (I := fun k (mem : list T) =>
    Z.of_nat (length mem) = width * height * depth /\
    total zero mem = s_add (total zero dzdx) (total zero (firstn (Z.to_nat k) dzdy))).
  assert (Hend : I (depth * (PW * PH))
    (fold_left (fun dzdx c =>
       fold_left (fun dzdx ph =>
         fold_left (fun dzdx pw =>
           backward_cell scan_argmax data dzdy width height poolSize poolStride
             c ph pw dzdx) (range 0 PW) dzdx) (range 0 PH) dzdx) (range 0 depth) dzdx)).
  { apply (fold_range_inv (fun c mem => I (c * (PW * PH)) mem)); [exact Hdepth | |].
    - split; [exact Hdzdx|]. cbn [Z.mul Z.to_nat firstn total fold_right].
      now rewrite (add_comm _ zero), add_zero.
    - intros c mem Hc Hmem.
      replace ((c + 1) * (PW * PH)) with (c * (PW * PH) + PH * PW) by ring.
      apply (fold_range_inv (fun ph mem => I (c * (PW * PH) + ph * PW) mem));
        [lia | now rewrite Z.add_0_r |].
      intros ph mem1 Hph Hmem1.
      replace (c * (PW * PH) + (ph + 1) * PW) with (c * (PW * PH) + ph * PW + PW) by ring.
      apply (fold_range_inv (fun pw mem => I (c * (PW * PH) + ph * PW + pw) mem));
        [lia | now rewrite Z.add_0_r |].
      intros pw mem2 Hpw [Hlen Htot].
      destruct (backward_cell_scan c ph pw mem2 Hc Hph Hpw) as (i & Hi & ->).
      replace (c * (PW * PH) + ph * PW + (pw + 1)) with (volume_index PW PH c ph pw + 1)
        by (unfold volume_index; ring).
      replace (c * (PW * PH) + ph * PW + pw) with (volume_index PW PH c ph pw) in Htot
        by (unfold volume_index; ring).
      pose proof (pooled_index_bounds c ph pw Hc Hph Hpw) as Hk.
      split; [now rewrite length_add_at|].
      rewrite total_add_at by (try assumption; lia).
      rewrite Htot, firstn_succ_peek by lia.
      rewrite (total_snoc zero) by assumption.
      now rewrite add_assoc. }
  destruct Hend as [_ ->]. f_equal. f_equal.
  apply firstn_all2. lia.
Qed.

End RouteTotal.

Section RouteFirst.

Hypothesis Hordered : ordered_on (fun x => In x data).

(** The elements of a window are elements of [data]. *)
Lemma window_values_in_data c ph pw q :
  0 <= c < depth -> 0 <= ph < PH -> 0 <= pw < PW ->
  In q (window_cells (ph * poolStride) (Z.min (ph * poolStride + poolSize) height)
                     (pw * poolStride) (Z.min (pw * poolStride + poolSize) width)) ->
  In ((fun '(h, w) => peek data (volume_index width height c h w)) q) data.
Proof using Hgeo Hint Hdata.
  clear - Hgeo Hint Hdata.
  intros Hc Hph Hpw. destruct q as [h w]. intros Hq.
  pose proof (window_rows ph Hph). pose proof (window_columns pw Hpw).
  rewrite !Z.min_l in Hq by lia. apply in_window_cells in Hq.
  apply peek_In. rewrite Hdata. apply volume_index_bounds; lia.
Qed.

(** Where the elements of [data] are ordered, the scan of the code picks
    the arg-max of the specification in every window. *)
Lemma backward_route_first (dzdx : list T) :
  backward_route scan_argmax dzdx data dzdy width height depth poolSize poolStride
  = maxPoolingBackward_spec dzdx data dzdy width height depth poolSize poolStride.
Proof using Hgeo Hint Hdata Hordered.
  clear - Hgeo Hint Hdata Hordered.
  destruct Hordered as (Hirr & Htrans & Hge).
  unfold maxPoolingBackward_spec, backward_route.
  apply fold_left_ext. intros mem c Hc. apply in_range in Hc.
  apply fold_left_ext. intros mem1 ph Hph. apply in_range in Hph.
  apply fold_left_ext. intros mem2 pw Hpw. apply in_range in Hpw.
  unfold backward_cell.
  rewrite (scan_argmax_first _ (fun x => In x data) Hirr Htrans Hge); [reflexivity|].
  intros q Hq. now apply (window_values_in_data c ph pw).
Qed.

End RouteFirst.

(* ----------------------------------------------------------------- *)
(** *** The launches of the parallel operators *)

Context {DV : Device}.
Hypothesis Hthreads : 0 < CAFFE_CUDA_NUM_THREADS.
Hypothesis Hlaunch : width * height * depth + CAFFE_CUDA_NUM_THREADS <= INT_MAX.

Local Abbreviation NT := CAFFE_CUDA_NUM_THREADS.
Local Abbreviation COUNT := (PW * PH * depth).

Lemma count_eq :
  int_of_size (size_mul (size_of_int
     (int_mul (pooledExtent width poolSize poolStride)
              (pooledExtent height poolSize poolStride))) depth) = COUNT.
Proof using Hgeo Hint.
  clear - Hgeo Hint.
  rewrite pooledWidth_eq, pooledHeight_eq, pooled_plane_size_eq.
  pose proof pooled_plane_le. pose proof pooled_volume_le. destruct Hint as [? ?].
  rewrite size_of_int_id by lia. rewrite size_mul_id by lia.
  apply int_of_size_id. lia.
Qed.

Lemma depth_int : depth <= INT_MAX.
Proof using Hgeo Hint.
  clear - Hgeo Hint.
  destruct Hgeo as (? & ? & ? & ? & ?), Hint as [? ?]. pose proof extents_int. nia.
Qed.

(** The grid covers the work count, with less than one block to spare. *)
Lemma blocks_cover :
  COUNT <= CAFFE_GET_BLOCKS COUNT * NT <= COUNT + NT - 1.
Proof using Hgeo Hint Hthreads Hlaunch.
  clear - Hgeo Hint Hthreads Hlaunch.
  pose proof pooled_volume_le as Hc. unfold CAFFE_GET_BLOCKS, int_div.
  rewrite (int_add_id COUNT NT) by lia.
  rewrite int_add_id by lia.
  rewrite Z.quot_div_nonneg by lia.
  assert (Hnz : NT <> 0) by lia.
  pose proof (Z.div_mod (COUNT + NT + -1) NT Hnz) as Hdm.
  pose proof (Z.mod_pos_bound (COUNT + NT + -1) NT Hthreads) as Hmod.
  nia.
Qed.

Lemma in_grid b t gridDim blockDim :
  In (b, t) (grid gridDim blockDim) <-> 0 <= b < gridDim /\ 0 <= t < blockDim.
Proof using Type. apply (in_window_cells b t 0 gridDim 0 blockDim). Qed.

(** The flattened index of a thread of the launch. *)
Lemma thread_index b t :
  In (b, t) (grid (CAFFE_GET_BLOCKS COUNT) NT) ->
  int_of_uint (uint_add t (uint_mul b NT)) = t + b * NT /\
  0 <= t + b * NT < CAFFE_GET_BLOCKS COUNT * NT.
Proof using Hgeo Hint Hthreads Hlaunch.
  clear - Hgeo Hint Hthreads Hlaunch.
  intros Hin. apply in_grid in Hin as [Hb Ht].
  pose proof blocks_cover as Hcov. pose proof pooled_volume_le as Hc.
  assert (Hlt : 0 <= b * NT /\ t + b * NT < CAFFE_GET_BLOCKS COUNT * NT) by nia.
  split; [|lia].
  unfold int_of_uint, uint_add, uint_mul, INT_MAX in *.
  rewrite (to_uint_id (b * NT)) by lia.
  rewrite to_uint_id by lia.
  apply to_int_id. unfold INT_MAX. lia.
Qed.

(** The coordinates a kernel decodes from a flattened index below the
    work count. *)
Lemma decode_index index :
  0 <= index < COUNT ->
  let pw := int_mod index PW in
  let ph := int_mod (int_div index PW) PH in
  let c := int_mod (int_div (int_div index PW) PH) depth in
  let n := int_div (int_div (int_div index PW) PH) depth in
  0 <= pw < PW /\ 0 <= ph < PH /\ 0 <= c < depth /\ n = 0 /\
  index = volume_index PW PH c ph pw.
Proof using Hgeo Hint.
  clear - Hgeo Hint.
  intros Hi. pose proof pooled_extents as [HPW HPH]. destruct Hgeo as (_ & _ & _ & _ & Hd).
  cbv zeta. unfold int_mod, int_div.
  rewrite (Z.quot_div_nonneg index PW) by lia.
  assert (H1 : 0 <= index / PW < PH * depth).
  { split; [apply Z.div_pos; lia|]. apply Z.div_lt_upper_bound; nia. }
  rewrite (Z.quot_div_nonneg (index / PW) PH) by lia.
  assert (H2 : 0 <= index / PW / PH < depth).
  { split; [apply Z.div_pos; lia|]. apply Z.div_lt_upper_bound; nia. }
  rewrite Z.quot_div_nonneg by lia.
  rewrite !Z.rem_mod_nonneg by lia.
  rewrite (Z.mod_small (index / PW / PH) depth) by lia.
  rewrite (Z.div_small (index / PW / PH) depth) by lia.
  assert (HPWpos : 0 < PW) by lia. assert (HPHpos : 0 < PH) by lia.
  assert (HPWnz : PW <> 0) by lia. assert (HPHnz : PH <> 0) by lia.
  pose proof (Z.mod_pos_bound index PW HPWpos).
  pose proof (Z.mod_pos_bound (index / PW) PH HPHpos).
  repeat split; try lia.
  unfold volume_index.
  pose proof (Z.div_mod index PW HPWnz).
  pose proof (Z.div_mod (index / PW) PH HPHnz).
  nia.
Qed.

Lemma decode_index_closed index :
  0 <= index < COUNT ->
  int_mod index PW = index mod PW /\
  int_mod (int_div index PW) PH = (index / PW) mod PH /\
  int_mod (int_div (int_div index PW) PH) depth = index / PW / PH.
Proof using Hgeo Hint.
  clear - Hgeo Hint.
  intros Hi. pose proof pooled_extents as [HPW HPH]. destruct Hgeo as (_ & _ & _ & _ & Hd).
  unfold int_mod, int_div.
  rewrite (Z.quot_div_nonneg index PW) by lia.
  assert (H1 : 0 <= index / PW < PH * depth).
  { split; [apply Z.div_pos; lia|]. apply Z.div_lt_upper_bound; nia. }
  rewrite (Z.quot_div_nonneg (index / PW) PH) by lia.
  assert (H2 : 0 <= index / PW / PH < depth).
  { split; [apply Z.div_pos; lia|]. apply Z.div_lt_upper_bound; nia. }
  rewrite !Z.rem_mod_nonneg by lia.
  now rewrite (Z.mod_small (index / PW / PH) depth) by lia.
Qed.

(** The position of an output cell in the pooled volume determines the
    cell. *)
Lemma decode_volume_index c ph pw :
  0 <= c < depth -> 0 <= ph < PH -> 0 <= pw < PW ->
  let k := volume_index PW PH c ph pw in
  k / PW / PH = c /\ (k / PW) mod PH = ph /\ k mod PW = pw.
Proof using Hgeo Hint.
  clear - Hgeo Hint.
  intros Hc Hph Hpw. cbv zeta. unfold volume_index.
  assert (Hdiv : ((c * PH + ph) * PW + pw) / PW = c * PH + ph).
  { rewrite Z.div_add_l by lia. rewrite (Z.div_small pw PW) by lia. lia. }
  rewrite Hdiv. repeat split.
  - rewrite Z.div_add_l by lia. rewrite (Z.div_small ph PH) by lia. lia.
  - rewrite Z.add_comm, Z.mod_add by lia. apply Z.mod_small. lia.
  - rewrite Z.add_comm, Z.mod_add by lia. apply Z.mod_small. lia.
Qed.

Lemma hstart_gpu ph :
  0 <= ph < PH -> window_start_gpu ph (int_of_size poolStride) = ph * poolStride.
Proof using Hgeo Hint.
  clear - Hgeo Hint.
  destruct Hgeo as (? & ? & ? & ? & ?). pose proof extents_int as [? ?].
  apply window_start_gpu_eq with (poolSize := poolSize); lia.
Qed.

Lemma wstart_gpu pw :
  0 <= pw < PW -> window_start_gpu pw (int_of_size poolStride) = pw * poolStride.
Proof using Hgeo Hint.
  clear - Hgeo Hint.
  destruct Hgeo as (? & ? & ? & ? & ?). pose proof extents_int as [? ?].
  apply window_start_gpu_eq with (poolSize := poolSize); lia.
Qed.

Lemma hend_gpu ph :
  0 <= ph < PH ->
  window_end_gpu (ph * poolStride) (int_of_size poolSize) (int_of_size height)
  = ph * poolStride + poolSize.
Proof using Hgeo Hint.
  clear - Hgeo Hint.
  destruct Hgeo as (? & ? & ? & ? & ?). pose proof extents_int as [? ?].
  apply window_end_gpu_eq; lia.
Qed.

Lemma wend_gpu pw :
  0 <= pw < PW ->
  window_end_gpu (pw * poolStride) (int_of_size poolSize) (int_of_size width)
  = pw * poolStride + poolSize.
Proof using Hgeo Hint.
  clear - Hgeo Hint.
  destruct Hgeo as (? & ? & ? & ? & ?). pose proof extents_int as [? ?].
  apply window_end_gpu_eq; lia.
Qed.

(** [h * width + w] as the kernels compute it. *)
Lemma plane_index_gpu h w :
  0 <= h < height -> 0 <= w < width ->
  int_add (int_mul h (int_of_size width)) w = h * width + w.
Proof using Hgeo Hint.
  clear - Hgeo Hint.
  intros Hh Hw. destruct Hint as [Hp _]. pose proof extents_int as [? ?].
  assert (0 <= h * width /\ h * width + w < width * height) by nia.
  rewrite int_of_size_id by lia.
  rewrite int_mul_id by lia. apply int_add_id. lia.
Qed.

(** The offset of channel [c] of batch item 0 as the kernels compute it. *)
Lemma channel_offset_gpu c :
  0 <= c < depth ->
  int_mul (int_mul (int_add (int_mul 0 depth) c) (int_of_size height))
          (int_of_size width)
  = c * (width * height).
Proof using Hgeo Hint.
  clear - Hgeo Hint.
  intros Hc. destruct Hint as [_ Hv]. pose proof extents_int as [? ?].
  pose proof depth_int.
  assert (0 <= c * height /\ c * height < depth * height) by nia.
  assert (0 <= c * height * width /\ c * height * width < depth * height * width) by nia.
  assert (depth * height <= width * height * depth) by nia.
  rewrite (int_of_size_id height), (int_of_size_id width) by lia.
  change (int_mul 0 depth) with 0.
  rewrite (int_add_id 0 c) by lia. cbn [Z.add].
  rewrite (int_mul_id c height) by lia.
  rewrite int_mul_id by lia. ring.
Qed.

(** One thread of the backward kernel: beyond the work count it leaves
    the memory alone, below it adds one element of [dzdy] to one element of
    [dzdx]. *)
Lemma maxPoolingBackward_gpu_kernel_step b t (mem : list T) :
  In (b, t) (grid (CAFFE_GET_BLOCKS COUNT) NT) ->
  Z.of_nat (length mem) = width * height * depth ->
  exists mem',
    maxPoolingBackward_gpu_kernel b t NT COUNT data dzdy
      1 (int_of_size depth) (int_of_size height) (int_of_size width)
      PH PW (int_of_size poolSize) (int_of_size poolStride) mem = Some mem' /\
    ((COUNT <= t + b * NT /\ mem' = mem) \/
     (t + b * NT < COUNT /\
      exists i, 0 <= i < width * height /\
                0 <= i < width * height * depth /\
                mem' = add_at mem i (peek dzdy (t + b * NT)))).
Proof using Hgeo Hint Hdata Hdzdy Hthreads Hlaunch.
  clear - Hgeo Hint Hdata Hdzdy Hthreads Hlaunch.
  intros Hin Hmem. destruct (thread_index b t Hin) as [Hidx Hrange].
  unfold maxPoolingBackward_gpu_kernel. rewrite Hidx.
  destruct (Z.ltb_spec (t + b * NT) COUNT) as [Hlt | Hge].
  2:{ exists mem. split; [reflexivity|]. left. split; [lia | reflexivity]. }
  assert (Hwork : 0 <= t + b * NT < COUNT) by lia.
  destruct (decode_index (t + b * NT) Hwork) as (Hpw & Hph & Hc & Hn & Hvol).
  rewrite (int_of_size_id depth)
    by (destruct Hgeo as (_ & _ & _ & _ & ?); pose proof depth_int; lia).
  rewrite Hn. clear Hn.
  set (pw := int_mod (t + b * NT) PW) in *.
  set (ph := int_mod (int_div (t + b * NT) PW) PH) in *.
  set (c := int_mod (int_div (int_div (t + b * NT) PW) PH) depth) in *.
  rewrite (hstart_gpu ph Hph), (wstart_gpu pw Hpw), (hend_gpu ph Hph), (wend_gpu pw Hpw).
  rewrite (channel_offset_gpu c Hc).
  pose proof (window_rows ph Hph) as Hrows. pose proof (window_columns pw Hpw) as Hcols.
  pose proof extents_int as [Hwi Hhi].
  match goal with
  | |- context [for_ ?a ?b' (fun h best => for_ ?c' ?d (@?body h) best) ?s0] =>
      destruct (for_window_inv (fun best : T * Z => 0 <= snd best < width * height)
                  a b' c' d body s0) as ([bv bi] & -> & Hbi)
  end.
  - cbn [snd]. nia.
  - intros h w [bv bi] Hh Hw Hbi. cbv beta. cbn [snd] in Hbi.
    rewrite plane_index_gpu by lia. rewrite volume_index_plane.
    rewrite load_peek by (rewrite Hdata; apply volume_index_bounds; lia).
    destruct (s_gt _ bv); eexists; (split; [reflexivity|]); cbn [snd]; nia.
  - cbn [snd] in Hbi.
    rewrite load_peek by (rewrite Hdzdy; lia).
    assert (Hi : 0 <= bi < width * height * depth).
    { destruct Hint as [? ?]. nia. }
    rewrite atomicAdd_add_at by (rewrite Hmem; exact Hi).
    eexists. split; [reflexivity|]. right. split; [exact Hlt|].
    exists bi. split; [exact Hbi|]. split; [exact Hi | reflexivity].
Qed.

(** One thread of the forward kernel: beyond the work count it leaves the
    memory alone, below it it writes the running maximum of its window,
    started from [-FLT_MAX], to its own element of the pooled volume. *)
Lemma maxPooling_gpu_kernel_step b t (mem : list T) :
  In (b, t) (grid (CAFFE_GET_BLOCKS COUNT) NT) ->
  Z.of_nat (length mem) = COUNT ->
  exists mem',
    maxPooling_gpu_kernel b t NT COUNT data
      1 (int_of_size depth) (int_of_size height) (int_of_size width)
      PH PW (int_of_size poolSize) (int_of_size poolStride) mem = Some mem' /\
    length mem' = length mem /\
    ((COUNT <= t + b * NT /\ mem' = mem) \/
     (t + b * NT < COUNT /\
      mem' = update mem (Z.to_nat (t + b * NT))
               (pooled_value data width height poolSize poolStride
                  neg_FLT_MAX (t + b * NT)))).
Proof using Hgeo Hint Hdata Hthreads Hlaunch.
  clear - Hgeo Hint Hdata Hthreads Hlaunch.
  intros Hin Hmem. destruct (thread_index b t Hin) as [Hidx Hrange].
  unfold maxPooling_gpu_kernel. rewrite Hidx.
  destruct (Z.ltb_spec (t + b * NT) COUNT) as [Hlt | Hge].
  2:{ exists mem. split; [reflexivity|]. split; [reflexivity|]. left.
      split; [exact Hge | reflexivity]. }
  assert (Hwork : 0 <= t + b * NT < COUNT) by lia.
  destruct (decode_index (t + b * NT) Hwork) as (Hpw & Hph & Hc & Hn & Hvol).
  destruct (decode_index_closed (t + b * NT) Hwork) as (Epw & Eph & Ec).
  rewrite (int_of_size_id depth)
    by (destruct Hgeo as (_ & _ & _ & _ & ?); pose proof depth_int; lia).
  rewrite Hn. clear Hn.
  set (pw := int_mod (t + b * NT) PW) in *.
  set (ph := int_mod (int_div (t + b * NT) PW) PH) in *.
  set (c := int_mod (int_div (int_div (t + b * NT) PW) PH) depth) in *.
  rewrite (hstart_gpu ph Hph), (wstart_gpu pw Hpw), (hend_gpu ph Hph), (wend_gpu pw Hpw).
  rewrite (channel_offset_gpu c Hc).
  pose proof (window_rows ph Hph) as Hrows. pose proof (window_columns pw Hpw) as Hcols.
  match goal with
  | |- context [for_ ?a ?b' (fun h best => for_ ?c' ?d (@?body h) best) ?s0] =>
      rewrite (for_window_fold a b' c' d body
                 (fun m '(h, w) => s_max m (peek data (volume_index width height c h w)))
                 s0)
  end.
  2:{ intros h w maxval Hh Hw. cbv beta.
      rewrite plane_index_gpu by lia. rewrite volume_index_plane.
      rewrite load_peek by (rewrite Hdata; apply volume_index_bounds; lia).
      reflexivity. }
  rewrite store_Some by lia.
  eexists. split; [reflexivity|]. split; [apply length_update|].
  right. split; [exact Hlt|]. f_equal.
  unfold pooled_value, window_max_from.
  rewrite <- Epw, <- Eph, <- Ec. fold pw ph c.
  rewrite !Z.min_l by lia. reflexivity.
Qed.

(* ----------------------------------------------------------------- *)
(** *** The parallel operators *)

(** Whatever the order in which the threads run. *)
Hypothesis Hschedule : forall g : list (Z * Z), Permutation (schedule g) g.

(** Every cell of the pooled volume of the parallel forward pass is the
    running maximum of its window started from [-FLT_MAX]. *)
Lemma maxPooling_gpu_values (pooled : list T) :
  Z.of_nat (length pooled) = COUNT ->
  exists out,
    maxPooling_gpu pooled data width height depth poolSize poolStride = Some out /\
    length out = length pooled /\
    forall k, 0 <= k < COUNT ->
      peek out k = pooled_value data width height poolSize poolStride neg_FLT_MAX k.
Proof using Hgeo Hint Hdata Hthreads Hlaunch Hschedule.
  clear - Hgeo Hint Hdata Hthreads Hlaunch Hschedule.
  intros Hpooled. unfold maxPooling_gpu, launch.
  rewrite count_eq, pooledWidth_eq, pooledHeight_eq.
  set (flat := fun '(b, t) => t + b * NT).
  destruct (run_threads_inv
    (fun done (m : list T) =>
       length m = length pooled /\
       forall k, 0 <= k < COUNT -> In k (map flat done) ->
         peek m k = pooled_value data width height poolSize poolStride neg_FLT_MAX k)
    (fun b t => maxPooling_gpu_kernel b t NT COUNT data
       1 (int_of_size depth) (int_of_size height) (int_of_size width)
       PH PW (int_of_size poolSize) (int_of_size poolStride))
    (schedule (grid (CAFFE_GET_BLOCKS COUNT) NT)) pooled) as (out & Hrun & Hlen & Hout).
  - split; [reflexivity|]. intros k _ [].
  - intros done b t m Hin [Hm HJ].
    apply (Permutation_in _ (Hschedule _)) in Hin.
    assert (Hm' : Z.of_nat (length m) = COUNT) by lia.
    destruct (maxPooling_gpu_kernel_step b t m Hin Hm')
      as (m' & -> & Hlen & [[Hge ->] | [Hlt ->]]).
    + exists m. split; [reflexivity|]. split; [exact Hm|].
      intros k Hk Hink. rewrite map_app in Hink.
      apply in_app_or in Hink as [Hink | [Hink | []]]; [apply HJ; assumption|].
      cbn in Hink. lia.
    + eexists. split; [reflexivity|]. split; [rewrite length_update; exact Hm|].
      destruct (thread_index b t Hin) as [_ Hrange].
      intros k Hk Hink. destruct (Z.eq_dec k (t + b * NT)) as [-> | Hne].
      * apply peek_update_same. lia.
      * rewrite peek_update_other by lia.
        rewrite map_app in Hink.
        apply in_app_or in Hink as [Hink | [Hink | []]]; [apply HJ; assumption|].
        cbn in Hink. lia.
  - exists out. split; [exact Hrun|]. split; [exact Hlen|].
    intros k Hk. apply Hout; [exact Hk|].
    apply (Permutation_in _ (Permutation_map flat
             (Permutation_sym (Hschedule (grid (CAFFE_GET_BLOCKS COUNT) NT))))).
    pose proof blocks_cover as Hcov. pose proof pooled_volume_le as Hc.
    assert (HB : 0 <= CAFFE_GET_BLOCKS COUNT) by nia.
    unfold flat. rewrite grid_flat by lia. apply in_range. lia.
Qed.

Lemma maxPooling_gpu_runs (pooled : list T) :
  Z.of_nat (length pooled) = COUNT ->
  exists out,
    maxPooling_gpu pooled data width height depth poolSize poolStride = Some out /\
    length out = length pooled.
Proof using Hgeo Hint Hdata Hthreads Hlaunch Hschedule.
  clear - Hgeo Hint Hdata Hthreads Hlaunch Hschedule.
  intros Hpooled.
  destruct (maxPooling_gpu_values pooled Hpooled) as (out & Hrun & Hlen & _).
  exists out. now split.
Qed.

(** The backward launch does not fail, and keeps every invariant that
    adding one element of [dzdy] to one element of the first plane of
    [dzdx] keeps. *)
Lemma maxPoolingBackward_gpu_runs (J : list (Z * Z) -> list T -> Prop) (dzdx : list T) :
  Z.of_nat (length dzdx) = width * height * depth ->
  J [] dzdx ->
  (forall done b t mem,
     In (b, t) (grid (CAFFE_GET_BLOCKS COUNT) NT) -> COUNT <= t + b * NT ->
     J done mem -> J (done ++ [(b, t)]) mem) ->
  (forall done b t mem i,
     In (b, t) (grid (CAFFE_GET_BLOCKS COUNT) NT) -> t + b * NT < COUNT ->
     Z.of_nat (length mem) = width * height * depth ->
     0 <= i < width * height ->
     0 <= i < width * height * depth ->
     J done mem -> J (done ++ [(b, t)]) (add_at mem i (peek dzdy (t + b * NT)))) ->
  exists out,
    maxPoolingBackward_gpu dzdx data dzdy width height depth poolSize poolStride = Some out /\
    length out = length dzdx /\
    J (schedule (grid (CAFFE_GET_BLOCKS COUNT) NT)) out.
Proof using Hgeo Hint Hdata Hdzdy Hthreads Hlaunch Hschedule.
  clear - Hgeo Hint Hdata Hdzdy Hthreads Hlaunch Hschedule.
  intros Hdzdx H0 Hidle Hadd. unfold maxPoolingBackward_gpu, launch.
  rewrite count_eq, pooledWidth_eq, pooledHeight_eq.
  destruct (run_threads_inv
    (fun done (m : list T) => length m = length dzdx /\ J done m)
    (fun b t => maxPoolingBackward_gpu_kernel b t NT COUNT data dzdy
       1 (int_of_size depth) (int_of_size height) (int_of_size width)
       PH PW (int_of_size poolSize) (int_of_size poolStride))
    (schedule (grid (CAFFE_GET_BLOCKS COUNT) NT)) dzdx) as (out & Hrun & Hlen & HJ).
  - split; [reflexivity | exact H0].
  - intros done b t m Hin [Hm HJ].
    apply (Permutation_in _ (Hschedule _)) in Hin.
    assert (Hm' : Z.of_nat (length m) = width * height * depth) by lia.
    destruct (maxPoolingBackward_gpu_kernel_step b t m Hin Hm')
      as (m' & -> & [[Hge ->] | [Hlt (i & Hplane & Hi & ->)]]).
    + exists m. split; [reflexivity|]. split; [exact Hm | apply Hidle; assumption].
    + eexists. split; [reflexivity|].
      split; [rewrite length_add_at; exact Hm | apply Hadd; assumption].
  - exists out. repeat split; assumption.
Qed.

(** The parallel backward pass writes into the first plane of [dzdx]
    only: the kernel offsets [bottom_data] by the channel, not
    [bottom_diff]. *)
Lemma maxPoolingBackward_gpu_first_plane (dzdx : list T) :
  Z.of_nat (length dzdx) = width * height * depth ->
  exists out,
    maxPoolingBackward_gpu dzdx data dzdy width height depth poolSize poolStride = Some out /\
    length out = length dzdx /\
    forall k, width * height <= k -> peek out k = peek dzdx k.
Proof using Hgeo Hint Hdata Hdzdy Hthreads Hlaunch Hschedule.
  clear - Hgeo Hint Hdata Hdzdy Hthreads Hlaunch Hschedule.
  intros Hdzdx.
  destruct (maxPoolingBackward_gpu_runs
    (fun _ mem => forall k, width * height <= k -> peek mem k = peek dzdx k)
    dzdx Hdzdx) as (out & Hrun & Hlen & Hout).
  - reflexivity.
  - intros done b t mem _ _ Hmem. exact Hmem.
  - intros done b t mem i _ _ _ Hplane _ Hmem k Hk.
    rewrite peek_add_at_other by lia. now apply Hmem.
  - exists out. repeat split; assumption.
Qed.

Section ParallelTotal.

Variable zero : T.
Hypothesis add_comm : forall x y : T, s_add x y = s_add y x.
Hypothesis add_assoc : forall x y z : T, s_add x (s_add y z) = s_add (s_add x y) z.
Hypothesis add_zero : forall x : T, s_add zero x = x.

(** The threads of the grid together contribute the sum of [dzdy]. *)
Lemma grid_total :
  total zero
    (map (fun '(b, t) => if t + b * NT <? COUNT then peek dzdy (t + b * NT) else zero)
         (grid (CAFFE_GET_BLOCKS COUNT) NT))
  = total zero dzdy.
Proof using Hgeo Hint Hdzdy Hthreads Hlaunch add_comm add_assoc add_zero.
  clear - Hgeo Hint Hdzdy Hthreads Hlaunch add_comm add_assoc add_zero.
  pose proof blocks_cover as Hcov. pose proof pooled_volume_le as Hc.
  assert (HB : 0 <= CAFFE_GET_BLOCKS COUNT) by nia.
  transitivity (total zero
    (map (fun k => if k <? COUNT then peek dzdy k else zero)
         (map (fun '(b, t) => t + b * NT) (grid (CAFFE_GET_BLOCKS COUNT) NT)))).
  { f_equal. rewrite map_map. apply map_ext. now intros [b t]. }
  rewrite grid_flat by lia.
  rewrite (range_app 0 COUNT (CAFFE_GET_BLOCKS COUNT * NT)) by lia.
  rewrite map_app, (total_app zero) by assumption.
  rewrite (map_ext_in _ (peek dzdy) (range 0 COUNT)).
  2:{ intros k Hk. apply in_range in Hk. destruct (Z.ltb_spec k COUNT); [reflexivity | lia]. }
  rewrite (map_ext_in _ (fun _ => zero) (range COUNT _)).
  2:{ intros k Hk. apply in_range in Hk. destruct (Z.ltb_spec k COUNT); [lia | reflexivity]. }
  rewrite (total_zeros zero) by assumption.
  rewrite <- Hdzdy, map_peek_range.
  now rewrite add_comm, add_zero.
Qed.

(** The parallel backward pass adds the sum of [dzdy] to the sum of
    [dzdx]. *)
Lemma maxPoolingBackward_gpu_total (dzdx : list T) :
  Z.of_nat (length dzdx) = width * height * depth ->
  exists out,
    maxPoolingBackward_gpu dzdx data dzdy width height depth poolSize poolStride = Some out /\
    length out = length dzdx /\
    total zero out = s_add (total zero dzdx) (total zero dzdy).
Proof using Hgeo Hint Hdata Hdzdy Hthreads Hlaunch Hschedule add_comm add_assoc add_zero.
  clear - Hgeo Hint Hdata Hdzdy Hthreads Hlaunch Hschedule add_comm add_assoc add_zero.
  intros Hdzdx.
  set (contrib := fun '(b, t) =>
         if t + b * NT <? COUNT then peek dzdy (t + b * NT) else zero).
  destruct (maxPoolingBackward_gpu_runs
    (fun done mem => total zero mem = s_add (total zero dzdx) (total zero (map contrib done)))
    dzdx Hdzdx) as (out & Hrun & Hlen & Htot).
  - cbn [map total fold_right]. now rewrite (add_comm _ zero), add_zero.
  - intros done b t mem Hin Hge ->.
    rewrite map_app. cbn [map]. rewrite (total_snoc zero) by assumption.
    replace (contrib (b, t)) with zero
      by (unfold contrib; destruct (Z.ltb_spec (t + b * NT) COUNT); [lia | reflexivity]).
    rewrite (add_comm _ zero), add_zero. reflexivity.
  - intros done b t mem i Hin Hlt Hmem _ Hi Htot.
    rewrite total_add_at by (try assumption; lia).
    rewrite Htot, map_app. cbn [map]. rewrite (total_snoc zero) by assumption.
    replace (contrib (b, t)) with (peek dzdy (t + b * NT))
      by (unfold contrib; destruct (Z.ltb_spec (t + b * NT) COUNT); [reflexivity | lia]).
    rewrite add_assoc. reflexivity.
  - exists out. repeat split; [exact Hrun | exact Hlen |].
    rewrite Htot. f_equal.
    rewrite (total_perm zero add_comm add_assoc _ _
               (Permutation_map contrib (Hschedule (grid (CAFFE_GET_BLOCKS COUNT) NT)))).
    apply grid_total.
Qed.

End ParallelTotal.

(* ----------------------------------------------------------------- *)
(** *** The sequential forward pass *)

(** One output cell: the running maximum of the window, started from what
    the cell holds. *)
Lemma maxPooling_cpu_cell_eq c ph pw (mem : list T) :
  0 <= c < depth -> 0 <= ph < PH -> 0 <= pw < PW ->
  Z.of_nat (length mem) = COUNT ->
  maxPooling_cpu_cell data width height poolSize poolStride PW
    (c * (width * height)) (c * (PW * PH)) ph pw mem
  = Some (update mem (Z.to_nat (volume_index PW PH c ph pw))
            (window_max_from data width height poolSize poolStride c ph pw
               (peek mem (volume_index PW PH c ph pw)))).
Proof using Hgeo Hint Hdata.
  clear - Hgeo Hint Hdata.
  intros Hc Hph Hpw Hmem.
  pose proof (window_rows ph Hph) as Hrows. pose proof (window_columns pw Hpw) as Hcols.
  unfold maxPooling_cpu_cell, window_max_from.
  rewrite (hstart_cpu ph Hph), (wstart_cpu pw Hpw), (hend_cpu ph Hph), (wend_cpu pw Hpw).
  rewrite !Z.min_l by lia.
  rewrite pooled_plane_index by assumption. rewrite volume_index_plane.
  pose proof (pooled_index_bounds c ph pw Hc Hph Hpw) as Hk.
  set (k := volume_index PW PH c ph pw) in *.
  match goal with
  | |- context [for_ ?a ?b' (fun h m => for_ ?c' ?d (@?body h) m) ?s0] =>
      destruct (for_window_fold_inv (fun m : list T => length m = length mem)
                  a b' c' d body
                  (fun m q => update m (Z.to_nat k)
                     ((fun best '(h, w) =>
                         s_max best (peek data (volume_index width height c h w)))
                        (peek m k) q))
                  s0) as [-> _]
  end.
  - reflexivity.
  - intros h w m Hh Hw Hm. cbv beta.
    rewrite load_peek by lia.
    rewrite plane_index_size by lia. rewrite volume_index_plane.
    rewrite load_peek by (rewrite Hdata; apply volume_index_bounds; lia).
    rewrite store_Some by lia.
    split; [reflexivity | now rewrite length_update].
  - f_equal.
    apply (fold_left_update_cell
             (fun best '(h, w) => s_max best (peek data (volume_index width height c h w)))
             k).
    lia.
Qed.

(** Every cell of the pooled volume of the sequential forward pass is the
    running maximum of its window started from what the cell held on
    entry. *)
Lemma maxPooling_cpu_values (pooled : list T) :
  Z.of_nat (length pooled) = COUNT ->
  exists out,
    maxPooling_cpu pooled data width height depth poolSize poolStride = Some out /\
    length out = length pooled /\
    forall k, 0 <= k < COUNT ->
      peek out k
      = pooled_value data width height poolSize poolStride (peek pooled k) k.
Proof using Hgeo Hint Hdata.
  clear - Hgeo Hint Hdata.
  intros Hpooled. pose proof pooled_extents as [HPW HPH].
  destruct Hgeo as (? & ? & ? & ? & Hdepth).
  unfold maxPooling_cpu.
  rewrite pooledWidth_eq, pooledHeight_eq, plane_size_eq, pooled_plane_size_eq.
  set (Inv := fun K (mem : list T) =>
    length mem = length pooled /\
    forall k, 0 <= k < COUNT ->
      (k < K -> peek mem k
                = pooled_value data width height poolSize poolStride (peek pooled k) k) /\
      (K <= k -> peek mem k = peek pooled k)).
  match goal with
  | |- context [for_ 0 depth ?body ?s0] =>
      destruct (for_inv
        (fun c '(mem, p, q) =>
           p = c * (width * height) /\ q = c * (PW * PH) /\ Inv (c * (PW * PH)) mem)
        0 depth body s0) as ([[mem p] q] & -> & (_ & _ & Hlen & Hval))
  end.
  - exact Hdepth.
  - split; [lia|]. split; [lia|]. split; [reflexivity|].
    intros k Hk. split; [lia | reflexivity].
  - intros c [[mem p] q] Hc (-> & -> & HInv).
    destruct (for_inv (fun ph mem0 => Inv (c * (PW * PH) + ph * PW) mem0)
      0 PH
      (fun ph mem0 =>
         for_ 0 PW (fun pw mem1 =>
           maxPooling_cpu_cell data width height poolSize poolStride PW
             (c * (width * height)) (c * (PW * PH)) ph pw mem1) mem0)
      mem) as (mem' & Hrun & HInv').
    + lia.
    + now rewrite Z.add_0_r.
    + intros ph mem0 Hph HInv0.
      replace (c * (PW * PH) + (ph + 1) * PW) with (c * (PW * PH) + ph * PW + PW) by ring.
      apply (for_inv (fun pw mem1 => Inv (c * (PW * PH) + ph * PW + pw) mem1));
        [lia | now rewrite Z.add_0_r |].
      intros pw mem1 Hpw [Hlen1 Hval1].
      replace (c * (PW * PH) + ph * PW + (pw + 1)) with (volume_index PW PH c ph pw + 1)
        by (unfold volume_index; ring).
      replace (c * (PW * PH) + ph * PW + pw) with (volume_index PW PH c ph pw) in Hval1
        by (unfold volume_index; ring).
      pose proof (pooled_index_bounds c ph pw Hc Hph Hpw) as Hk.
      rewrite (maxPooling_cpu_cell_eq c ph pw mem1 Hc Hph Hpw) by lia.
      eexists. split; [reflexivity|]. split; [now rewrite length_update|].
      intros k Hkr. split; intros Hcmp.
      * destruct (Z.eq_dec k (volume_index PW PH c ph pw)) as [-> | Hne].
        -- rewrite peek_update_same by lia.
           rewrite (proj2 (Hval1 _ Hk)) by lia.
           unfold pooled_value.
           destruct (decode_volume_index c ph pw Hc Hph Hpw) as (-> & -> & ->).
           reflexivity.
        -- rewrite peek_update_other by lia. apply Hval1; lia.
      * rewrite peek_update_other by lia. apply Hval1; lia.
    + rewrite Hrun. eexists. split; [reflexivity|]. cbv beta iota.
      split; [ring|]. split; [ring|].
      replace ((c + 1) * (PW * PH)) with (c * (PW * PH) + PH * PW) by ring.
      exact HInv'.
  - exists mem. split; [reflexivity|]. split; [exact Hlen|].
    intros k Hk. apply Hval; lia.
Qed.

Lemma maxPooling_cpu_runs (pooled : list T) :
  Z.of_nat (length pooled) = COUNT ->
  exists out,
    maxPooling_cpu pooled data width height depth poolSize poolStride = Some out /\
    length out = length pooled.
Proof using Hgeo Hint Hdata.
  clear - Hgeo Hint Hdata.
  intros Hpooled.
  destruct (maxPooling_cpu_values pooled Hpooled) as (out & Hrun & Hlen & _).
  exists out. now split.
Qed.

(* ----------------------------------------------------------------- *)
(** *** The exact effect of the parallel backward pass *)

(** The thread of flattened index [k] adds at 0 or inside the window of
    its cell, relative to the first plane. *)
Lemma backward_gpu_target_window k :
  0 <= k < COUNT ->
  let ph := (k / PW) mod PH in
  let pw := k mod PW in
  backward_gpu_target data width height poolSize poolStride k = 0 \/
  exists h w,
    ph * poolStride <= h < ph * poolStride + poolSize /\
    pw * poolStride <= w < pw * poolStride + poolSize /\
    backward_gpu_target data width height poolSize poolStride k = h * width + w.
Proof using Hgeo Hint.
  clear - Hgeo Hint.
  intros Hk. cbv zeta.
  destruct (decode_index k Hk) as (Hpw & Hph & _).
  destruct (decode_index_closed k Hk) as (Epw & Eph & _).
  rewrite Epw in Hpw. rewrite Eph in Hph.
  pose proof (window_rows _ Hph) as Hrows. pose proof (window_columns _ Hpw) as Hcols.
  unfold backward_gpu_target. rewrite !Z.min_l by lia.
  match goal with
  | |- context [scan_from_seed ?val ?idx ?cells] =>
      destruct (scan_from_seed_index val idx cells) as [H0 | ([h w] & Hq & Hsnd)]
  end.
  - now left.
  - right. exists h, w. apply in_window_cells in Hq. tauto.
Qed.

Lemma backward_gpu_target_bounds k :
  0 <= k < COUNT ->
  0 <= backward_gpu_target data width height poolSize poolStride k < width * height.
Proof using Hgeo Hint.
  clear - Hgeo Hint.
  intros Hk. pose proof extents_int as [? ?].
  destruct (decode_index k Hk) as (Hpw & Hph & _).
  destruct (decode_index_closed k Hk) as (Epw & Eph & _).
  rewrite Epw in Hpw. rewrite Eph in Hph.
  pose proof (window_rows _ Hph) as Hrows. pose proof (window_columns _ Hpw) as Hcols.
  destruct (backward_gpu_target_window k Hk) as [-> | (h & w & Hh & Hw & ->)]; nia.
Qed.

Lemma length_backward_gpu_step (mem : list T) k :
  length (backward_gpu_step data dzdy width height depth poolSize poolStride mem k)
  = length mem.
Proof using Type.
  unfold backward_gpu_step. destruct (k <? _); [apply length_add_at | reflexivity].
Qed.

Lemma maxPoolingBackward_gpu_kernel_exact b t (mem : list T) :
  In (b, t) (grid (CAFFE_GET_BLOCKS COUNT) NT) ->
  Z.of_nat (length mem) = width * height * depth ->
  maxPoolingBackward_gpu_kernel b t NT COUNT data dzdy
    1 (int_of_size depth) (int_of_size height) (int_of_size width)
    PH PW (int_of_size poolSize) (int_of_size poolStride) mem
  = Some (backward_gpu_step data dzdy width height depth poolSize poolStride mem
            (t + b * NT)).
Proof using Hgeo Hint Hdata Hdzdy Hthreads Hlaunch.
  clear - Hgeo Hint Hdata Hdzdy Hthreads Hlaunch.
  intros Hin Hmem. destruct (thread_index b t Hin) as [Hidx Hrange].
  unfold maxPoolingBackward_gpu_kernel, backward_gpu_step. rewrite Hidx.
  destruct (Z.ltb_spec (t + b * NT) COUNT) as [Hlt | Hge]; [|reflexivity].
  assert (Hwork : 0 <= t + b * NT < COUNT) by lia.
  pose proof (backward_gpu_target_bounds _ Hwork) as Htarget.
  unfold backward_gpu_target in *.
  destruct (decode_index (t + b * NT) Hwork) as (Hpw & Hph & Hc & Hn & Hvol).
  destruct (decode_index_closed (t + b * NT) Hwork) as (Epw & Eph & Ec).
  rewrite (int_of_size_id depth)
    by (destruct Hgeo as (_ & _ & _ & _ & ?); pose proof depth_int; lia).
  rewrite Hn. clear Hn.
  rewrite <- Epw, <- Eph, <- Ec in *.
  set (pw := int_mod (t + b * NT) PW) in *.
  set (ph := int_mod (int_div (t + b * NT) PW) PH) in *.
  set (c := int_mod (int_div (int_div (t + b * NT) PW) PH) depth) in *.
  rewrite (hstart_gpu ph Hph), (wstart_gpu pw Hpw), (hend_gpu ph Hph), (wend_gpu pw Hpw).
  rewrite (channel_offset_gpu c Hc).
  pose proof (window_rows ph Hph) as Hrows. pose proof (window_columns pw Hpw) as Hcols.
  rewrite !Z.min_l in * by lia.
  match goal with
  | |- context [for_ ?a ?b' (fun h best => for_ ?c' ?d (@?body h) best) ?s0] =>
      rewrite (for_window_fold a b' c' d body
                 (fun (best : T * Z) q =>
                    if s_gt ((fun '(h, w) => peek data (volume_index width height c h w)) q)
                            (fst best)
                    then ((fun '(h, w) => peek data (volume_index width height c h w)) q,
                          (fun '(h, w) => h * width + w) q)
                    else best) s0)
  end.
  2:{ intros h w [bv bi] Hh Hw. cbv beta.
      rewrite plane_index_gpu by lia. rewrite volume_index_plane.
      rewrite load_peek by (rewrite Hdata; apply volume_index_bounds; lia).
      cbn [fst]. destruct (s_gt _ bv); reflexivity. }
  fold (scan_from_seed (fun '(h, w) => peek data (volume_index width height c h w))
                       (fun '(h, w) => h * width + w)
                       (window_cells (ph * poolStride) (ph * poolStride + poolSize)
                                     (pw * poolStride) (pw * poolStride + poolSize))).
  destruct (scan_from_seed _ _ _) as [bv bi]. cbn [snd] in *.
  rewrite load_peek by (rewrite Hdzdy; lia).
  apply atomicAdd_add_at. rewrite Hmem. destruct Hint as [? ?]. nia.
Qed.

(** The parallel backward pass is the effects of the threads, one after
    the other in the order of the scheduler. *)
Lemma maxPoolingBackward_gpu_exact (dzdx : list T) :
  Z.of_nat (length dzdx) = width * height * depth ->
  maxPoolingBackward_gpu dzdx data dzdy width height depth poolSize poolStride
  = Some (fold_left (backward_gpu_step data dzdy width height depth poolSize poolStride)
            (map (fun '(b, t) => t + b * NT)
                 (schedule (grid (CAFFE_GET_BLOCKS COUNT) NT)))
            dzdx).
Proof using Hgeo Hint Hdata Hdzdy Hthreads Hlaunch Hschedule.
  clear - Hgeo Hint Hdata Hdzdy Hthreads Hlaunch Hschedule.
  intros Hdzdx. unfold maxPoolingBackward_gpu, launch.
  rewrite count_eq, pooledWidth_eq, pooledHeight_eq.
  set (flat := fun '(b, t) => t + b * NT).
  destruct (run_threads_inv
    (fun done (m : list T) =>
       length m = length dzdx /\
       m = fold_left (backward_gpu_step data dzdy width height depth poolSize poolStride)
             (map flat done) dzdx)
    (fun b t => maxPoolingBackward_gpu_kernel b t NT COUNT data dzdy
       1 (int_of_size depth) (int_of_size height) (int_of_size width)
       PH PW (int_of_size poolSize) (int_of_size poolStride))
    (schedule (grid (CAFFE_GET_BLOCKS COUNT) NT)) dzdx) as (out & Hrun & _ & Hout).
  - split; reflexivity.
  - intros done b t m Hin [Hlen Hm].
    apply (Permutation_in _ (Hschedule _)) in Hin.
    rewrite (maxPoolingBackward_gpu_kernel_exact b t m Hin) by lia.
    eexists. split; [reflexivity|]. split.
    + rewrite length_backward_gpu_step. exact Hlen.
    + rewrite map_app, fold_left_app. cbn [map fold_left]. rewrite <- Hm. reflexivity.
  - transitivity (Some out); [exact Hrun | f_equal; exact Hout].
Qed.

(** Where the threads that have work commute, they can be taken in the
    order of their indices, and the idle ones left out. *)
Lemma maxPoolingBackward_gpu_in_index_order_when (dzdx : list T) :
  (forall mem j k, 0 <= j < COUNT -> 0 <= k < COUNT ->
     backward_gpu_step data dzdy width height depth poolSize poolStride
       (backward_gpu_step data dzdy width height depth poolSize poolStride mem j) k
     = backward_gpu_step data dzdy width height depth poolSize poolStride
         (backward_gpu_step data dzdy width height depth poolSize poolStride mem k) j) ->
  Z.of_nat (length dzdx) = width * height * depth ->
  maxPoolingBackward_gpu dzdx data dzdy width height depth poolSize poolStride
  = Some (fold_left (backward_gpu_step data dzdy width height depth poolSize poolStride)
            (range 0 COUNT) dzdx).
Proof using Hgeo Hint Hdata Hdzdy Hthreads Hlaunch Hschedule.
  clear - Hgeo Hint Hdata Hdzdy Hthreads Hlaunch Hschedule.
  intros Hcomm Hdzdx.
  rewrite (maxPoolingBackward_gpu_exact dzdx Hdzdx). f_equal.
  pose proof blocks_cover as Hcover. pose proof pooled_volume_le as Hvol.
  assert (Hblocks : 0 <= CAFFE_GET_BLOCKS COUNT) by nia.
  assert (Hflat : map (fun '(b, t) => t + b * NT) (grid (CAFFE_GET_BLOCKS COUNT) NT)
                  = range 0 (CAFFE_GET_BLOCKS COUNT * NT)) by (apply grid_flat; lia).
  rewrite <- (fold_left_perm _ (range 0 (CAFFE_GET_BLOCKS COUNT * NT))
                (map (fun '(b, t) => t + b * NT)
                     (schedule (grid (CAFFE_GET_BLOCKS COUNT) NT)))).
  - rewrite (range_app 0 COUNT) by lia.
    rewrite fold_left_app. apply fold_left_idle.
    intros s k Hk. apply in_range in Hk. unfold backward_gpu_step.
    destruct (Z.ltb_spec k COUNT); [lia | reflexivity].
  - intros s j k Hj Hk. apply in_range in Hj, Hk.
    destruct (Z.ltb_spec j COUNT) as [Hjc | Hjc].
    + destruct (Z.ltb_spec k COUNT) as [Hkc | Hkc]; [apply Hcomm; lia|].
      unfold backward_gpu_step at 1 4.
      destruct (Z.ltb_spec k COUNT); [lia | reflexivity].
    + unfold backward_gpu_step at 2 3.
      destruct (Z.ltb_spec j COUNT); [lia | reflexivity].
  - rewrite <- Hflat. apply Permutation_map, Permutation_sym, Hschedule.
Qed.

(** With an addition that commutes, the threads can be taken in the
    order of their indices, and the idle ones left out. *)
Lemma maxPoolingBackward_gpu_in_index_order (dzdx : list T) :
  (forall x y : T, s_add x y = s_add y x) ->
  (forall x y z : T, s_add x (s_add y z) = s_add (s_add x y) z) ->
  Z.of_nat (length dzdx) = width * height * depth ->
  maxPoolingBackward_gpu dzdx data dzdy width height depth poolSize poolStride
  = Some (fold_left (backward_gpu_step data dzdy width height depth poolSize poolStride)
            (range 0 COUNT) dzdx).
Proof using Hgeo Hint Hdata Hdzdy Hthreads Hlaunch Hschedule.
  clear - Hgeo Hint Hdata Hdzdy Hthreads Hlaunch Hschedule.
  intros Hcomm Hassoc. apply maxPoolingBackward_gpu_in_index_order_when.
  intros mem j k _ _. now apply backward_gpu_step_comm.
Qed.

(** Where every element of [data] exceeds the seed, the thread of an
    output cell chooses the cell that the sequential scan chooses, and
    adds at its offset inside a plane. *)
Lemma backward_gpu_step_argmax c ph pw :
  (forall x : T, In x data -> s_lt x x = false) ->
  (forall i, 0 <= i < width * height * depth -> s_lt neg_FLT_MAX (peek data i) = true) ->
  0 <= c < depth -> 0 <= ph < PH -> 0 <= pw < PW ->
  exists h w,
    scan_argmax (fun '(h, w) => peek data (volume_index width height c h w))
      (window_cells (ph * poolStride) (ph * poolStride + poolSize)
                    (pw * poolStride) (pw * poolStride + poolSize)) = Some (h, w) /\
    (ph * poolStride <= h < ph * poolStride + poolSize /\ 0 <= h < height) /\
    (pw * poolStride <= w < pw * poolStride + poolSize /\ 0 <= w < width) /\
    forall mem : list T,
      backward_gpu_step data dzdy width height depth poolSize poolStride mem
        (volume_index PW PH c ph pw)
      = add_at mem (h * width + w) (peek dzdy (volume_index PW PH c ph pw)).
Proof using Hgeo Hint Hdata.
  clear - Hgeo Hint Hdata.
  intros Hirr Hseed Hc Hph Hpw.
  pose proof (pooled_index_bounds c ph pw Hc Hph Hpw) as Hk.
  destruct (decode_volume_index c ph pw Hc Hph Hpw) as (Ec & Eph & Epw).
  pose proof (window_rows ph Hph) as Hrows. pose proof (window_columns pw Hpw) as Hcols.
  destruct Hgeo as (Hps & _).
  destruct (window_cells_cons (ph * poolStride) (ph * poolStride + poolSize)
              (pw * poolStride) (pw * poolStride + poolSize)) as (rest & Hcells);
    [lia | lia |].
  destruct (scan_from_seed_argmax
              (fun '(h, w) => peek data (volume_index width height c h w))
              (fun '(h, w) => h * width + w)
              (ph * poolStride, pw * poolStride) rest) as ([h w] & Hscan & Hseeded).
  { apply Hirr, peek_In. rewrite Hdata. apply volume_index_bounds; lia. }
  { apply Hseed. apply volume_index_bounds; lia. }
  pose proof (scan_argmax_in _ _ _ Hscan) as Hin.
  rewrite <- Hcells in Hin. apply in_window_cells in Hin.
  exists h, w. rewrite Hcells. split; [exact Hscan|].
  split; [lia|]. split; [lia|]. intros mem.
  unfold backward_gpu_step, backward_gpu_target.
  destruct (Z.ltb_spec (volume_index PW PH c ph pw) COUNT) as [_ | Hge]; [|lia].
  rewrite Ec, Eph, Epw. rewrite !Z.min_l by lia.
  rewrite Hcells, Hseeded. reflexivity.
Qed.

(** On one channel, with windows that do not overlap and elements above
    the seed, two threads add at two elements: they commute whatever the
    addition. *)
Lemma backward_gpu_step_comm_apart (mem : list T) j k :
  depth = 1 -> poolSize <= poolStride ->
  (forall x : T, In x data -> s_lt x x = false) ->
  (forall i, 0 <= i < width * height * depth -> s_lt neg_FLT_MAX (peek data i) = true) ->
  0 <= j < COUNT -> 0 <= k < COUNT ->
  backward_gpu_step data dzdy width height depth poolSize poolStride
    (backward_gpu_step data dzdy width height depth poolSize poolStride mem j) k
  = backward_gpu_step data dzdy width height depth poolSize poolStride
      (backward_gpu_step data dzdy width height depth poolSize poolStride mem k) j.
Proof using Hgeo Hint Hdata.
  clear - Hgeo Hint Hdata.
  intros Hdepth Hapart Hirr Hseed Hj Hk.
  destruct (Z.eq_dec j k) as [-> | Hne]; [reflexivity|].
  destruct (decode_index j Hj) as (Hpwj & Hphj & Hcj & _ & Ej).
  destruct (decode_index k Hk) as (Hpwk & Hphk & Hck & _ & Ek).
  set (pwj := int_mod j PW) in *.
  set (phj := int_mod (int_div j PW) PH) in *.
  set (cj := int_mod (int_div (int_div j PW) PH) depth) in *.
  set (pwk := int_mod k PW) in *.
  set (phk := int_mod (int_div k PW) PH) in *.
  set (ck := int_mod (int_div (int_div k PW) PH) depth) in *.
  assert (Ecj : cj = 0) by lia. assert (Eck : ck = 0) by lia.
  destruct (backward_gpu_step_argmax cj phj pwj Hirr Hseed Hcj Hphj Hpwj)
    as (hj & wj & _ & Hhj & Hwj & Hstepj).
  destruct (backward_gpu_step_argmax ck phk pwk Hirr Hseed Hck Hphk Hpwk)
    as (hk & wk & _ & Hhk & Hwk & Hstepk).
  rewrite <- Ej in Hstepj. rewrite <- Ek in Hstepk.
  rewrite !Hstepj, !Hstepk.
  destruct Hgeo as (Hps & Hst & _).
  apply add_at_comm_distinct; [nia | nia |].
  intros E.
  assert (Eh : hj = hk).
  { destruct (Z.lt_total hj hk) as [Hlt | [Heq | Hgt]];
      [exfalso | exact Heq | exfalso]; nia. }
  assert (Ew : wj = wk) by nia.
  assert (Eph : phj = phk).
  { destruct (Z.lt_total phj phk) as [Hlt | [Heq | Hgt]];
      [exfalso | exact Heq | exfalso]; nia. }
  assert (Epw : pwj = pwk).
  { destruct (Z.lt_total pwj pwk) as [Hlt | [Heq | Hgt]];
      [exfalso | exact Heq | exfalso]; nia. }
  apply Hne. rewrite Ej, Ek, Ecj, Eck, Eph, Epw. reflexivity.
Qed.

(* ----------------------------------------------------------------- *)
(** *** Where the sequential backward pass writes *)

Lemma backward_cell_scan_window c ph pw (mem : list T) :
  0 <= c < depth -> 0 <= ph < PH -> 0 <= pw < PW ->
  exists h w,
    (ph * poolStride <= h < ph * poolStride + poolSize /\ h < height) /\
    (pw * poolStride <= w < pw * poolStride + poolSize /\ w < width) /\
    backward_cell scan_argmax data dzdy width height poolSize poolStride c ph pw mem
    = add_at mem (volume_index width height c h w)
             (peek dzdy (volume_index PW PH c ph pw)).
Proof using Hgeo Hint.
  clear - Hgeo Hint.
  intros Hc Hph Hpw. unfold backward_cell.
  pose proof (window_rows ph Hph). pose proof (window_columns pw Hpw).
  rewrite !Z.min_l by lia.
  destruct (scan_argmax_window
              (fun '(h, w) => peek data (volume_index width height c h w)) ph pw Hph Hpw)
    as (h & w & -> & Hh & Hw).
  exists h, w. repeat split; tauto || lia.
Qed.

(** An element that no window of its plane covers keeps its value. *)
Lemma backward_route_uncovered (dzdx : list T) c h w :
  0 <= c < depth -> 0 <= h < height -> 0 <= w < width ->
  (forall ph pw, 0 <= ph < PH -> 0 <= pw < PW ->
     ~ (ph * poolStride <= h < ph * poolStride + poolSize /\
        pw * poolStride <= w < pw * poolStride + poolSize)) ->
  peek (backward_route scan_argmax dzdx data dzdy width height depth poolSize poolStride)
       (volume_index width height c h w)
  = peek dzdx (volume_index width height c h w).
Proof using Hgeo Hint.
  clear - Hgeo Hint.
  intros Hc Hh Hw Hout. destruct Hgeo as (? & ? & ? & ? & Hdepth).
  pose proof pooled_extents as [HPW HPH].
  unfold backward_route.
  set (I := fun (_ : Z) (mem : list T) =>
    peek mem (volume_index width height c h w)
    = peek dzdx (volume_index width height c h w)).
  apply (fold_range_inv I); [exact Hdepth | reflexivity |].
  intros c' mem Hc' Hmem.
  apply (fold_range_inv I); [lia | exact Hmem |].
  intros ph mem1 Hph Hmem1.
  apply (fold_range_inv I); [lia | exact Hmem1 |].
  intros pw mem2 Hpw Hmem2.
  destruct (backward_cell_scan_window c' ph pw mem2 Hc' Hph Hpw)
    as (h' & w' & Hh' & Hw' & ->).
  pose proof (window_rows ph Hph). pose proof (window_columns pw Hpw).
  unfold I. rewrite peek_add_at_other; [exact Hmem2 | | |].
  - assert (0 <= volume_index width height c' h' w' < width * height * depth)
      by (apply volume_index_bounds; lia). lia.
  - assert (0 <= volume_index width height c h w < width * height * depth)
      by (apply volume_index_bounds; lia). lia.
  - intros E. apply volume_index_inj in E; [| lia | lia | lia | lia].
    destruct E as (_ & -> & ->). apply (Hout ph pw Hph Hpw). lia.
Qed.

End Volume.

(* ================================================================= *)
(** ** The backward operators add onto the buffer they are given *)

Section Accumulate.

Context {T : Type} {ST : Scalar T}.

Hypothesis add_assoc : forall x y z : T, s_add x (s_add y z) = s_add (s_add x y) z.

Lemma add_at_volume_add (a b : list T) i g :
  length a = length b -> add_at (volume_add a b) i g = volume_add a (add_at b i g).
Proof using add_assoc.
  unfold add_at, peek, volume_add. generalize (Z.to_nat i) as n. clear i.
  revert b. induction a as [|x a IH]; intros [|y b] n Hlen; cbn in Hlen; try discriminate.
  - now destruct n.
  - destruct n as [|n]; cbn [combine map update nth].
    + now rewrite add_assoc.
    + f_equal. apply IH. lia.
Qed.

Lemma fold_left_keeps_length {A : Type} (f : list T -> A -> list T) (l : list A) m :
  (forall m x, length (f m x) = length m) -> length (fold_left f l m) = length m.
Proof using Type.
  intros Hlen. revert m. induction l as [|x l IH]; intros m; cbn [fold_left];
    [reflexivity|]. now rewrite IH, Hlen.
Qed.

Lemma fold_left_volume_add {A : Type} (f : list T -> A -> list T) (l : list A)
    (a b : list T) :
  (forall m x, length (f m x) = length m) ->
  (forall m x, length a = length m -> f (volume_add a m) x = volume_add a (f m x)) ->
  length a = length b ->
  fold_left f l (volume_add a b) = volume_add a (fold_left f l b).
Proof using Type.
  intros Hlen Hdist. revert b. induction l as [|x l IH]; intros b Hab; cbn [fold_left];
    [reflexivity|].
  rewrite Hdist by exact Hab. apply IH. now rewrite Hlen.
Qed.

Lemma backward_cell_volume_add select (data dzdy : list T)
    width height poolSize poolStride c ph pw (a m : list T) :
  length a = length m ->
  backward_cell select data dzdy width height poolSize poolStride c ph pw (volume_add a m)
  = volume_add a
      (backward_cell select data dzdy width height poolSize poolStride c ph pw m).
Proof using add_assoc.
  intros Hlen. unfold backward_cell.
  destruct (select _ _) as [[h w]|]; [now apply add_at_volume_add | reflexivity].
Qed.

Lemma backward_route_volume_add select (a b data dzdy : list T)
    width height depth poolSize poolStride :
  length a = length b ->
  backward_route select (volume_add a b) data dzdy width height depth poolSize poolStride
  = volume_add a
      (backward_route select b data dzdy width height depth poolSize poolStride).
Proof using add_assoc.
  intros Hab. unfold backward_route.
  apply fold_left_volume_add; [| | exact Hab].
  - intros m c. apply fold_left_keeps_length. intros m' ph.
    apply fold_left_keeps_length. intros m'' pw. apply length_backward_cell.
  - intros m c Hm. apply fold_left_volume_add; [| | exact Hm].
    + intros m' ph. apply fold_left_keeps_length. intros m'' pw.
      apply length_backward_cell.
    + intros m' ph Hm'. apply fold_left_volume_add; [| | exact Hm'].
      * intros m'' pw. apply length_backward_cell.
      * intros m'' pw Hm''. now apply backward_cell_volume_add.
Qed.

Lemma backward_gpu_step_volume_add (data dzdy : list T)
    width height depth poolSize poolStride (a m : list T) k :
  length a = length m ->
  backward_gpu_step data dzdy width height depth poolSize poolStride (volume_add a m) k
  = volume_add a
      (backward_gpu_step data dzdy width height depth poolSize poolStride m k).
Proof using add_assoc.
  intros Hlen. unfold backward_gpu_step.
  destruct (k <? _); [now apply add_at_volume_add | reflexivity].
Qed.

Variable zero : T.
Hypothesis add_zero_r : forall x : T, s_add x zero = x.

Lemma volume_add_zeros (a : list T) : volume_add a (map (fun _ => zero) a) = a.
Proof using add_zero_r.
  unfold volume_add. induction a as [|x a IH]; cbn [map combine]; [reflexivity|].
  now rewrite add_zero_r, IH.
Qed.

End Accumulate.

(* ================================================================= *)
(** ** The shape of the pooled volume *)

(** C6. For a valid geometry whose volume an [int] can address, the
    expression every one of the four operators evaluates for the pooled
    width, [pooledExtent width poolSize poolStride], is
    [(width - poolSize) / poolStride + 1] with floor division, and the
    same for the height: the four operators agree on the pooled
    dimensions. *)
Theorem pooled_extent_shape (width height depth poolSize poolStride : Z) :
  valid_geometry width height depth poolSize poolStride ->
  int_addressable width height depth ->
  pooledExtent width poolSize poolStride = (width - poolSize) / poolStride + 1 /\
  pooledExtent height poolSize poolStride = (height - poolSize) / poolStride + 1.
Proof.
  intros Hgeo Hint. split.
  - apply (pooledWidth_eq width height depth poolSize poolStride Hgeo Hint).
  - apply (pooledHeight_eq width height depth poolSize poolStride Hgeo Hint).
Qed.

Lemma pooled_extent_shape_witness :
  valid_geometry 5 5 3 2 2 /\ int_addressable 5 5 3 /\
  pooledExtent 5 2 2 = (5 - 2) / 2 + 1 /\
  pooledExtent 5 2 2 = (5 - 2) / 2 + 1.
Proof.
  assert (Hgeo : valid_geometry 5 5 3 2 2) by (unfold valid_geometry; lia).
  assert (Hint : int_addressable 5 5 3) by (unfold int_addressable, INT_MAX; lia).
  split; [exact Hgeo|]. split; [exact Hint|].
  exact (pooled_extent_shape 5 5 3 2 2 Hgeo Hint).
Defined.

(* ================================================================= *)
(** ** Windows and buffer bounds *)

(** C7. For a valid geometry whose volume an [int] can address, the
    clipped window of every output coordinate [(ph, pw)] is not empty and
    lies inside the plane, the four operators compute exactly this window,
    and every load and store of the four operators falls inside the
    buffers the caller supplied: with buffers of the sizes of the volumes
    no operator fails, whatever the order in which the threads of the
    parallel operators run. *)
Theorem windows_inside_accesses_in_bounds {T : Type} {ST : Scalar T} {DV : Device}
    (pooled data dzdx dzdy : list T) (width height depth poolSize poolStride : Z) :
  valid_geometry width height depth poolSize poolStride ->
  int_addressable width height depth ->
  launchable width height depth ->
  fair_schedule ->
  Z.of_nat (length data) = width * height * depth ->
  Z.of_nat (length dzdx) = width * height * depth ->
  Z.of_nat (length pooled) =
    pooled_extent_spec width poolSize poolStride
    * pooled_extent_spec height poolSize poolStride * depth ->
  Z.of_nat (length dzdy) =
    pooled_extent_spec width poolSize poolStride
    * pooled_extent_spec height poolSize poolStride * depth ->
  (forall ph pw,
     0 <= ph < pooled_extent_spec height poolSize poolStride ->
     0 <= pw < pooled_extent_spec width poolSize poolStride ->
     let hstart := ph * poolStride in
     let wstart := pw * poolStride in
     let hend := Z.min (hstart + poolSize) height in
     let wend := Z.min (wstart + poolSize) width in
     (0 <= hstart < hend /\ hend <= height) /\
     (0 <= wstart < wend /\ wend <= width) /\
     (window_start_cpu ph poolStride = hstart /\
      window_end_cpu hstart poolSize height = hend /\
      window_start_cpu pw poolStride = wstart /\
      window_end_cpu wstart poolSize width = wend) /\
     (window_start_gpu ph (int_of_size poolStride) = hstart /\
      window_end_gpu hstart (int_of_size poolSize) (int_of_size height) = hend /\
      window_start_gpu pw (int_of_size poolStride) = wstart /\
      window_end_gpu wstart (int_of_size poolSize) (int_of_size width) = wend)) /\
  (exists out,
     maxPooling_cpu pooled data width height depth poolSize poolStride = Some out) /\
  (exists out,
     maxPooling_gpu pooled data width height depth poolSize poolStride = Some out) /\
  (exists out,
     maxPoolingBackward_cpu dzdx data dzdy width height depth poolSize poolStride
     = Some out) /\
  (exists out,
     maxPoolingBackward_gpu dzdx data dzdy width height depth poolSize poolStride
     = Some out).
Proof.
  intros Hgeo Hint [Hthreads Hlaunch] Hsched Hdata Hdzdx Hpooled Hdzdy.
  split; [|split; [|split; [|split]]].
  - intros ph pw Hph Hpw. cbv zeta.
    pose proof (window_rows _ _ _ _ _ Hgeo Hint ph Hph) as Hrows.
    pose proof (window_columns _ _ _ _ _ Hgeo Hint pw Hpw) as Hcols.
    destruct Hgeo as (Hps & ? & ? & ? & ?).
    rewrite !Z.min_l by lia.
    assert (Hgeo : valid_geometry width height depth poolSize poolStride)
      by (unfold valid_geometry; lia).
    repeat split; try lia.
    + apply (hstart_cpu _ _ _ _ _ Hgeo Hint ph Hph).
    + apply (hend_cpu _ _ _ _ _ Hgeo Hint ph Hph).
    + apply (wstart_cpu _ _ _ _ _ Hgeo Hint pw Hpw).
    + apply (wend_cpu _ _ _ _ _ Hgeo Hint pw Hpw).
    + apply (hstart_gpu _ _ _ _ _ Hgeo Hint ph Hph).
    + apply (hend_gpu _ _ _ _ _ Hgeo Hint ph Hph).
    + apply (wstart_gpu _ _ _ _ _ Hgeo Hint pw Hpw).
    + apply (wend_gpu _ _ _ _ _ Hgeo Hint pw Hpw).
  - destruct (maxPooling_cpu_runs _ _ _ _ _ Hgeo Hint data Hdata pooled Hpooled)
      as (out & Hrun & _). eauto.
  - destruct (maxPooling_gpu_runs _ _ _ _ _ Hgeo Hint data Hdata
                Hthreads Hlaunch Hsched pooled Hpooled) as (out & Hrun & _). eauto.
  - rewrite (maxPoolingBackward_cpu_route _ _ _ _ _ Hgeo Hint data dzdy Hdata Hdzdy
               dzdx Hdzdx). eauto.
  - destruct (maxPoolingBackward_gpu_runs _ _ _ _ _ Hgeo Hint data dzdy Hdata Hdzdy
                Hthreads Hlaunch Hsched (fun _ _ => True) dzdx Hdzdx)
      as (out & Hrun & _); [exact I | intros; exact I | intros; exact I |].
    exists out. exact Hrun.
Qed.

(* ================================================================= *)
(** ** The boundary guard of the kernels *)

(** A thread whose index is not below [nthreads] returns at once. *)
Lemma maxPooling_gpu_kernel_guard {T : Type} {ST : Scalar T}
    blockIdx threadIdx blockDim nthreads (bottom_data : list T)
    num channels height width pooled_height pooled_width ksize stride
    (top_data : list T) :
  nthreads <= int_of_uint (uint_add threadIdx (uint_mul blockIdx blockDim)) ->
  maxPooling_gpu_kernel blockIdx threadIdx blockDim nthreads bottom_data
    num channels height width pooled_height pooled_width ksize stride top_data
  = Some top_data.
Proof.
  intros H. unfold maxPooling_gpu_kernel.
  destruct (Z.ltb_spec (int_of_uint (uint_add threadIdx (uint_mul blockIdx blockDim)))
              nthreads); [lia | reflexivity].
Qed.

Lemma maxPoolingBackward_gpu_kernel_guard {T : Type} {ST : Scalar T}
    blockIdx threadIdx blockDim nthreads (bottom_data top_diff : list T)
    num channels height width pooled_height pooled_width ksize stride
    (bottom_diff : list T) :
  nthreads <= int_of_uint (uint_add threadIdx (uint_mul blockIdx blockDim)) ->
  maxPoolingBackward_gpu_kernel blockIdx threadIdx blockDim nthreads bottom_data top_diff
    num channels height width pooled_height pooled_width ksize stride bottom_diff
  = Some bottom_diff.
Proof.
  intros H. unfold maxPoolingBackward_gpu_kernel.
  destruct (Z.ltb_spec (int_of_uint (uint_add threadIdx (uint_mul blockIdx blockDim)))
              nthreads); [lia | reflexivity].
Qed.

(** C9. In the launches of both parallel operators the kernels receive as
    work count [nthreads] the product [pooledWidth * pooledHeight * depth]
    that the wrapper computes, and a thread whose flattened index is at
    least this count returns with the memory as it was, for whatever
    buffers: also for empty ones, in which every load and every store
    fails, so the thread makes none.  For a valid geometry whose volume an
    [int] can address this count is the number of cells of the pooled
    volume. *)
Theorem work_units_beyond_count_idle {T : Type} {ST : Scalar T}
    (data dzdy mem : list T) (width height depth poolSize poolStride : Z)
    (blockIdx threadIdx blockDim : Z) :
  let pooledWidth := pooledExtent width poolSize poolStride in
  let pooledHeight := pooledExtent height poolSize poolStride in
  let count :=
    int_of_size (size_mul (size_of_int (int_mul pooledWidth pooledHeight)) depth) in
  let index := int_of_uint (uint_add threadIdx (uint_mul blockIdx blockDim)) in
  (count <= index ->
   maxPooling_gpu_kernel blockIdx threadIdx blockDim count data
     1 (int_of_size depth) (int_of_size height) (int_of_size width)
     pooledHeight pooledWidth (int_of_size poolSize) (int_of_size poolStride) mem
   = Some mem /\
   maxPoolingBackward_gpu_kernel blockIdx threadIdx blockDim count data dzdy
     1 (int_of_size depth) (int_of_size height) (int_of_size width)
     pooledHeight pooledWidth (int_of_size poolSize) (int_of_size poolStride) mem
   = Some mem) /\
  (valid_geometry width height depth poolSize poolStride ->
   int_addressable width height depth ->
   count = pooled_extent_spec width poolSize poolStride
           * pooled_extent_spec height poolSize poolStride * depth).
Proof.
  intros pooledWidth pooledHeight count index. split.
  - intros Hidx. split.
    + now apply maxPooling_gpu_kernel_guard.
    + now apply maxPoolingBackward_gpu_kernel_guard.
  - intros Hgeo Hint. apply (count_eq _ _ _ _ _ Hgeo Hint).
Qed.

(* ================================================================= *)
(** ** The backward pass *)

(** C4. For a valid geometry whose volume an [int] can address, with
    addition taken exact (a commutative monoid: the sums are compared up
    to the order of the floating-point additions), a backward call
    increases the sum of [dzdx] by the sum of [dzdy], in the sequential
    operator and, whatever the order in which the threads run, in the
    parallel operator. *)
Theorem backward_conserves_gradient_mass {T : Type} {ST : Scalar T} {DV : Device}
    (zero : T) (dzdx data dzdy : list T) (width height depth poolSize poolStride : Z) :
  (forall x y : T, s_add x y = s_add y x) ->
  (forall x y z : T, s_add x (s_add y z) = s_add (s_add x y) z) ->
  (forall x : T, s_add zero x = x) ->
  valid_geometry width height depth poolSize poolStride ->
  int_addressable width height depth ->
  launchable width height depth ->
  fair_schedule ->
  Z.of_nat (length data) = width * height * depth ->
  Z.of_nat (length dzdx) = width * height * depth ->
  Z.of_nat (length dzdy) =
    pooled_extent_spec width poolSize poolStride
    * pooled_extent_spec height poolSize poolStride * depth ->
  (exists out,
     maxPoolingBackward_cpu dzdx data dzdy width height depth poolSize poolStride
     = Some out /\
     total zero out = s_add (total zero dzdx) (total zero dzdy)) /\
  (exists out,
     maxPoolingBackward_gpu dzdx data dzdy width height depth poolSize poolStride
     = Some out /\
     total zero out = s_add (total zero dzdx) (total zero dzdy)).
Proof.
  intros Hcomm Hassoc Hzero Hgeo Hint [Hthreads Hlaunch] Hsched Hdata Hdzdx Hdzdy.
  split.
  - eexists. split.
    + apply (maxPoolingBackward_cpu_route _ _ _ _ _ Hgeo Hint data dzdy Hdata Hdzdy
               dzdx Hdzdx).
    + apply (backward_route_total _ _ _ _ _ Hgeo Hint data dzdy Hdzdy
               zero Hcomm Hassoc Hzero dzdx Hdzdx).
  - destruct (maxPoolingBackward_gpu_total _ _ _ _ _ Hgeo Hint data dzdy Hdata Hdzdy
                Hthreads Hlaunch Hsched zero Hcomm Hassoc Hzero dzdx Hdzdx)
      as (out & Hrun & _ & Htot).
    exists out. split; assumption.
Qed.

(** C5. For a valid geometry whose volume an [int] can address and a
    [data] whose elements [<] orders (a [float] or [double] volume that
    holds no NaN), the sequential backward operator computes
    [maxPoolingBackward_spec]: cell by cell of the pooled volume it adds
    [dzdy] of the cell to [dzdx] at the first maximal element, in
    row-major scan order, of the window of the cell: the elements scanned
    before it are strictly smaller, no element scanned after it is
    greater. *)
Theorem maxPoolingBackward_cpu_first_argmax {T : Type} {ST : Scalar T}
    (dzdx data dzdy : list T) (width height depth poolSize poolStride : Z) :
  ordered_on (fun x => In x data) ->
  valid_geometry width height depth poolSize poolStride ->
  int_addressable width height depth ->
  Z.of_nat (length data) = width * height * depth ->
  Z.of_nat (length dzdx) = width * height * depth ->
  Z.of_nat (length dzdy) =
    pooled_extent_spec width poolSize poolStride
    * pooled_extent_spec height poolSize poolStride * depth ->
  maxPoolingBackward_cpu dzdx data dzdy width height depth poolSize poolStride
  = Some (maxPoolingBackward_spec dzdx data dzdy width height depth poolSize poolStride) /\
  forall c ph pw,
    0 <= c < depth ->
    0 <= ph < pooled_extent_spec height poolSize poolStride ->
    0 <= pw < pooled_extent_spec width poolSize poolStride ->
    let val := fun '(h, w) => peek data (volume_index width height c h w) in
    let cells :=
      window_cells (ph * poolStride) (Z.min (ph * poolStride + poolSize) height)
                   (pw * poolStride) (Z.min (pw * poolStride + poolSize) width) in
    exists h w,
      first_argmax val cells = Some (h, w) /\
      first_maximal val cells (h, w) /\
      0 <= h < height /\ 0 <= w < width /\
      forall mem,
        backward_cell first_argmax data dzdy width height poolSize poolStride c ph pw mem
        = add_at mem (volume_index width height c h w)
            (peek dzdy (volume_index (pooled_extent_spec width poolSize poolStride)
                                     (pooled_extent_spec height poolSize poolStride)
                                     c ph pw)).
Proof.
  intros Hordered Hgeo Hint Hdata Hdzdx Hdzdy. split.
  - rewrite (maxPoolingBackward_cpu_route _ _ _ _ _ Hgeo Hint data dzdy Hdata Hdzdy
               dzdx Hdzdx).
    f_equal. exact (backward_route_first _ _ _ _ _ Hgeo Hint data dzdy Hdata Hordered dzdx).
  - intros c ph pw Hc Hph Hpw val cells.
    assert (Hdom : forall q, In q cells -> In (val q) data)
      by (intros q Hq;
          exact (window_values_in_data _ _ _ _ _ Hgeo Hint data Hdata c ph pw q
                   Hc Hph Hpw Hq)).
    destruct Hordered as (Hirr & Htrans & Hge).
    pose proof (window_rows _ _ _ _ _ Hgeo Hint ph Hph) as Hrows.
    pose proof (window_columns _ _ _ _ _ Hgeo Hint pw Hpw) as Hcols.
    destruct (scan_argmax_window _ _ _ _ _ Hgeo Hint val ph pw Hph Hpw)
      as (h & w & Hscan & Hh & Hw).
    assert (Hcells : cells = window_cells (ph * poolStride) (ph * poolStride + poolSize)
                                          (pw * poolStride) (pw * poolStride + poolSize)).
    { unfold cells. now rewrite !Z.min_l by lia. }
    rewrite <- Hcells in Hscan.
    assert (Hfirst : first_argmax val cells = Some (h, w))
      by (now rewrite <- (scan_argmax_first val _ Hirr Htrans Hge cells Hdom)).
    exists h, w. split; [exact Hfirst|]. split.
    + now apply (scan_first_maximal val _ Hirr Htrans Hge cells (h, w) Hdom).
    + split; [lia|]. split; [lia|].
      intros mem. unfold backward_cell. fold val. fold cells. now rewrite Hfirst.
Qed.

(* ================================================================= *)
(** ** The theorems on the scenario of the specification *)

(** [<] on floating-point numbers follows their ranks. *)
Lemma SFltb_rank x y :
  x <> S754_nan -> y <> S754_nan ->
  (SFltb x y = true <-> lex_lt (SF_rank x) (SF_rank y)).
Proof.
  intros Hx Hy. unfold SFltb.
  destruct x as [sx | sx | | sx mx ex], y as [sy | sy | | sy my ey];
    try congruence; try destruct sx; try destruct sy; cbn [SFcompare SF_rank lex_lt];
    try (split; [discriminate | lia]); try (split; [reflexivity | lia]);
    try (split; [lia | reflexivity]).
  all: rewrite Pos.compare_cont_spec; cbn [Pos.switch_Eq].
  all: destruct (Z.compare_spec ex ey); [destruct (Pos.compare_spec mx my)| |];
    cbn [CompOpp]; split; try discriminate; try reflexivity; try lia.
Qed.

Lemma SFltb_rank_false x y :
  x <> S754_nan -> y <> S754_nan ->
  (SFltb x y = false <-> ~ lex_lt (SF_rank x) (SF_rank y)).
Proof.
  intros Hx Hy. pose proof (SFltb_rank x y Hx Hy) as H.
  destruct (SFltb x y); split; intros E; try discriminate; try reflexivity.
  - exfalso. apply E, H. reflexivity.
  - intros C. apply H in C. discriminate.
Qed.

(** No floating-point number is below itself, NaN included. *)
Lemma SFltb_irrefl x : SFltb x x = false.
Proof.
  destruct x as [s | s | | s m e]; try reflexivity; try (now destruct s).
  unfold SFltb. cbn [SFcompare]. rewrite Pos.compare_cont_spec, Z.compare_refl,
    Pos.compare_refl. now destruct s.
Qed.

(** [<] is a strict weak order on [float] and [double] numbers that are
    not NaN. *)
Lemma SFltb_ordered (D : spec_float -> Prop) :
  (forall x, D x -> x <> S754_nan) ->
  (forall x, D x -> SFltb x x = false) /\
  (forall x y z, D x -> D y -> D z ->
     SFltb x y = true -> SFltb y z = true -> SFltb x z = true) /\
  (forall x y z, D x -> D y -> D z ->
     SFltb x y = false -> SFltb y z = false -> SFltb x z = false).
Proof.
  intros Hnan. repeat split.
  - intros x Hx. apply SFltb_rank_false; [now apply Hnan | now apply Hnan |].
    destruct (SF_rank x) as [[a1 a2] a3]. cbn [lex_lt]. lia.
  - intros x y z Hx Hy Hz Hxy Hyz.
    apply SFltb_rank in Hxy; [| now apply Hnan | now apply Hnan].
    apply SFltb_rank in Hyz; [| now apply Hnan | now apply Hnan].
    apply SFltb_rank; [now apply Hnan | now apply Hnan |].
    destruct (SF_rank x) as [[a1 a2] a3], (SF_rank y) as [[b1 b2] b3],
      (SF_rank z) as [[c1 c2] c3]. cbn [lex_lt] in *. lia.
  - intros x y z Hx Hy Hz Hxy Hyz.
    apply SFltb_rank_false in Hxy; [| now apply Hnan | now apply Hnan].
    apply SFltb_rank_false in Hyz; [| now apply Hnan | now apply Hnan].
    apply SFltb_rank_false; [now apply Hnan | now apply Hnan |].
    destruct (SF_rank x) as [[a1 a2] a3], (SF_rank y) as [[b1 b2] b3],
      (SF_rank z) as [[c1 c2] c3]. cbn [lex_lt] in *. lia.
Qed.

Lemma float_ordered_on (D : spec_float -> Prop) :
  (forall x, D x -> x <> S754_nan) -> @ordered_on spec_float float_scalar D.
Proof. exact (SFltb_ordered D). Qed.

Lemma double_ordered_on (D : spec_float -> Prop) :
  (forall x, D x -> x <> S754_nan) -> @ordered_on spec_float double_scalar D.
Proof. exact (SFltb_ordered D). Qed.

(** [max] on [float] and [double] numbers that are not NaN. *)
Lemma float_max_on (D : spec_float -> Prop) :
  (forall x, D x -> x <> S754_nan) -> @max_on spec_float float_scalar D.
Proof.
  intros Hnan a b Ha Hb. cbn [s_max s_lt float_scalar]. unfold SFmaxnum.
  destruct a, b; try reflexivity; exfalso;
    (now apply (Hnan _ Ha)) || (now apply (Hnan _ Hb)).
Qed.

Lemma double_max_on (D : spec_float -> Prop) :
  (forall x, D x -> x <> S754_nan) -> @max_on spec_float double_scalar D.
Proof. exact (float_max_on D). Qed.

(** A list of numbers holds no NaN: by evaluation. *)
Ltac no_nan :=
  let x := fresh "x" in
  let Hx := fresh "Hx" in
  let E := fresh "E" in
  intros x Hx E; subst x; vm_compute in Hx;
  repeat match type of Hx with
         | _ \/ _ => destruct Hx as [Hx | Hx]
         end;
  discriminate Hx || contradiction.

Lemma exact_ordered_on (D : Z -> Prop) : @ordered_on Z exact_scalar D.
Proof.
  unfold ordered_on. cbn [s_lt exact_scalar]. repeat split.
  - intros x _. apply Z.ltb_irrefl.
  - intros x y z _ _ _ Hxy Hyz. apply Z.ltb_lt. apply Z.ltb_lt in Hxy, Hyz. lia.
  - intros x y z _ _ _ Hxy Hyz. apply Z.ltb_ge. apply Z.ltb_ge in Hxy, Hyz. lia.
Qed.

Lemma exact_add_comm : forall x y : Z, @s_add Z exact_scalar x y = @s_add Z exact_scalar y x.
Proof. exact Z.add_comm. Qed.

Lemma exact_add_assoc :
  forall x y z : Z,
    @s_add Z exact_scalar x (@s_add Z exact_scalar y z)
    = @s_add Z exact_scalar (@s_add Z exact_scalar x y) z.
Proof. exact Z.add_assoc. Qed.

Lemma exact_add_zero : forall x : Z, @s_add Z exact_scalar 0 x = x.
Proof. exact Z.add_0_l. Qed.

Lemma exact_lt_irrefl : forall x : Z, @s_lt Z exact_scalar x x = false.
Proof. exact Z.ltb_irrefl. Qed.

Lemma exact_lt_trans :
  forall x y z : Z,
    @s_lt Z exact_scalar x y = true -> @s_lt Z exact_scalar y z = true ->
    @s_lt Z exact_scalar x z = true.
Proof. cbn. intros x y z H1 H2. apply Z.ltb_lt in H1, H2. apply Z.ltb_lt. lia. Qed.

Lemma exact_ge_trans :
  forall x y z : Z,
    @s_lt Z exact_scalar x y = false -> @s_lt Z exact_scalar y z = false ->
    @s_lt Z exact_scalar x z = false.
Proof. cbn. intros x y z H1 H2. apply Z.ltb_ge in H1, H2. apply Z.ltb_ge. lia. Qed.

Lemma scenario_geometry : valid_geometry 4 4 1 2 2.
Proof. unfold valid_geometry. lia. Qed.

Lemma scenario_addressable : int_addressable 4 4 1.
Proof. unfold int_addressable, INT_MAX. lia. Qed.

Lemma scenario_launchable : @launchable (in_order 512) 4 4 1.
Proof. unfold launchable, INT_MAX. cbn. lia. Qed.

Lemma in_order_fair n : @fair_schedule (in_order n).
Proof. intros g. apply Permutation_refl. Qed.

Lemma reversed_fair n : @fair_schedule (reversed n).
Proof. intros g. cbn. apply Permutation_sym, Permutation_rev. Qed.

Lemma windows_inside_accesses_in_bounds_witness :
  valid_geometry 4 4 1 2 2 /\
  int_addressable 4 4 1 /\
  (exists out,
     @maxPooling_cpu Z exact_scalar [0; 0; 0; 0] scenario 4 4 1 2 2 = Some out) /\
  (exists out,
     @maxPooling_gpu Z exact_scalar (in_order 512) [0; 0; 0; 0] scenario 4 4 1 2 2
     = Some out) /\
  (exists out,
     @maxPoolingBackward_cpu Z exact_scalar (repeat 0 16) scenario [1; 1; 1; 1] 4 4 1 2 2
     = Some out) /\
  (exists out,
     @maxPoolingBackward_gpu Z exact_scalar (in_order 512)
       (repeat 0 16) scenario [1; 1; 1; 1] 4 4 1 2 2 = Some out).
Proof.
  split; [exact scenario_geometry|]. split; [exact scenario_addressable|].
  apply (@windows_inside_accesses_in_bounds Z exact_scalar (in_order 512)
           [0; 0; 0; 0] scenario (repeat 0 16) [1; 1; 1; 1] 4 4 1 2 2
           scenario_geometry scenario_addressable scenario_launchable
           (in_order_fair 512) eq_refl eq_refl eq_refl eq_refl).
Defined.

Lemma work_units_beyond_count_idle_witness :
  (@maxPooling_gpu_kernel Z exact_scalar 0 4 512 4 scenario 1 1 4 4 2 2 2 2 [0; 0; 0; 0]
   = Some [0; 0; 0; 0] /\
   @maxPoolingBackward_gpu_kernel Z exact_scalar 0 4 512 4 scenario [1; 1; 1; 1]
     1 1 4 4 2 2 2 2 [0; 0; 0; 0]
   = Some [0; 0; 0; 0]) /\
  (@maxPooling_gpu_kernel Z exact_scalar 3 7 512 4 [] 1 1 4 4 2 2 2 2 [] = Some [] /\
   @maxPoolingBackward_gpu_kernel Z exact_scalar 3 7 512 4 [] [] 1 1 4 4 2 2 2 2 []
   = Some []).
Proof.
  split.
  - apply (proj1 (@work_units_beyond_count_idle Z exact_scalar scenario [1; 1; 1; 1]
                    [0; 0; 0; 0] 4 4 1 2 2 0 4 512)).
    vm_compute. discriminate.
  - apply (proj1 (@work_units_beyond_count_idle Z exact_scalar [] [] [] 4 4 1 2 2 3 7 512)).
    vm_compute. discriminate.
Defined.

Lemma backward_conserves_gradient_mass_witness :
  valid_geometry 4 4 1 2 2 /\
  int_addressable 4 4 1 /\
  (exists out,
     @maxPoolingBackward_cpu Z exact_scalar (repeat 0 16) scenario [1; 1; 1; 1] 4 4 1 2 2
     = Some out /\
     @total Z exact_scalar 0 out
     = @total Z exact_scalar 0 (repeat 0 16) + @total Z exact_scalar 0 [1; 1; 1; 1]) /\
  (exists out,
     @maxPoolingBackward_gpu Z exact_scalar (reversed 512)
       (repeat 0 16) scenario [1; 1; 1; 1] 4 4 1 2 2 = Some out /\
     @total Z exact_scalar 0 out
     = @total Z exact_scalar 0 (repeat 0 16) + @total Z exact_scalar 0 [1; 1; 1; 1]).
Proof.
  split; [exact scenario_geometry|]. split; [exact scenario_addressable|].
  apply (@backward_conserves_gradient_mass Z exact_scalar (reversed 512) 0
           (repeat 0 16) scenario [1; 1; 1; 1] 4 4 1 2 2
           exact_add_comm exact_add_assoc exact_add_zero
           scenario_geometry scenario_addressable scenario_launchable
           (reversed_fair 512) eq_refl eq_refl eq_refl).
Defined.

Lemma maxPoolingBackward_cpu_first_argmax_witness :
  @ordered_on spec_float float_scalar
    (fun x => In x (map float_of_Z [1; 3; 3; 2])) /\
  valid_geometry 2 2 1 2 2 /\
  int_addressable 2 2 1 /\
  @maxPoolingBackward_cpu spec_float float_scalar
    (map float_of_Z [0; 0; 0; 0]) (map float_of_Z [1; 3; 3; 2]) [float_of_Z 10] 2 2 1 2 2
  = Some (@maxPoolingBackward_spec spec_float float_scalar
            (map float_of_Z [0; 0; 0; 0]) (map float_of_Z [1; 3; 3; 2]) [float_of_Z 10]
            2 2 1 2 2).
Proof.
  assert (Hordered : @ordered_on spec_float float_scalar
                       (fun x => In x (map float_of_Z [1; 3; 3; 2]))).
  { apply float_ordered_on. intros x Hx E. subst x. vm_compute in Hx.
    repeat (destruct Hx as [Hx | Hx]; [discriminate Hx|]). exact Hx. }
  assert (Hgeo : valid_geometry 2 2 1 2 2) by (unfold valid_geometry; lia).
  assert (Hint : int_addressable 2 2 1) by (unfold int_addressable, INT_MAX; lia).
  split; [exact Hordered|]. split; [exact Hgeo|]. split; [exact Hint|].
  apply (@maxPoolingBackward_cpu_first_argmax spec_float float_scalar
           (map float_of_Z [0; 0; 0; 0]) (map float_of_Z [1; 3; 3; 2]) [float_of_Z 10]
           2 2 1 2 2 Hordered Hgeo Hint eq_refl eq_refl eq_refl).
Defined.

(* ================================================================= *)
(** ** What the forward operators compute *)

(** For a valid geometry whose volume an [int] can address, both forward
    operators write to every cell of the pooled volume the running maximum
    of the window of the cell; the parallel operator starts it from
    [-FLT_MAX], the sequential operator from what the cell holds on
    entry. *)
Theorem forward_running_maximum {T : Type} {ST : Scalar T} {DV : Device}
    (pooled data : list T) (width height depth poolSize poolStride : Z) :
  valid_geometry width height depth poolSize poolStride ->
  int_addressable width height depth ->
  launchable width height depth ->
  fair_schedule ->
  Z.of_nat (length data) = width * height * depth ->
  Z.of_nat (length pooled) =
    pooled_extent_spec width poolSize poolStride
    * pooled_extent_spec height poolSize poolStride * depth ->
  let cell := volume_index (pooled_extent_spec width poolSize poolStride)
                           (pooled_extent_spec height poolSize poolStride) in
  (exists out,
     maxPooling_cpu pooled data width height depth poolSize poolStride = Some out /\
     length out = length pooled /\
     forall c ph pw,
       0 <= c < depth ->
       0 <= ph < pooled_extent_spec height poolSize poolStride ->
       0 <= pw < pooled_extent_spec width poolSize poolStride ->
       peek out (cell c ph pw)
       = window_max_from data width height poolSize poolStride c ph pw
           (peek pooled (cell c ph pw))) /\
  (exists out,
     maxPooling_gpu pooled data width height depth poolSize poolStride = Some out /\
     length out = length pooled /\
     forall c ph pw,
       0 <= c < depth ->
       0 <= ph < pooled_extent_spec height poolSize poolStride ->
       0 <= pw < pooled_extent_spec width poolSize poolStride ->
       peek out (cell c ph pw)
       = window_max_from data width height poolSize poolStride c ph pw neg_FLT_MAX).
Proof.
  intros Hgeo Hint [Hthreads Hlaunch] Hsched Hdata Hpooled cell.
  assert (Hcell : forall seed c ph pw,
    0 <= c < depth ->
    0 <= ph < pooled_extent_spec height poolSize poolStride ->
    0 <= pw < pooled_extent_spec width poolSize poolStride ->
    pooled_value data width height poolSize poolStride seed (cell c ph pw)
    = window_max_from data width height poolSize poolStride c ph pw seed).
  { intros seed c ph pw Hc Hph Hpw. unfold pooled_value, cell.
    destruct (decode_volume_index _ _ _ _ _ Hgeo Hint c ph pw Hc Hph Hpw)
      as (-> & -> & ->).
    reflexivity. }
  split.
  - destruct (maxPooling_cpu_values _ _ _ _ _ Hgeo Hint data Hdata pooled Hpooled)
      as (out & Hrun & Hlen & Hval).
    exists out. split; [exact Hrun|]. split; [exact Hlen|].
    intros c ph pw Hc Hph Hpw.
    rewrite Hval by (apply pooled_index_bounds; assumption).
    now apply Hcell.
  - destruct (maxPooling_gpu_values _ _ _ _ _ Hgeo Hint data Hdata
                Hthreads Hlaunch Hsched pooled Hpooled)
      as (out & Hrun & Hlen & Hval).
    exists out. split; [exact Hrun|]. split; [exact Hlen|].
    intros c ph pw Hc Hph Hpw.
    rewrite Hval by (apply pooled_index_bounds; assumption).
    now apply Hcell.
Qed.

(** Hence the two forward operators return the same pooled volume, for
    every order of the threads, when the caller hands over a pooled buffer
    that holds [-FLT_MAX] everywhere. *)
Theorem forward_backends_agree_when_seeded {T : Type} {ST : Scalar T} {DV : Device}
    (pooled data : list T) (width height depth poolSize poolStride : Z) :
  valid_geometry width height depth poolSize poolStride ->
  int_addressable width height depth ->
  launchable width height depth ->
  fair_schedule ->
  Z.of_nat (length data) = width * height * depth ->
  Z.of_nat (length pooled) =
    pooled_extent_spec width poolSize poolStride
    * pooled_extent_spec height poolSize poolStride * depth ->
  (forall k, 0 <= k < Z.of_nat (length pooled) -> peek pooled k = neg_FLT_MAX) ->
  exists out,
    maxPooling_cpu pooled data width height depth poolSize poolStride = Some out /\
    maxPooling_gpu pooled data width height depth poolSize poolStride = Some out.
Proof.
  intros Hgeo Hint [Hthreads Hlaunch] Hsched Hdata Hpooled Hseed.
  destruct (maxPooling_cpu_values _ _ _ _ _ Hgeo Hint data Hdata pooled Hpooled)
    as (seq & Hseq & Hlen1 & Hval1).
  destruct (maxPooling_gpu_values _ _ _ _ _ Hgeo Hint data Hdata
              Hthreads Hlaunch Hsched pooled Hpooled)
    as (par & Hpar & Hlen2 & Hval2).
  exists seq. split; [exact Hseq|]. rewrite Hpar. f_equal.
  apply (nth_ext par seq neg_FLT_MAX neg_FLT_MAX); [congruence|].
  intros n Hn.
  assert (Hk : 0 <= Z.of_nat n < Z.of_nat (length pooled)) by lia.
  specialize (Hval1 (Z.of_nat n) ltac:(lia)). specialize (Hval2 (Z.of_nat n) ltac:(lia)).
  unfold peek in Hval1 at 1. unfold peek in Hval2 at 1. rewrite Nat2Z.id in Hval1, Hval2.
  rewrite Hval1, Hval2. now rewrite (Hseed _ Hk).
Qed.

(* ================================================================= *)
(** ** Where the parallel backward operator writes *)

(** For a valid geometry whose volume an [int] can address, and every
    order of the threads, the parallel backward operator leaves every
    element of [dzdx] outside the plane of channel 0 as it was. *)
Theorem maxPoolingBackward_gpu_writes_first_plane_only
    {T : Type} {ST : Scalar T} {DV : Device}
    (dzdx data dzdy : list T) (width height depth poolSize poolStride : Z) :
  valid_geometry width height depth poolSize poolStride ->
  int_addressable width height depth ->
  launchable width height depth ->
  fair_schedule ->
  Z.of_nat (length data) = width * height * depth ->
  Z.of_nat (length dzdx) = width * height * depth ->
  Z.of_nat (length dzdy) =
    pooled_extent_spec width poolSize poolStride
    * pooled_extent_spec height poolSize poolStride * depth ->
  exists out,
    maxPoolingBackward_gpu dzdx data dzdy width height depth poolSize poolStride
    = Some out /\
    length out = length dzdx /\
    forall c h w, 1 <= c -> 0 <= h -> 0 <= w ->
      peek out (volume_index width height c h w)
      = peek dzdx (volume_index width height c h w).
Proof.
  intros Hgeo Hint [Hthreads Hlaunch] Hsched Hdata Hdzdx Hdzdy.
  destruct (maxPoolingBackward_gpu_first_plane _ _ _ _ _ Hgeo Hint data dzdy Hdata Hdzdy
              Hthreads Hlaunch Hsched dzdx Hdzdx) as (out & Hrun & Hlen & Hout).
  exists out. split; [exact Hrun|]. split; [exact Hlen|].
  intros c h w Hc Hh Hw. apply Hout.
  pose proof (extents_int _ _ _ _ _ Hgeo Hint) as [? ?].
  unfold volume_index. nia.
Qed.

(* ================================================================= *)
(** ** Where the code departs from the specification *)

(** C1 (the code departs from it). A volume of two channels of one element,
    [data = [1; 2]], pooled one to one, with [dzdy = [10; 20]] and [dzdx]
    zero: the sequential backward operator adds 10 to the element of
    channel 0 and 20 to the element of channel 1; the parallel one, whose
    kernel offsets [bottom_data] by the channel but not [bottom_diff], adds
    both to the element of channel 0, in whichever order the two threads
    run. *)
Theorem backward_gpu_misses_channel_offset :
  let dzdx := [float_of_Z 0; float_of_Z 0] in
  let data := [float_of_Z 1; float_of_Z 2] in
  let dzdy := [float_of_Z 10; float_of_Z 20] in
  @maxPoolingBackward_cpu _ float_scalar dzdx data dzdy 1 1 2 1 1
  = Some [float_of_Z 10; float_of_Z 20] /\
  @maxPoolingBackward_gpu _ float_scalar (in_order 512) dzdx data dzdy 1 1 2 1 1
  = Some [float_of_Z 30; float_of_Z 0] /\
  @maxPoolingBackward_gpu _ float_scalar (reversed 512) dzdx data dzdy 1 1 2 1 1
  = Some [float_of_Z 30; float_of_Z 0].
Proof. vm_compute. repeat split. Qed.

(** C2 (the code departs from it). One channel of 2 x 2 elements
    [-1, -2, -3, -4] pooled by one window of size 2 into a buffer that
    holds 0: the maximum of the window is -1, and the parallel forward
    operator writes it; the sequential one, whose running maximum starts
    from what the pooled buffer holds, leaves 0, which is above every
    element of the window. *)
Theorem maxPooling_cpu_keeps_larger_initial_value :
  let data := map float_of_Z [-1; -2; -3; -4] in
  @maxPooling_cpu _ float_scalar [float_of_Z 0] data 2 2 1 2 2 = Some [float_of_Z 0] /\
  forallb (fun x => SFltb x (float_of_Z 0)) data = true /\
  @maxPooling_gpu _ float_scalar (in_order 512) [float_of_Z 0] data 2 2 1 2 2
  = Some [float_of_Z (-1)].
Proof. vm_compute. repeat split. Qed.

(** C3 (the code departs from it). On the same input, a pooled buffer that
    holds 0 and a window of negative elements, the two forward operators
    return different pooled volumes. *)
Theorem forward_backends_differ_on_zeroed_buffer :
  let data := map float_of_Z [-1; -2; -3; -4] in
  let pooled := [float_of_Z 0] in
  exists seq par,
    @maxPooling_cpu _ float_scalar pooled data 2 2 1 2 2 = Some seq /\
    @maxPooling_gpu _ float_scalar (in_order 512) pooled data 2 2 1 2 2 = Some par /\
    seq <> par.
Proof.
  exists [float_of_Z 0], [float_of_Z (-1)]. vm_compute.
  repeat split. discriminate.
Qed.

(** C8 (the code departs from it). The running maximum of the forward
    kernel starts at [-FLT_MAX] for every scalar type.  For [float] this is
    the lowest finite value.  For [double] it is neither the lowest finite
    value, which is below it, nor the negative infinity, and a [double]
    volume whose only element is [-2^130], below [-FLT_MAX], is pooled to
    [-FLT_MAX].  The kernel does not read the pooled buffer: two different
    buffers give the same result. *)
Theorem maxPooling_gpu_seed_not_lowest_double :
  @neg_FLT_MAX _ float_scalar = SF_lowest 24 128 /\
  @neg_FLT_MAX _ double_scalar <> SF_lowest 53 1024 /\
  @neg_FLT_MAX _ double_scalar <> SF_neg_infinity /\
  SFltb (SF_lowest 53 1024) (@neg_FLT_MAX _ double_scalar) = true /\
  SFltb (double_of_Z (- 2 ^ 130)) (@neg_FLT_MAX _ double_scalar) = true /\
  @maxPooling_gpu _ double_scalar (in_order 512)
    [double_of_Z 0] [double_of_Z (- 2 ^ 130)] 1 1 1 1 1
  = Some [@neg_FLT_MAX _ double_scalar] /\
  @maxPooling_gpu _ double_scalar (in_order 512)
    [double_of_Z 7] [double_of_Z (- 2 ^ 130)] 1 1 1 1 1
  = Some [@neg_FLT_MAX _ double_scalar].
Proof. vm_compute. repeat split; discriminate. Qed.

(** C10 (the code departs from it). The same volume pooled by the
    sequential forward operator into a buffer that holds 0 and into a
    buffer that holds -5 gives two different pooled volumes. *)
Theorem maxPooling_cpu_depends_on_initial_pooled :
  let data := map float_of_Z [-1; -2; -3; -4] in
  @maxPooling_cpu _ float_scalar [float_of_Z 0] data 2 2 1 2 2 = Some [float_of_Z 0] /\
  @maxPooling_cpu _ float_scalar [float_of_Z (-5)] data 2 2 1 2 2 = Some [float_of_Z (-1)] /\
  float_of_Z 0 <> float_of_Z (-1).
Proof. vm_compute. repeat split. discriminate. Qed.

(* ================================================================= *)
(** ** Further properties of the forward operators *)

Lemma forward_running_maximum_witness :
  (exists out,
     @maxPooling_cpu Z exact_scalar [0; 0; 0; 100] scenario 4 4 1 2 2 = Some out /\
     length out = 4%nat /\
     @peek Z exact_scalar out (volume_index 2 2 0 1 1)
     = @window_max_from Z exact_scalar scenario 4 4 2 2 0 1 1 100) /\
  (exists out,
     @maxPooling_gpu Z exact_scalar (reversed 512) [0; 0; 0; 100] scenario 4 4 1 2 2
     = Some out /\
     length out = 4%nat /\
     @peek Z exact_scalar out (volume_index 2 2 0 1 1)
     = @window_max_from Z exact_scalar scenario 4 4 2 2 0 1 1
         (@neg_FLT_MAX Z exact_scalar)).
Proof.
  destruct (@forward_running_maximum Z exact_scalar (reversed 512)
              [0; 0; 0; 100] scenario 4 4 1 2 2
              scenario_geometry scenario_addressable scenario_launchable
              (reversed_fair 512) eq_refl eq_refl)
    as [(seq & Hseq & Hlen1 & Hval1) (par & Hpar & Hlen2 & Hval2)].
  split.
  - exists seq. split; [exact Hseq|]. split; [exact Hlen1|].
    apply (Hval1 0 1 1); vm_compute; split; congruence.
  - exists par. split; [exact Hpar|]. split; [exact Hlen2|].
    apply (Hval2 0 1 1); vm_compute; split; congruence.
Defined.

Lemma exact_buffer_seeded :
  forall k, 0 <= k < Z.of_nat (length (repeat (@neg_FLT_MAX Z exact_scalar) 4)) ->
    @peek Z exact_scalar (repeat (@neg_FLT_MAX Z exact_scalar) 4) k
    = @neg_FLT_MAX Z exact_scalar.
Proof.
  intros k Hk. unfold peek. cbn [length repeat] in *.
  assert (Hcases : k = 0 \/ k = 1 \/ k = 2 \/ k = 3) by lia.
  destruct Hcases as [-> | [-> | [-> | ->]]]; reflexivity.
Qed.

Lemma forward_backends_agree_when_seeded_witness :
  exists out,
    @maxPooling_cpu Z exact_scalar (repeat (@neg_FLT_MAX Z exact_scalar) 4)
      scenario 4 4 1 2 2 = Some out /\
    @maxPooling_gpu Z exact_scalar (reversed 512)
      (repeat (@neg_FLT_MAX Z exact_scalar) 4) scenario 4 4 1 2 2 = Some out.
Proof.
  apply (@forward_backends_agree_when_seeded Z exact_scalar (reversed 512)
           (repeat (@neg_FLT_MAX Z exact_scalar) 4) scenario 4 4 1 2 2
           scenario_geometry scenario_addressable scenario_launchable
           (reversed_fair 512) eq_refl eq_refl exact_buffer_seeded).
Defined.

Lemma two_channels_geometry : valid_geometry 1 1 2 1 1.
Proof. unfold valid_geometry. lia. Qed.

Lemma two_channels_addressable : int_addressable 1 1 2.
Proof. unfold int_addressable, INT_MAX. lia. Qed.

Lemma two_channels_launchable : @launchable (reversed 512) 1 1 2.
Proof. unfold launchable, INT_MAX. cbn. lia. Qed.

Lemma maxPoolingBackward_gpu_writes_first_plane_only_witness :
  exists out,
    @maxPoolingBackward_gpu Z exact_scalar (reversed 512) [0; 7] [1; 2] [10; 20] 1 1 2 1 1
    = Some out /\
    length out = 2%nat /\
    @peek Z exact_scalar out (volume_index 1 1 1 0 0) = 7.
Proof.
  destruct (@maxPoolingBackward_gpu_writes_first_plane_only Z exact_scalar (reversed 512)
              [0; 7] [1; 2] [10; 20] 1 1 2 1 1
              two_channels_geometry two_channels_addressable
              two_channels_launchable (reversed_fair 512)
              eq_refl eq_refl eq_refl) as (out & Hrun & Hlen & Hout).
  exists out. split; [exact Hrun|]. split; [exact Hlen|].
  apply (Hout 1 0 0); lia.
Defined.

(** The parallel forward operator has one result: whatever the pooled
    buffer holds on entry, whatever the size of the blocks and the order in
    which the threads run, it returns the same pooled volume. *)
Theorem maxPooling_gpu_deterministic {T : Type} {ST : Scalar T} (DV1 DV2 : Device)
    (pooled1 pooled2 data : list T) (width height depth poolSize poolStride : Z) :
  valid_geometry width height depth poolSize poolStride ->
  int_addressable width height depth ->
  @launchable DV1 width height depth ->
  @launchable DV2 width height depth ->
  @fair_schedule DV1 ->
  @fair_schedule DV2 ->
  Z.of_nat (length data) = width * height * depth ->
  Z.of_nat (length pooled1) =
    pooled_extent_spec width poolSize poolStride
    * pooled_extent_spec height poolSize poolStride * depth ->
  Z.of_nat (length pooled2) =
    pooled_extent_spec width poolSize poolStride
    * pooled_extent_spec height poolSize poolStride * depth ->
  exists out,
    @maxPooling_gpu T ST DV1 pooled1 data width height depth poolSize poolStride
    = Some out /\
    @maxPooling_gpu T ST DV2 pooled2 data width height depth poolSize poolStride
    = Some out.
Proof.
  intros Hgeo Hint [Ht1 Hl1] [Ht2 Hl2] Hs1 Hs2 Hdata Hp1 Hp2.
  destruct (@maxPooling_gpu_values _ _ _ _ _ Hgeo Hint T ST data Hdata
              DV1 Ht1 Hl1 Hs1 pooled1 Hp1) as (out1 & Hrun1 & Hlen1 & Hval1).
  destruct (@maxPooling_gpu_values _ _ _ _ _ Hgeo Hint T ST data Hdata
              DV2 Ht2 Hl2 Hs2 pooled2 Hp2) as (out2 & Hrun2 & Hlen2 & Hval2).
  exists out1. split; [exact Hrun1|]. rewrite Hrun2. f_equal.
  apply (nth_ext out2 out1 neg_FLT_MAX neg_FLT_MAX); [lia|].
  intros n Hn.
  assert (Hk : 0 <= Z.of_nat n
               < pooled_extent_spec width poolSize poolStride
                 * pooled_extent_spec height poolSize poolStride * depth) by lia.
  specialize (Hval1 _ Hk). specialize (Hval2 _ Hk).
  unfold peek in Hval1 at 1. unfold peek in Hval2 at 1. rewrite Nat2Z.id in Hval1, Hval2.
  congruence.
Qed.

Lemma maxPooling_gpu_deterministic_witness :
  exists out,
    @maxPooling_gpu Z exact_scalar (in_order 512) [0; 0; 0; 0] scenario 4 4 1 2 2
    = Some out /\
    @maxPooling_gpu Z exact_scalar (reversed 3) [9; 99; 999; 9999] scenario 4 4 1 2 2
    = Some out.
Proof.
  apply (@maxPooling_gpu_deterministic Z exact_scalar (in_order 512) (reversed 3)
           [0; 0; 0; 0] [9; 99; 999; 9999] scenario 4 4 1 2 2
           scenario_geometry scenario_addressable scenario_launchable).
  - unfold launchable, INT_MAX. cbn. lia.
  - exact (in_order_fair 512).
  - exact (reversed_fair 3).
  - reflexivity.
  - reflexivity.
  - reflexivity.
Defined.

Lemma length_window_cells hstart hend wstart wend :
  length (window_cells hstart hend wstart wend)
  = (Z.to_nat (hend - hstart) * Z.to_nat (wend - wstart))%nat.
Proof.
  unfold window_cells. rewrite <- (length_range hstart hend).
  induction (range hstart hend) as [|h l IH]; cbn [flat_map length].
  - reflexivity.
  - rewrite length_app, length_map, length_range, IH. lia.
Qed.

(** In all four operators the [min] that clips a window to the volume
    never takes effect: for a valid geometry whose volume an [int] can
    address, the window of every output cell ends [poolSize] after its
    start, in both directions, and holds [poolSize * poolSize] elements.
    Rows and columns beyond the last whole window are not pooled. *)
Theorem windows_are_never_clipped (width height depth poolSize poolStride ph pw : Z) :
  valid_geometry width height depth poolSize poolStride ->
  int_addressable width height depth ->
  0 <= ph < pooledExtent height poolSize poolStride ->
  0 <= pw < pooledExtent width poolSize poolStride ->
  let hstart := window_start_cpu ph poolStride in
  let wstart := window_start_cpu pw poolStride in
  let hend := window_end_cpu hstart poolSize height in
  let wend := window_end_cpu wstart poolSize width in
  hend = hstart + poolSize /\ hend <= height /\
  wend = wstart + poolSize /\ wend <= width /\
  window_start_gpu ph (int_of_size poolStride) = hstart /\
  window_start_gpu pw (int_of_size poolStride) = wstart /\
  window_end_gpu hstart (int_of_size poolSize) (int_of_size height) = hend /\
  window_end_gpu wstart (int_of_size poolSize) (int_of_size width) = wend /\
  length (window_cells hstart hend wstart wend) = Z.to_nat (poolSize * poolSize).
Proof.
  intros Hgeo Hint Hph Hpw.
  rewrite (pooledHeight_eq _ _ _ _ _ Hgeo Hint) in Hph.
  rewrite (pooledWidth_eq _ _ _ _ _ Hgeo Hint) in Hpw.
  cbv zeta.
  rewrite (hstart_cpu _ _ _ _ _ Hgeo Hint ph Hph), (wstart_cpu _ _ _ _ _ Hgeo Hint pw Hpw).
  rewrite (hend_cpu _ _ _ _ _ Hgeo Hint ph Hph), (wend_cpu _ _ _ _ _ Hgeo Hint pw Hpw).
  rewrite (hstart_gpu _ _ _ _ _ Hgeo Hint ph Hph), (wstart_gpu _ _ _ _ _ Hgeo Hint pw Hpw).
  rewrite (hend_gpu _ _ _ _ _ Hgeo Hint ph Hph), (wend_gpu _ _ _ _ _ Hgeo Hint pw Hpw).
  pose proof (window_rows _ _ _ _ _ Hgeo Hint ph Hph).
  pose proof (window_columns _ _ _ _ _ Hgeo Hint pw Hpw).
  destruct Hgeo as (? & ? & ? & ? & ?).
  repeat split; try reflexivity; try lia.
  rewrite length_window_cells.
  replace (ph * poolStride + poolSize - ph * poolStride) with poolSize by ring.
  replace (pw * poolStride + poolSize - pw * poolStride) with poolSize by ring.
  rewrite Z2Nat.inj_mul by lia. reflexivity.
Qed.

Lemma windows_are_never_clipped_witness :
  window_end_cpu (window_start_cpu 1 2) 2 5 = window_start_cpu 1 2 + 2 /\
  window_end_cpu (window_start_cpu 1 2) 2 5 <= 5.
Proof.
  assert (Hgeo : valid_geometry 5 5 1 2 2) by (unfold valid_geometry; lia).
  assert (Hint : int_addressable 5 5 1) by (unfold int_addressable, INT_MAX; lia).
  assert (Hp : 0 <= 1 < pooledExtent 5 2 2) by (vm_compute; split; congruence).
  destruct (windows_are_never_clipped 5 5 1 2 2 1 1 Hgeo Hint Hp Hp)
    as (H1 & H2 & _).
  split; [exact H1 | exact H2].
Defined.

(** The kernels decode a flattened index below the work count into the
    coordinates of one output cell of batch item 0, and the index is the
    position the comment of the source gives,
    [((n*channels + c)*pooled_height + ph)*pooled_width + pw]; conversely
    every output cell is decoded from its position.  Work units and output
    cells correspond one to one. *)
Theorem kernel_index_decode_round_trip (width height depth poolSize poolStride : Z) :
  valid_geometry width height depth poolSize poolStride ->
  int_addressable width height depth ->
  let pooled_width := pooledExtent width poolSize poolStride in
  let pooled_height := pooledExtent height poolSize poolStride in
  let channels := int_of_size depth in
  (forall index,
     0 <= index < pooled_width * pooled_height * depth ->
     let pw := int_mod index pooled_width in
     let ph := int_mod (int_div index pooled_width) pooled_height in
     let c := int_mod (int_div (int_div index pooled_width) pooled_height) channels in
     let n := int_div (int_div (int_div index pooled_width) pooled_height) channels in
     0 <= pw < pooled_width /\ 0 <= ph < pooled_height /\ 0 <= c < depth /\ n = 0 /\
     index = ((n * channels + c) * pooled_height + ph) * pooled_width + pw) /\
  (forall c ph pw,
     0 <= c < depth -> 0 <= ph < pooled_height -> 0 <= pw < pooled_width ->
     let index := (c * pooled_height + ph) * pooled_width + pw in
     0 <= index < pooled_width * pooled_height * depth /\
     int_mod index pooled_width = pw /\
     int_mod (int_div index pooled_width) pooled_height = ph /\
     int_mod (int_div (int_div index pooled_width) pooled_height) channels = c).
Proof.
  intros Hgeo Hint. cbv zeta.
  rewrite (pooledHeight_eq _ _ _ _ _ Hgeo Hint), (pooledWidth_eq _ _ _ _ _ Hgeo Hint).
  assert (Hdepth : int_of_size depth = depth).
  { apply int_of_size_id. pose proof (depth_int _ _ _ _ _ Hgeo Hint).
    destruct Hgeo as (_ & _ & _ & _ & ?). lia. }
  rewrite Hdepth. split.
  - intros index Hindex.
    destruct (decode_index _ _ _ _ _ Hgeo Hint index Hindex) as (Hpw & Hph & Hc & Hn & Hvol).
    split; [exact Hpw|]. split; [exact Hph|]. split; [exact Hc|]. split; [exact Hn|].
    rewrite Hn. cbn [Z.mul Z.add]. exact Hvol.
  - intros c ph pw Hc Hph Hpw.
    pose proof (pooled_index_bounds width height depth poolSize poolStride c ph pw Hc Hph Hpw)
      as Hbounds.
    destruct (decode_volume_index _ _ _ _ _ Hgeo Hint c ph pw Hc Hph Hpw) as (Ec & Eph & Epw).
    destruct (decode_index_closed _ _ _ _ _ Hgeo Hint _ Hbounds) as (Cpw & Cph & Cc).
    unfold volume_index in *.
    split; [exact Hbounds|]. split; [congruence|]. split; congruence.
Qed.

Lemma kernel_index_decode_round_trip_witness :
  let index := (0 * pooledExtent 4 2 2 + 1) * pooledExtent 4 2 2 + 1 in
  int_mod index (pooledExtent 4 2 2) = 1 /\
  int_mod (int_div index (pooledExtent 4 2 2)) (pooledExtent 4 2 2) = 1.
Proof.
  destruct (proj2 (kernel_index_decode_round_trip 4 4 1 2 2
                     scenario_geometry scenario_addressable) 0 1 1)
    as (_ & Hpw & Hph & _).
  - lia.
  - vm_compute. split; congruence.
  - vm_compute. split; congruence.
  - split; [exact Hpw | exact Hph].
Defined.

(* ================================================================= *)
(** ** The forward operators on ordered scalars *)

Section RunningMaximum.

Context {T : Type} {ST : Scalar T}.

(** On the scalars that the operators meet, those that satisfy [D], [max]
    picks the greater of its arguments and [<] is a strict weak order. *)
Variable D : T -> Prop.
Hypothesis max_spec : max_on D.
Hypothesis Hordered : ordered_on D.

Lemma fold_max_dom {A : Type} (val : A -> T) (l : list A) (seed : T) :
  D seed -> (forall q, In q l -> D (val q)) ->
  D (fold_left (fun m q => s_max m (val q)) l seed).
Proof using max_spec.
  revert seed. induction l as [|q l IH]; intros seed Hs Hl; cbn [fold_left];
    [exact Hs|].
  assert (Hq : D (val q)) by (apply Hl; now left).
  apply IH; [| intros q' Hq'; apply Hl; now right].
  rewrite (max_spec seed (val q) Hs Hq). now destruct (s_lt seed (val q)).
Qed.

Lemma fold_max_bounds {A : Type} (val : A -> T) (l : list A) (seed : T) :
  D seed -> (forall q, In q l -> D (val q)) ->
  let r := fold_left (fun m q => s_max m (val q)) l seed in
  s_lt r seed = false /\
  (forall q, In q l -> s_lt r (val q) = false) /\
  (r = seed \/ exists q, In q l /\ r = val q).
Proof using max_spec Hordered.
  destruct Hordered as (lt_irrefl & lt_trans & ge_trans).
  revert seed. induction l as [|q l IH]; intros seed Hs Hl; cbn [fold_left]; cbv zeta.
  - split; [now apply lt_irrefl|]. split; [intros q []|]. now left.
  - assert (Hq : D (val q)) by (apply Hl; now left).
    assert (Hl' : forall q', In q' l -> D (val q'))
      by (intros q' Hq'; apply Hl; now right).
    rewrite (max_spec seed (val q) Hs Hq).
    destruct (s_lt seed (val q)) eqn:Hlt.
    + destruct (IH (val q) Hq Hl') as (Hseed & Hall & Hin).
      pose proof (fold_max_dom val l (val q) Hq Hl') as Hr.
      split; [|split].
      * apply (ge_trans _ (val q)); [exact Hr | exact Hq | exact Hs | exact Hseed |].
        now apply (lt_asym D lt_irrefl lt_trans).
      * intros q' [<- | Hq']; [exact Hseed | now apply Hall].
      * right. destruct Hin as [-> | (q' & Hq' & ->)].
        -- exists q. split; [now left | reflexivity].
        -- exists q'. split; [now right | reflexivity].
    + destruct (IH seed Hs Hl') as (Hseed & Hall & Hin).
      pose proof (fold_max_dom val l seed Hs Hl') as Hr.
      split; [exact Hseed|]. split.
      * intros q' [<- | Hq']; [|now apply Hall].
        now apply (ge_trans _ seed).
      * destruct Hin as [-> | (q' & Hq' & ->)]; [now left|].
        right. exists q'. split; [now right | reflexivity].
Qed.

Lemma fold_max_fixed {A : Type} (val : A -> T) (l : list A) (seed : T) :
  D seed -> (forall q, In q l -> D (val q)) ->
  (forall q, In q l -> s_lt seed (val q) = false) ->
  fold_left (fun m q => s_max m (val q)) l seed = seed.
Proof using max_spec.
  induction l as [|q l IH]; intros Hs Hl H; cbn [fold_left]; [reflexivity|].
  rewrite (max_spec seed (val q)), (H q) by (try apply Hl; (now left) || exact Hs).
  apply IH; [exact Hs | |]; intros q' Hq'; [apply Hl | apply H]; now right.
Qed.

Lemma window_max_from_fold (data : list T) width height poolSize poolStride c ph pw seed :
  window_max_from data width height poolSize poolStride c ph pw seed
  = fold_left
      (fun m q => s_max m ((fun '(h, w) => peek data (volume_index width height c h w)) q))
      (window_cells (ph * poolStride) (Z.min (ph * poolStride + poolSize) height)
                    (pw * poolStride) (Z.min (pw * poolStride + poolSize) width))
      seed.
Proof using Type.
  unfold window_max_from. apply fold_left_ext. now intros m [h w] _.
Qed.

(** The running maximum of a window is not below its seed nor below any
    element of the window, and it is the seed or an element of the
    window. *)
Lemma window_max_from_bounds (data : list T) width height poolSize poolStride c ph pw seed :
  D seed ->
  (forall q,
     In q (window_cells (ph * poolStride) (Z.min (ph * poolStride + poolSize) height)
                        (pw * poolStride) (Z.min (pw * poolStride + poolSize) width)) ->
     D ((fun '(h, w) => peek data (volume_index width height c h w)) q)) ->
  let r := window_max_from data width height poolSize poolStride c ph pw seed in
  D r /\
  s_lt r seed = false /\
  (forall h w,
     ph * poolStride <= h < Z.min (ph * poolStride + poolSize) height ->
     pw * poolStride <= w < Z.min (pw * poolStride + poolSize) width ->
     s_lt r (peek data (volume_index width height c h w)) = false) /\
  (r = seed \/
   exists h w,
     ph * poolStride <= h < Z.min (ph * poolStride + poolSize) height /\
     pw * poolStride <= w < Z.min (pw * poolStride + poolSize) width /\
     r = peek data (volume_index width height c h w)).
Proof using max_spec Hordered.
  intros Hs Hl. cbv zeta. rewrite window_max_from_fold.
  split; [now apply fold_max_dom|].
  destruct (fold_max_bounds
              (fun '(h, w) => peek data (volume_index width height c h w))
              (window_cells (ph * poolStride) (Z.min (ph * poolStride + poolSize) height)
                            (pw * poolStride) (Z.min (pw * poolStride + poolSize) width))
              seed Hs Hl) as (Hseed & Hall & Hin).
  split; [exact Hseed|]. split.
  - intros h w Hh Hw. apply (Hall (h, w)). now apply in_window_cells.
  - destruct Hin as [Hin | ([h w] & Hq & Hr)]; [now left|].
    right. exists h, w. apply in_window_cells in Hq. tauto.
Qed.

Lemma window_max_from_idempotent (data : list T) width height poolSize poolStride
    c ph pw seed :
  D seed ->
  (forall q,
     In q (window_cells (ph * poolStride) (Z.min (ph * poolStride + poolSize) height)
                        (pw * poolStride) (Z.min (pw * poolStride + poolSize) width)) ->
     D ((fun '(h, w) => peek data (volume_index width height c h w)) q)) ->
  let r := window_max_from data width height poolSize poolStride c ph pw seed in
  window_max_from data width height poolSize poolStride c ph pw r = r.
Proof using max_spec Hordered.
  intros Hs Hl. cbv zeta.
  destruct (window_max_from_bounds data width height poolSize poolStride c ph pw seed
              Hs Hl) as (Hr & _ & Hall & _).
  rewrite (window_max_from_fold data width height poolSize poolStride c ph pw
             (window_max_from data width height poolSize poolStride c ph pw seed)).
  apply fold_max_fixed; [exact Hr | exact Hl |].
  intros [h w] Hq. apply in_window_cells in Hq.
  now apply Hall.
Qed.

End RunningMaximum.

Lemma pooled_value_at_cell {T : Type} {ST : Scalar T} (data : list T)
    (width height depth poolSize poolStride : Z) (seed : T) c ph pw :
  valid_geometry width height depth poolSize poolStride ->
  int_addressable width height depth ->
  0 <= c < depth ->
  0 <= ph < pooled_extent_spec height poolSize poolStride ->
  0 <= pw < pooled_extent_spec width poolSize poolStride ->
  pooled_value data width height poolSize poolStride seed
    (volume_index (pooled_extent_spec width poolSize poolStride)
                  (pooled_extent_spec height poolSize poolStride) c ph pw)
  = window_max_from data width height poolSize poolStride c ph pw seed.
Proof.
  intros Hgeo Hint Hc Hph Hpw. unfold pooled_value.
  destruct (decode_volume_index _ _ _ _ _ Hgeo Hint c ph pw Hc Hph Hpw) as (-> & -> & ->).
  reflexivity.
Qed.

(** Where the elements of [data] and of [pooled] are ordered (no NaN
    among them), the sequential forward operator leaves in every cell of
    the pooled volume the maximum of what the cell held on entry and of the
    elements of its window: a value not below the previous content, not
    below any element of the window, and equal to the previous content or
    to an element of the window.  A cell never decreases. *)
Theorem maxPooling_cpu_maximum_with_previous {T : Type} {ST : Scalar T}
    (pooled data : list T) (width height depth poolSize poolStride : Z) :
  max_on (fun x => In x data \/ In x pooled) ->
  ordered_on (fun x => In x data \/ In x pooled) ->
  valid_geometry width height depth poolSize poolStride ->
  int_addressable width height depth ->
  Z.of_nat (length data) = width * height * depth ->
  Z.of_nat (length pooled) =
    pooled_extent_spec width poolSize poolStride
    * pooled_extent_spec height poolSize poolStride * depth ->
  let cell := volume_index (pooled_extent_spec width poolSize poolStride)
                           (pooled_extent_spec height poolSize poolStride) in
  exists out,
    maxPooling_cpu pooled data width height depth poolSize poolStride = Some out /\
    forall c ph pw,
      0 <= c < depth ->
      0 <= ph < pooled_extent_spec height poolSize poolStride ->
      0 <= pw < pooled_extent_spec width poolSize poolStride ->
      s_lt (peek out (cell c ph pw)) (peek pooled (cell c ph pw)) = false /\
      (forall h w,
         ph * poolStride <= h < ph * poolStride + poolSize ->
         pw * poolStride <= w < pw * poolStride + poolSize ->
         s_lt (peek out (cell c ph pw)) (peek data (volume_index width height c h w))
         = false) /\
      (peek out (cell c ph pw) = peek pooled (cell c ph pw) \/
       exists h w,
         ph * poolStride <= h < ph * poolStride + poolSize /\
         pw * poolStride <= w < pw * poolStride + poolSize /\
         peek out (cell c ph pw) = peek data (volume_index width height c h w)).
Proof.
  intros Hmax Hordered Hgeo Hint Hdata Hpooled cell.
  destruct (maxPooling_cpu_values _ _ _ _ _ Hgeo Hint data Hdata pooled Hpooled)
    as (out & Hrun & _ & Hval).
  exists out. split; [exact Hrun|]. intros c ph pw Hc Hph Hpw.
  pose proof (window_rows _ _ _ _ _ Hgeo Hint ph Hph) as Hrows.
  pose proof (window_columns _ _ _ _ _ Hgeo Hint pw Hpw) as Hcols.
  pose proof (pooled_index_bounds width height depth poolSize poolStride c ph pw
                Hc Hph Hpw) as Hcell.
  rewrite Hval by exact Hcell.
  unfold cell. rewrite (pooled_value_at_cell data width height depth) by assumption.
  destruct (window_max_from_bounds _ Hmax Hordered data width height
              poolSize poolStride c ph pw
              (peek pooled (volume_index (pooled_extent_spec width poolSize poolStride)
                                         (pooled_extent_spec height poolSize poolStride)
                                         c ph pw)))
    as (_ & Hseed & Hall & Hin).
  { right. apply peek_In. lia. }
  { intros q Hq. left.
    exact (window_values_in_data _ _ _ _ _ Hgeo Hint data Hdata c ph pw q Hc Hph Hpw Hq). }
  rewrite !Z.min_l in Hall, Hin by lia.
  split; [exact Hseed|]. split; [exact Hall | exact Hin].
Qed.

(** Where the elements of [data] and [-FLT_MAX] are ordered (no NaN in
    [data]), the parallel forward operator writes to every cell of the
    pooled volume the maximum of [-FLT_MAX] and of the elements of the
    window of the cell; when no element of the window is below [-FLT_MAX],
    it is the maximum of the window: not below any element, and not above
    some element. *)
Theorem maxPooling_gpu_window_maximum {T : Type} {ST : Scalar T} {DV : Device}
    (pooled data : list T) (width height depth poolSize poolStride : Z) :
  max_on (fun x => In x data \/ x = neg_FLT_MAX) ->
  ordered_on (fun x => In x data \/ x = neg_FLT_MAX) ->
  valid_geometry width height depth poolSize poolStride ->
  int_addressable width height depth ->
  launchable width height depth ->
  fair_schedule ->
  Z.of_nat (length data) = width * height * depth ->
  Z.of_nat (length pooled) =
    pooled_extent_spec width poolSize poolStride
    * pooled_extent_spec height poolSize poolStride * depth ->
  let cell := volume_index (pooled_extent_spec width poolSize poolStride)
                           (pooled_extent_spec height poolSize poolStride) in
  exists out,
    maxPooling_gpu pooled data width height depth poolSize poolStride = Some out /\
    forall c ph pw,
      0 <= c < depth ->
      0 <= ph < pooled_extent_spec height poolSize poolStride ->
      0 <= pw < pooled_extent_spec width poolSize poolStride ->
      s_lt (peek out (cell c ph pw)) neg_FLT_MAX = false /\
      (forall h w,
         ph * poolStride <= h < ph * poolStride + poolSize ->
         pw * poolStride <= w < pw * poolStride + poolSize ->
         s_lt (peek out (cell c ph pw)) (peek data (volume_index width height c h w))
         = false) /\
      (peek out (cell c ph pw) = neg_FLT_MAX \/
       exists h w,
         ph * poolStride <= h < ph * poolStride + poolSize /\
         pw * poolStride <= w < pw * poolStride + poolSize /\
         peek out (cell c ph pw) = peek data (volume_index width height c h w)) /\
      ((forall h w,
          ph * poolStride <= h < ph * poolStride + poolSize ->
          pw * poolStride <= w < pw * poolStride + poolSize ->
          s_lt (peek data (volume_index width height c h w)) neg_FLT_MAX = false) ->
       exists h w,
         ph * poolStride <= h < ph * poolStride + poolSize /\
         pw * poolStride <= w < pw * poolStride + poolSize /\
         s_lt (peek data (volume_index width height c h w)) (peek out (cell c ph pw))
         = false).
Proof.
  intros Hmax Hordered Hgeo Hint [Hthreads Hlaunch] Hsched Hdata Hpooled cell.
  destruct (maxPooling_gpu_values _ _ _ _ _ Hgeo Hint data Hdata
              Hthreads Hlaunch Hsched pooled Hpooled) as (out & Hrun & _ & Hval).
  exists out. split; [exact Hrun|]. intros c ph pw Hc Hph Hpw.
  pose proof (window_rows _ _ _ _ _ Hgeo Hint ph Hph) as Hrows.
  pose proof (window_columns _ _ _ _ _ Hgeo Hint pw Hpw) as Hcols.
  rewrite Hval by (apply pooled_index_bounds; assumption).
  unfold cell. rewrite (pooled_value_at_cell data width height depth) by assumption.
  assert (Hdom : forall q,
    In q (window_cells (ph * poolStride) (Z.min (ph * poolStride + poolSize) height)
                       (pw * poolStride) (Z.min (pw * poolStride + poolSize) width)) ->
    In ((fun '(h, w) => peek data (volume_index width height c h w)) q) data
    \/ (fun '(h, w) => peek data (volume_index width height c h w)) q = neg_FLT_MAX).
  { intros q Hq. left.
    exact (window_values_in_data _ _ _ _ _ Hgeo Hint data Hdata c ph pw q Hc Hph Hpw Hq). }
  destruct (window_max_from_bounds _ Hmax Hordered data width height
              poolSize poolStride c ph pw neg_FLT_MAX (or_intror eq_refl) Hdom)
    as (Hr & Hseed & Hall & Hin).
  rewrite !Z.min_l in Hall, Hin by lia.
  split; [exact Hseed|]. split; [exact Hall|]. split; [exact Hin|].
  intros Hfloor. destruct Hin as [-> | (h & w & Hh & Hw & ->)].
  - destruct Hgeo as (? & ? & ? & ? & ?).
    exists (ph * poolStride), (pw * poolStride).
    split; [lia|]. split; [lia|]. apply Hfloor; lia.
  - exists h, w. split; [exact Hh|]. split; [exact Hw|].
    destruct Hordered as (Hirr & _). apply Hirr. left.
    apply peek_In. rewrite Hdata.
    apply (volume_index_bounds width height depth); lia.
Qed.

(** Where the elements of [data] and of [pooled] are ordered (no NaN
    among them), a second run of the sequential forward operator on its own
    result changes nothing. *)
Theorem maxPooling_cpu_idempotent {T : Type} {ST : Scalar T}
    (pooled data : list T) (width height depth poolSize poolStride : Z) :
  max_on (fun x => In x data \/ In x pooled) ->
  ordered_on (fun x => In x data \/ In x pooled) ->
  valid_geometry width height depth poolSize poolStride ->
  int_addressable width height depth ->
  Z.of_nat (length data) = width * height * depth ->
  Z.of_nat (length pooled) =
    pooled_extent_spec width poolSize poolStride
    * pooled_extent_spec height poolSize poolStride * depth ->
  exists out,
    maxPooling_cpu pooled data width height depth poolSize poolStride = Some out /\
    maxPooling_cpu out data width height depth poolSize poolStride = Some out.
Proof.
  intros Hmax Hordered Hgeo Hint Hdata Hpooled.
  destruct (maxPooling_cpu_values _ _ _ _ _ Hgeo Hint data Hdata pooled Hpooled)
    as (out & Hrun & Hlen & Hval).
  assert (Hout : Z.of_nat (length out)
                 = pooled_extent_spec width poolSize poolStride
                   * pooled_extent_spec height poolSize poolStride * depth) by lia.
  destruct (maxPooling_cpu_values _ _ _ _ _ Hgeo Hint data Hdata out Hout)
    as (out' & Hrun' & Hlen' & Hval').
  exists out. split; [exact Hrun|]. rewrite Hrun'. f_equal.
  apply (nth_ext out' out neg_FLT_MAX neg_FLT_MAX); [exact Hlen'|].
  intros n Hn.
  assert (Hk : 0 <= Z.of_nat n
               < pooled_extent_spec width poolSize poolStride
                 * pooled_extent_spec height poolSize poolStride * depth) by lia.
  specialize (Hval _ Hk). specialize (Hval' _ Hk).
  unfold peek in Hval' at 1. rewrite Nat2Z.id in Hval'. rewrite Hval'.
  rewrite Hval. unfold pooled_value.
  destruct (decode_index _ _ _ _ _ Hgeo Hint (Z.of_nat n) Hk) as (Hpw & Hph & Hc & _).
  destruct (decode_index_closed _ _ _ _ _ Hgeo Hint (Z.of_nat n) Hk) as (Epw & Eph & Ec).
  rewrite Epw in Hpw. rewrite Eph in Hph. rewrite Ec in Hc.
  rewrite (window_max_from_idempotent _ Hmax Hordered).
  - fold (pooled_value data width height poolSize poolStride (peek pooled (Z.of_nat n))
            (Z.of_nat n)).
    rewrite <- Hval. unfold peek. now rewrite Nat2Z.id.
  - right. apply peek_In. lia.
  - intros q Hq. left.
    exact (window_values_in_data _ _ _ _ _ Hgeo Hint data Hdata _ _ _ q Hc Hph Hpw Hq).
Qed.

Lemma maxPooling_cpu_maximum_with_previous_witness :
  exists out,
    @maxPooling_cpu spec_float float_scalar
      (map float_of_Z [0; 0; 0; 100]) (map float_of_Z scenario) 4 4 1 2 2 = Some out /\
    @s_lt spec_float float_scalar
      (@peek spec_float float_scalar out (volume_index 2 2 0 1 1))
      (@peek spec_float float_scalar (map float_of_Z [0; 0; 0; 100])
         (volume_index 2 2 0 1 1))
    = false.
Proof.
  destruct (@maxPooling_cpu_maximum_with_previous spec_float float_scalar
              (map float_of_Z [0; 0; 0; 100]) (map float_of_Z scenario) 4 4 1 2 2)
    as (out & Hrun & Hcells).
  - apply float_max_on. no_nan.
  - apply float_ordered_on. no_nan.
  - exact scenario_geometry.
  - exact scenario_addressable.
  - reflexivity.
  - reflexivity.
  - exists out. split; [exact Hrun|].
    apply (Hcells 0 1 1); vm_compute; split; congruence.
Defined.

Lemma maxPooling_gpu_window_maximum_witness :
  exists out,
    @maxPooling_gpu spec_float float_scalar (reversed 512)
      (map float_of_Z [0; 0; 0; 100]) (map float_of_Z scenario) 4 4 1 2 2 = Some out /\
    @s_lt spec_float float_scalar
      (@peek spec_float float_scalar out (volume_index 2 2 0 1 1))
      (@neg_FLT_MAX spec_float float_scalar)
    = false.
Proof.
  destruct (@maxPooling_gpu_window_maximum spec_float float_scalar (reversed 512)
              (map float_of_Z [0; 0; 0; 100]) (map float_of_Z scenario) 4 4 1 2 2)
    as (out & Hrun & Hcells).
  - apply float_max_on. no_nan.
  - apply float_ordered_on. no_nan.
  - exact scenario_geometry.
  - exact scenario_addressable.
  - exact scenario_launchable.
  - exact (reversed_fair 512).
  - reflexivity.
  - reflexivity.
  - exists out. split; [exact Hrun|].
    apply (Hcells 0 1 1); vm_compute; split; congruence.
Defined.

Lemma maxPooling_cpu_idempotent_witness :
  exists out,
    @maxPooling_cpu spec_float float_scalar
      (map float_of_Z [0; 0; 0; 100]) (map float_of_Z scenario) 4 4 1 2 2 = Some out /\
    @maxPooling_cpu spec_float float_scalar out (map float_of_Z scenario) 4 4 1 2 2
    = Some out.
Proof.
  apply (@maxPooling_cpu_idempotent spec_float float_scalar
           (map float_of_Z [0; 0; 0; 100]) (map float_of_Z scenario) 4 4 1 2 2).
  - apply float_max_on. no_nan.
  - apply float_ordered_on. no_nan.
  - exact scenario_geometry.
  - exact scenario_addressable.
  - reflexivity.
  - reflexivity.
Defined.

(** The parallel backward operator with an exact addition has one result:
    whatever the size of the blocks and the order in which the threads add
    their gradients, it returns the same [dzdx]. *)
Theorem maxPoolingBackward_gpu_order_independent {T : Type} {ST : Scalar T}
    (DV1 DV2 : Device) (dzdx data dzdy : list T)
    (width height depth poolSize poolStride : Z) :
  (forall x y : T, s_add x y = s_add y x) ->
  (forall x y z : T, s_add x (s_add y z) = s_add (s_add x y) z) ->
  valid_geometry width height depth poolSize poolStride ->
  int_addressable width height depth ->
  @launchable DV1 width height depth ->
  @launchable DV2 width height depth ->
  @fair_schedule DV1 ->
  @fair_schedule DV2 ->
  Z.of_nat (length data) = width * height * depth ->
  Z.of_nat (length dzdy) =
    pooled_extent_spec width poolSize poolStride
    * pooled_extent_spec height poolSize poolStride * depth ->
  Z.of_nat (length dzdx) = width * height * depth ->
  exists out,
    @maxPoolingBackward_gpu T ST DV1 dzdx data dzdy width height depth poolSize poolStride
    = Some out /\
    @maxPoolingBackward_gpu T ST DV2 dzdx data dzdy width height depth poolSize poolStride
    = Some out.
Proof.
  intros Hcomm Hassoc Hgeo Hint [Ht1 Hl1] [Ht2 Hl2] Hs1 Hs2 Hdata Hdzdy Hdzdx.
  eexists. split.
  - exact (@maxPoolingBackward_gpu_in_index_order _ _ _ _ _ Hgeo Hint T ST data dzdy
             Hdata Hdzdy DV1 Ht1 Hl1 Hs1 dzdx Hcomm Hassoc Hdzdx).
  - exact (@maxPoolingBackward_gpu_in_index_order _ _ _ _ _ Hgeo Hint T ST data dzdy
             Hdata Hdzdy DV2 Ht2 Hl2 Hs2 dzdx Hcomm Hassoc Hdzdx).
Qed.

Lemma maxPoolingBackward_gpu_order_independent_witness :
  exists out,
    @maxPoolingBackward_gpu Z exact_scalar (in_order 512)
      (map (fun _ => 0) scenario) scenario [10; 20; 30; 40] 4 4 1 2 2 = Some out /\
    @maxPoolingBackward_gpu Z exact_scalar (reversed 3)
      (map (fun _ => 0) scenario) scenario [10; 20; 30; 40] 4 4 1 2 2 = Some out.
Proof.
  apply (@maxPoolingBackward_gpu_order_independent Z exact_scalar
           (in_order 512) (reversed 3)
           (map (fun _ => 0) scenario) scenario [10; 20; 30; 40] 4 4 1 2 2
           exact_add_comm exact_add_assoc
           scenario_geometry scenario_addressable scenario_launchable).
  - unfold launchable, INT_MAX. cbn. lia.
  - exact (in_order_fair 512).
  - exact (reversed_fair 3).
  - reflexivity.
  - reflexivity.
  - reflexivity.
Defined.

(** On a volume of one channel whose elements all exceed [-FLT_MAX], the
    parallel backward operator returns what the sequential backward
    operator returns, whatever the order of its threads, when no two
    gradients meet in one element (the windows do not overlap) or when the
    addition is commutative and associative. *)
Theorem maxPoolingBackward_backends_agree_on_one_channel {T : Type} {ST : Scalar T}
    {DV : Device} (dzdx data dzdy : list T) (width height poolSize poolStride : Z) :
  (forall x : T, In x data -> s_lt x x = false) ->
  poolSize <= poolStride \/
  ((forall x y : T, s_add x y = s_add y x) /\
   (forall x y z : T, s_add x (s_add y z) = s_add (s_add x y) z)) ->
  valid_geometry width height 1 poolSize poolStride ->
  int_addressable width height 1 ->
  launchable width height 1 ->
  fair_schedule ->
  Z.of_nat (length data) = width * height * 1 ->
  Z.of_nat (length dzdy) =
    pooled_extent_spec width poolSize poolStride
    * pooled_extent_spec height poolSize poolStride * 1 ->
  Z.of_nat (length dzdx) = width * height * 1 ->
  (forall i, 0 <= i < width * height * 1 -> s_lt neg_FLT_MAX (peek data i) = true) ->
  exists out,
    maxPoolingBackward_cpu dzdx data dzdy width height 1 poolSize poolStride = Some out /\
    maxPoolingBackward_gpu dzdx data dzdy width height 1 poolSize poolStride = Some out.
Proof.
  intros Hirr Hadd Hgeo Hint [Ht Hl] Hs Hdata Hdzdy Hdzdx Hseed.
  eexists. split.
  - exact (maxPoolingBackward_cpu_route _ _ _ _ _ Hgeo Hint data dzdy Hdata Hdzdy
             dzdx Hdzdx).
  - rewrite (@maxPoolingBackward_gpu_in_index_order_when _ _ _ _ _ Hgeo Hint T ST
               data dzdy Hdata Hdzdy DV Ht Hl Hs dzdx); [| | exact Hdzdx].
    2:{ intros mem j k Hj Hk. destruct Hadd as [Hapart | [Hcomm Hassoc]].
        - exact (@backward_gpu_step_comm_apart _ _ _ _ _ Hgeo Hint T ST data dzdy Hdata
                   mem j k eq_refl Hapart Hirr Hseed Hj Hk).
        - now apply backward_gpu_step_comm. }
    f_equal. unfold backward_route.
    rewrite (range_cons 0 1), (range_nil (0 + 1) 1) by lia. cbn [fold_left].
    destruct (pooled_extents _ _ _ _ _ Hgeo Hint) as [HPW HPH].
    replace (pooled_extent_spec width poolSize poolStride
             * pooled_extent_spec height poolSize poolStride * 1)
      with (pooled_extent_spec height poolSize poolStride
            * pooled_extent_spec width poolSize poolStride) by ring.
    rewrite fold_range_rows by lia.
    apply fold_left_ext. intros row ph Hph. apply in_range in Hph.
    apply fold_left_ext. intros mem pw Hpw. apply in_range in Hpw.
    assert (Hc : 0 <= 0 < 1) by lia.
    destruct (@backward_gpu_step_argmax _ _ _ _ _ Hgeo Hint T ST data dzdy Hdata
                0 ph pw Hirr Hseed Hc Hph Hpw) as (h & w & Hscan & _ & _ & Hstep).
    replace (pw + ph * pooled_extent_spec width poolSize poolStride)
      with (volume_index (pooled_extent_spec width poolSize poolStride)
                         (pooled_extent_spec height poolSize poolStride) 0 ph pw)
      by (unfold volume_index; ring).
    rewrite Hstep. unfold backward_cell.
    pose proof (window_rows _ _ _ _ _ Hgeo Hint ph Hph) as Hrows.
    pose proof (window_columns _ _ _ _ _ Hgeo Hint pw Hpw) as Hcols.
    rewrite !Z.min_l by lia. rewrite Hscan.
    replace (volume_index width height 0 h w) with (h * width + w)
      by (unfold volume_index; ring).
    reflexivity.
Qed.

Lemma maxPoolingBackward_backends_agree_on_one_channel_witness :
  exists out,
    @maxPoolingBackward_cpu spec_float float_scalar
      (map float_of_Z scenario) (map float_of_Z scenario)
      (map float_of_Z [10; 20; 30; 40]) 4 4 1 2 2 = Some out /\
    @maxPoolingBackward_gpu spec_float float_scalar (reversed 3)
      (map float_of_Z scenario) (map float_of_Z scenario)
      (map float_of_Z [10; 20; 30; 40]) 4 4 1 2 2 = Some out.
Proof.
  apply (@maxPoolingBackward_backends_agree_on_one_channel spec_float float_scalar
           (reversed 3) (map float_of_Z scenario) (map float_of_Z scenario)
           (map float_of_Z [10; 20; 30; 40]) 4 4 2 2).
  - intros x _. apply SFltb_irrefl.
  - left. lia.
  - exact scenario_geometry.
  - exact scenario_addressable.
  - unfold launchable, INT_MAX. cbn. lia.
  - exact (reversed_fair 3).
  - reflexivity.
  - reflexivity.
  - reflexivity.
  - intros i Hi.
    assert (Hcases : i = 0 \/ i = 1 \/ i = 2 \/ i = 3 \/ i = 4 \/ i = 5 \/ i = 6 \/ i = 7 \/
                     i = 8 \/ i = 9 \/ i = 10 \/ i = 11 \/ i = 12 \/ i = 13 \/ i = 14 \/
                     i = 15) by lia.
    repeat (destruct Hcases as [-> | Hcases]; [reflexivity|]). subst i. reflexivity.
Defined.

(** The sequential backward operator adds onto the [dzdx] it is given: its
    result is, element by element, the [dzdx] on entry plus the result on a
    [dzdx] of zeros. *)
Theorem maxPoolingBackward_cpu_accumulates {T : Type} {ST : Scalar T} (zero : T)
    (dzdx data dzdy : list T) (width height depth poolSize poolStride : Z) :
  (forall x y z : T, s_add x (s_add y z) = s_add (s_add x y) z) ->
  (forall x : T, s_add x zero = x) ->
  valid_geometry width height depth poolSize poolStride ->
  int_addressable width height depth ->
  Z.of_nat (length data) = width * height * depth ->
  Z.of_nat (length dzdy) =
    pooled_extent_spec width poolSize poolStride
    * pooled_extent_spec height poolSize poolStride * depth ->
  Z.of_nat (length dzdx) = width * height * depth ->
  exists fresh,
    maxPoolingBackward_cpu (map (fun _ => zero) dzdx) data dzdy
      width height depth poolSize poolStride = Some fresh /\
    maxPoolingBackward_cpu dzdx data dzdy width height depth poolSize poolStride
    = Some (volume_add dzdx fresh).
Proof.
  intros Hassoc Hzero Hgeo Hint Hdata Hdzdy Hdzdx.
  assert (Hzeros : Z.of_nat (length (map (fun _ : T => zero) dzdx))
                   = width * height * depth) by now rewrite length_map.
  eexists. split.
  - exact (maxPoolingBackward_cpu_route _ _ _ _ _ Hgeo Hint data dzdy Hdata Hdzdy
             _ Hzeros).
  - rewrite (maxPoolingBackward_cpu_route _ _ _ _ _ Hgeo Hint data dzdy Hdata Hdzdy
               dzdx Hdzdx).
    f_equal. rewrite <- (backward_route_volume_add Hassoc) by now rewrite length_map.
    now rewrite (volume_add_zeros zero Hzero).
Qed.

Lemma maxPoolingBackward_cpu_accumulates_witness :
  exists fresh,
    @maxPoolingBackward_cpu Z exact_scalar (map (fun _ => 0) scenario) scenario
      [10; 20; 30; 40] 4 4 1 2 2 = Some fresh /\
    @maxPoolingBackward_cpu Z exact_scalar scenario scenario
      [10; 20; 30; 40] 4 4 1 2 2 = Some (@volume_add Z exact_scalar scenario fresh).
Proof.
  apply (@maxPoolingBackward_cpu_accumulates Z exact_scalar 0
           scenario scenario [10; 20; 30; 40] 4 4 1 2 2
           exact_add_assoc Z.add_0_r scenario_geometry scenario_addressable
           eq_refl eq_refl eq_refl).
Defined.

(** The parallel backward operator adds onto the [dzdx] it is given, as the
    sequential one does. *)
Theorem maxPoolingBackward_gpu_accumulates {T : Type} {ST : Scalar T} {DV : Device}
    (zero : T) (dzdx data dzdy : list T) (width height depth poolSize poolStride : Z) :
  (forall x y z : T, s_add x (s_add y z) = s_add (s_add x y) z) ->
  (forall x : T, s_add x zero = x) ->
  valid_geometry width height depth poolSize poolStride ->
  int_addressable width height depth ->
  launchable width height depth ->
  fair_schedule ->
  Z.of_nat (length data) = width * height * depth ->
  Z.of_nat (length dzdy) =
    pooled_extent_spec width poolSize poolStride
    * pooled_extent_spec height poolSize poolStride * depth ->
  Z.of_nat (length dzdx) = width * height * depth ->
  exists fresh,
    maxPoolingBackward_gpu (map (fun _ => zero) dzdx) data dzdy
      width height depth poolSize poolStride = Some fresh /\
    maxPoolingBackward_gpu dzdx data dzdy width height depth poolSize poolStride
    = Some (volume_add dzdx fresh).
Proof.
  intros Hassoc Hzero Hgeo Hint [Ht Hl] Hs Hdata Hdzdy Hdzdx.
  assert (Hzeros : Z.of_nat (length (map (fun _ : T => zero) dzdx))
                   = width * height * depth) by now rewrite length_map.
  eexists. split.
  - exact (@maxPoolingBackward_gpu_exact _ _ _ _ _ Hgeo Hint T ST data dzdy
             Hdata Hdzdy DV Ht Hl Hs _ Hzeros).
  - rewrite (@maxPoolingBackward_gpu_exact _ _ _ _ _ Hgeo Hint T ST data dzdy
               Hdata Hdzdy DV Ht Hl Hs dzdx Hdzdx).
    f_equal. rewrite <- (fold_left_volume_add).
    + now rewrite (volume_add_zeros zero Hzero).
    + intros m k. apply length_backward_gpu_step.
    + intros m k Hm. now apply backward_gpu_step_volume_add.
    + now rewrite length_map.
Qed.

Lemma maxPoolingBackward_gpu_accumulates_witness :
  exists fresh,
    @maxPoolingBackward_gpu Z exact_scalar (reversed 3) (map (fun _ => 0) scenario)
      scenario [10; 20; 30; 40] 4 4 1 2 2 = Some fresh /\
    @maxPoolingBackward_gpu Z exact_scalar (reversed 3) scenario scenario
      [10; 20; 30; 40] 4 4 1 2 2 = Some (@volume_add Z exact_scalar scenario fresh).
Proof.
  apply (@maxPoolingBackward_gpu_accumulates Z exact_scalar (reversed 3) 0
           scenario scenario [10; 20; 30; 40] 4 4 1 2 2
           exact_add_assoc Z.add_0_r scenario_geometry scenario_addressable).
  - unfold launchable, INT_MAX. cbn. lia.
  - exact (reversed_fair 3).
  - reflexivity.
  - reflexivity.
  - reflexivity.
Defined.

(** The sequential backward operator changes [dzdx] inside the pooling
    windows only: an element that no window covers, as happens when the
    stride exceeds the window or the windows stop short of the border, is
    returned as it was. *)
Theorem maxPoolingBackward_cpu_keeps_uncovered_elements {T : Type} {ST : Scalar T}
    (dzdx data dzdy : list T) (width height depth poolSize poolStride : Z) :
  valid_geometry width height depth poolSize poolStride ->
  int_addressable width height depth ->
  Z.of_nat (length data) = width * height * depth ->
  Z.of_nat (length dzdy) =
    pooled_extent_spec width poolSize poolStride
    * pooled_extent_spec height poolSize poolStride * depth ->
  Z.of_nat (length dzdx) = width * height * depth ->
  exists out,
    maxPoolingBackward_cpu dzdx data dzdy width height depth poolSize poolStride
    = Some out /\
    forall c h w,
      0 <= c < depth -> 0 <= h < height -> 0 <= w < width ->
      (forall ph pw,
         0 <= ph < pooled_extent_spec height poolSize poolStride ->
         0 <= pw < pooled_extent_spec width poolSize poolStride ->
         ~ (ph * poolStride <= h < ph * poolStride + poolSize /\
            pw * poolStride <= w < pw * poolStride + poolSize)) ->
      peek out (volume_index width height c h w)
      = peek dzdx (volume_index width height c h w).
Proof.
  intros Hgeo Hint Hdata Hdzdy Hdzdx.
  eexists. split.
  - exact (maxPoolingBackward_cpu_route _ _ _ _ _ Hgeo Hint data dzdy Hdata Hdzdy
             dzdx Hdzdx).
  - intros c h w Hc Hh Hw Hout.
    now apply (backward_route_uncovered _ _ _ _ _ Hgeo Hint).
Qed.

Lemma maxPoolingBackward_cpu_keeps_uncovered_elements_witness :
  exists out,
    @maxPoolingBackward_cpu Z exact_scalar scenario scenario [10] 4 4 1 2 3 = Some out /\
    @peek Z exact_scalar out (volume_index 4 4 0 3 3) = 16.
Proof.
  assert (Hgeo : valid_geometry 4 4 1 2 3) by (unfold valid_geometry; lia).
  destruct (@maxPoolingBackward_cpu_keeps_uncovered_elements Z exact_scalar
              scenario scenario [10] 4 4 1 2 3 Hgeo scenario_addressable
              eq_refl eq_refl eq_refl) as (out & Hrun & Hkeep).
  exists out. split; [exact Hrun|].
  rewrite (Hkeep 0 3 3); [reflexivity | lia | lia | lia |].
  intros ph pw Hph Hpw.
  change (pooled_extent_spec 4 2 3) with 1 in Hph, Hpw. lia.
Defined.

(** A volume narrower or lower than the window, pooled with a stride of
    one: the extent of the output is computed as zero or less, no cell is
    visited, and the sequential operators return their output buffers as
    they were, whatever their lengths. *)
Theorem sequential_operators_skip_undersized_volume {T : Type} {ST : Scalar T}
    (pooled dzdx data dzdy : list T) (width height depth poolSize : Z) :
  0 <= width -> 0 <= height -> poolSize <= INT_MAX ->
  width < poolSize \/ height < poolSize ->
  maxPooling_cpu pooled data width height depth poolSize 1 = Some pooled /\
  maxPoolingBackward_cpu dzdx data dzdy width height depth poolSize 1 = Some dzdx.
Proof.
  intros Hwidth Hheight Hpool Hsmall.
  assert (Hempty : pooledExtent width poolSize 1 <= 0 \/
                   pooledExtent height poolSize 1 <= 0).
  { destruct Hsmall as [Hw | Hh]; [left | right];
      rewrite pooledExtent_undersized by lia; lia. }
  split.
  - unfold maxPooling_cpu.
    destruct (foldM_inv (fun '(mem, _, _) => mem = pooled)
      (fun c '(mem, data', pooled') =>
         mem <-
           for_ 0 (pooledExtent height poolSize 1) (fun ph mem =>
             for_ 0 (pooledExtent width poolSize 1) (fun pw mem =>
               maxPooling_cpu_cell data width height poolSize 1
                 (pooledExtent width poolSize 1) data' pooled' ph pw mem) mem) mem ;;
         Some (mem,
               data' + size_mul width height,
               pooled' + int_mul (pooledExtent width poolSize 1)
                                 (pooledExtent height poolSize 1)))
      (range 0 depth) (pooled, 0, 0)) as ([[mem d'] p'] & Hrun & Hmem).
    + reflexivity.
    + intros c [[mem d'] p'] _ ->.
      rewrite (empty_plane_loop _ _
                 (fun ph pw mem => maxPooling_cpu_cell data width height poolSize 1
                    (pooledExtent width poolSize 1) d' p' ph pw mem)) by exact Hempty.
      eexists. split; reflexivity.
    + match goal with
      | |- match ?run with _ => _ end = _ =>
          replace run with (Some (mem, d', p')) by (symmetry; exact Hrun)
      end.
      now subst.
  - unfold maxPoolingBackward_cpu.
    destruct (foldM_inv (fun '(mem, _, _, _) => mem = dzdx)
      (fun c '(mem, data', dzdx', dzdy') =>
         mem <-
           for_ 0 (pooledExtent height poolSize 1) (fun ph mem =>
             for_ 0 (pooledExtent width poolSize 1) (fun pw mem =>
               maxPoolingBackward_cpu_cell data dzdy width height poolSize 1
                 (pooledExtent width poolSize 1) data' dzdx' dzdy' ph pw mem) mem) mem ;;
         Some (mem,
               data' + size_mul width height,
               dzdx' + size_mul width height,
               dzdy' + int_mul (pooledExtent width poolSize 1)
                               (pooledExtent height poolSize 1)))
      (range 0 depth) (dzdx, 0, 0, 0)) as ([[[mem d'] x'] y'] & Hrun & Hmem).
    + reflexivity.
    + intros c [[[mem d'] x'] y'] _ ->.
      rewrite (empty_plane_loop _ _
                 (fun ph pw mem => maxPoolingBackward_cpu_cell data dzdy
                    width height poolSize 1
                    (pooledExtent width poolSize 1) d' x' y' ph pw mem)) by exact Hempty.
      eexists. split; reflexivity.
    + match goal with
      | |- match ?run with _ => _ end = _ =>
          replace run with (Some (mem, d', x', y')) by (symmetry; exact Hrun)
      end.
      now subst.
Qed.

Lemma sequential_operators_skip_undersized_volume_witness :
  @maxPooling_cpu Z exact_scalar [7] [1; 2; 3; 4] 1 4 1 2 1 = Some [7] /\
  @maxPoolingBackward_cpu Z exact_scalar [0; 0; 0; 0] [1; 2; 3; 4] [5] 1 4 1 2 1
  = Some [0; 0; 0; 0].
Proof.
  apply (@sequential_operators_skip_undersized_volume Z exact_scalar
           [7] [0; 0; 0; 0] [1; 2; 3; 4] [5] 1 4 1 2).
  - lia.
  - lia.
  - unfold INT_MAX. lia.
  - left. lia.
Defined.
